(** * f90nml: the namelist parser, its value merge and its patch writer

    A shallow embedding of [f90nml/parser.py]: the support functions
    ([pad_array], [merge_values], [merge_lists], [merge_dicts], [delist]),
    the token cursor ([update_tokens]), the index grammar ([parse_index]),
    value placement ([append_value]), the start-index reconciliation and the
    value loop of [parse_variable], and the group loop of [readstream]. *)

From Stdlib Require Import ZArith String Ascii Bool Lia DecimalString.
From stdpp Require Import base list strings.
Import ListNotations.

Local Open Scope string_scope.
Local Open Scope Z_scope.
Local Open Scope list_scope.

(** ** Values *)

Set Warnings "-register-all".
Unset Elimination Schemes.

(** Python values that the parser stores in a namelist.  Floats, complex
    numbers and strings keep the text they were read from; the arithmetic of
    the program never inspects them. *)
Inductive value : Type :=
| VNone
| VInt (n : Z)
| VBool (b : bool)
| VFloat (repr : string)
| VComplex (re im : string)
| VStr (s : string)
| VList (l : list value)
| VDict (d : list (string * value)).

Set Elimination Schemes.

(** [isinstance(v, list)], [isinstance(v, dict)], [v is None]. *)
Definition is_list (v : value) : bool :=
  match v with VList _ => true | _ => false end.
Definition is_dict (v : value) : bool :=
  match v with VDict _ => true | _ => false end.
Definition is_none (v : value) : bool :=
  match v with VNone => true | _ => false end.

(** Ordered dictionaries: an association list with the insertion order of the
    keys.  [dict_get] is [key in d] together with [d[key]]; [dict_set] is
    [d[key] = v], which keeps the place of a key that is present and appends a
    new one. *)
Fixpoint dict_get (k : string) (d : list (string * value)) : option value :=
  match d with
  | [] => None
  | (k', v) :: d' => if String.eqb k k' then Some v else dict_get k d'
  end.

Fixpoint dict_set (k : string) (v : value) (d : list (string * value))
  : list (string * value) :=
  match d with
  | [] => [(k, v)]
  | (k', v') :: d' =>
      if String.eqb k k' then (k', v) :: d' else (k', v') :: dict_set k v d'
  end.

Module Merge.

(** [if not isinstance(x, list): x = [x]] *)
Definition as_list (v : value) : list value :=
  match v with VList l => l | _ => [v] end.

(** The loop of [merge_lists] over [enumerate(new)], once both lists have the
    same length: [src] and [new] are walked together.  Where [new] has
    run out, the [None] it was extended with defers to [src]; where [src] has
    run out, [src[i]] is the [None] it was extended with. *)
Section Loops.
Variable merge_elem : value -> value -> value.

Fixpoint merge_lists_with (src new : list value) {struct new} : list value :=
  match new with
  | [] => src
  | val :: new' =>
      match src with
      | [] => merge_elem VNone val :: merge_lists_with [] new'
      | s :: src' => merge_elem s val :: merge_lists_with src' new'
      end
  end.

Variable merge_values : value -> value -> value.

(** The loop of [merge_dicts] over the keys of [patch].  For a key of
    [src], both branches of the source store [merge_values(src[key],
    patch[key])] under the key: two dicts are merged in place by
    [merge_dicts], which is what [merge_values] does with two dicts. *)
Fixpoint merge_dicts_with (src patch : list (string * value)) {struct patch}
  : list (string * value) :=
  match patch with
  | [] => src
  | (key, pv) :: patch' =>
      match dict_get key src with
      | Some sv => merge_dicts_with (dict_set key (merge_values sv pv) src) patch'
      | None => merge_dicts_with (dict_set key pv src) patch'
      end
  end.
End Loops.

(** [merge_values] and the body of the loop of [merge_lists], by recursion on
    the newer value. *)
Fixpoint merge_values (src new : value) {struct new} : value :=
  match new with
  | VList nl => VList (merge_lists_with merge_elem (as_list src) nl)
  | VDict p =>
      match src with
      | VDict d => VDict (merge_dicts_with merge_values d p)
      | _ =>
          VList match as_list src with
                | [] => [new]
                | VDict d :: src' =>
                    VDict (merge_dicts_with merge_values d p) :: src'
                | _ :: src' => new :: src'
                end
      end
  | VNone =>
      VList match as_list src with
            | [] => [VNone]
            | s :: src' => s :: src'
            end
  | _ =>
      VList match as_list src with
            | [] => [new]
            | _ :: src' => new :: src'
            end
  end
with merge_elem (s val : value) {struct val} : value :=
  match val with
  | VDict p =>
      match s with
      | VDict d => VDict (merge_dicts_with merge_values d p)
      | _ => val
      end
  | VList nl =>
      match s with
      | VList sl => VList (merge_lists_with merge_elem sl nl)
      | _ => val
      end
  | VNone => s
  | _ => val
  end.

Definition merge_lists (src new : list value) : list value :=
  merge_lists_with merge_elem src new.

Definition merge_dicts (src patch : list (string * value))
  : list (string * value) :=
  merge_dicts_with merge_values src patch.

(** [l.extend(None for i in range(len(l), n))] *)
Definition extend_none (l : list value) (n : nat) : list value :=
  l ++ replicate (n - length l) VNone.

(** What the specification's words say of two lists: the shorter one is
    extended with [None] at its front to the longer length, and the two are
    merged position by position.  Kept beside [merge_lists] to be compared
    with it. *)
Definition left_pad_none (l : list value) (n : nat) : list value :=
  replicate (n - length l) VNone ++ l.

Definition merge_lists_left_padded (src new : list value) : list value :=
  let n := Nat.max (length src) (length new) in
  zip_with merge_elem (left_pad_none src n) (left_pad_none new n).

(** The keys of a dict. *)
Definition keys (d : list (string * value)) : list string := map fst d.

(** Two lists hold values of non-overlapping index ranges: at every common
    position at most one of them has an entry that is not [None]. *)
Definition disjoint_ranges (a b : list value) : Prop :=
  forall (i : nat) (x y : value),
    a !! i = Some x -> b !! i = Some y -> x = VNone \/ y = VNone.

End Merge.

(** ** Exceptions, configuration and the parser's cursor *)

(** The exceptions the parser raises or lets through. *)
Inductive exn : Type :=
| StopIteration
| ValueError (msg : string)
| IndexError
| TypeError
| KeyError
| AssertionError
| NotModelled
  (** a statement with a derived type ([%]), which this development does
      not follow *)
| OutOfFuel
  (** a loop of the model was given too few turns; never raised by the
      source *).

Inductive result (A : Type) : Type :=
| Ok (a : A)
| Raise (e : exn).
Arguments Ok {A} a.
Arguments Raise {A} e.

(** The configuration attributes of [Parser], with the values [__init__]
    gives them. *)
Record config : Type := Config {
  default_start_index : Z;
  global_start_index : option Z;
  comment_tokens : string;
  sparse_arrays : bool;
  row_major : bool;
  strict_logical : bool
}.

Definition init_config : config :=
  {| default_start_index := 1;
     global_start_index := None;
     comment_tokens := "!";
     sparse_arrays := false;
     row_major := false;
     strict_logical := true |}.

(** The token management attributes of [Parser]: the iterator [tokens] as
    the list of what it still yields, [token] and [prior_token] ([None]
    before the first tokens are read), and the text written so far to the
    patch file [pfile] ([None] when nothing is being patched). *)
Record parser : Type := Parser {
  tokens : list string;
  token : option string;
  prior_token : option string;
  pfile : option string
}.

(** Computations over the cursor that may raise. *)
Definition M (A : Type) : Type := parser -> result A * parser.

#[global] Instance M_ret : MRet M := fun A a st => (Ok a, st).
#[global] Instance M_bind : MBind M := fun A B f m st =>
  match m st with
  | (Ok a, st') => f a st'
  | (Raise e, st') => (Raise e, st')
  end.

Definition raise {A : Type} (e : exn) : M A := fun st => (Raise e, st).
Definition get_token : M (option string) := fun st => (Ok (token st), st).
Definition get_prior_token : M (option string) :=
  fun st => (Ok (prior_token st), st).

(** [try: body except ValueError: handler], the handler seeing the exception
    it caught. *)
Definition try_ValueError {A : Type} (body : M A) (handler : string -> M A)
  : M A :=
  fun st =>
    match body st with
    | (Raise (ValueError msg), st') => handler msg st'
    | r => r
    end.

(** A loop of the source run with one turn more than there are tokens left:
    every turn of the loops below reads a token or ends the loop, so that
    the turns never run out. *)
Definition with_fuel {A : Type} (loop : nat -> M A) : M A :=
  fun st => loop (S (length (tokens st))) st.

(** ** Characters and tokens *)

Definition LF : string := String (ascii_of_nat 10) "".

(** [string.whitespace] *)
Definition whitespace : string :=
  String " " (String (ascii_of_nat 9) (String (ascii_of_nat 10)
    (String (ascii_of_nat 13) (String (ascii_of_nat 11)
      (String (ascii_of_nat 12) ""))))).

(** [c in s] for a character [c]. *)
Fixpoint char_in (c : ascii) (s : string) : bool :=
  match s with
  | EmptyString => false
  | String c' s' => Ascii.eqb c c' || char_in c s'
  end.

(** [tok[0] in chars]; [None] is the [IndexError] of an empty token. *)
Definition first_in (tok chars : string) : option bool :=
  match tok with
  | EmptyString => None
  | String c _ => Some (char_in c chars)
  end.

(** [tok in (a, b, ...)] for a token that may still be [None]. *)
Definition token_in (tok : option string) (l : list string) : bool :=
  match tok with
  | Some t => existsb (String.eqb t) l
  | None => false
  end.

Definition token_is (tok : option string) (t : string) : bool :=
  token_in tok [t].

(** ** [update_tokens] *)

(** What the search for the next token that is neither white space nor a
    comment ends with. *)
Inductive scan_result : Type :=
| Scanned (next_token : string) (rest : list string) (patch_tokens : string)
  (** the loop ended at [next_token] *)
| Exhausted (next_token : string) (patch_tokens : string)
  (** [StopIteration] inside the [try]: the text is written, then raised *)
| ExhaustedInComment
  (** [StopIteration] inside the comment loop: raised, nothing written *)
| EmptyToken (rest : list string)
  (** [IndexError] of [next_token[0]] *).

(** The [while] loop of [update_tokens], with the loop over a comment inside
    it: [in_comment] says that the inner loop is running.  [pf] is
    [self.pfile] taken as a condition. *)
Fixpoint scan (cfg : config) (pf in_comment : bool) (next_token : string)
    (toks : list string) (patch_tokens : string) {struct toks} : scan_result :=
  let advance patch_tokens :=
    match toks with
    | [] => Exhausted next_token patch_tokens
    | t :: toks' => scan cfg pf false t toks' patch_tokens
    end in
  let comment_loop :=
    if String.eqb next_token LF then advance (patch_tokens +:+ next_token)
    else
      match toks with
      | [] => ExhaustedInComment
      | t :: toks' => scan cfg pf true t toks' (patch_tokens +:+ next_token)
      end in
  if in_comment then comment_loop
  else
    match first_in next_token (comment_tokens cfg +:+ whitespace) with
    | None => EmptyToken toks
    | Some false => Scanned next_token toks patch_tokens
    | Some true =>
        if pf then
          match first_in next_token (comment_tokens cfg) with
          | Some true => comment_loop
          | _ => advance (patch_tokens +:+ next_token)
          end
        else advance patch_tokens
    end.

(** [next_token in ('=', '(', '%')] *)
Definition is_trigger (next_token : string) : bool :=
  existsb (String.eqb next_token) ["="; "("; "%"].

(** [override if override else self.token] *)
Definition override_or (override tok : option string) : option string :=
  match override with
  | Some EmptyString | None => tok
  | Some o => Some o
  end.

Definition update_tokens (cfg : config) (write_token : bool)
    (override : option string) (patch_skip : bool) : M unit :=
  fun st =>
    match tokens st with
    | [] => (Raise StopIteration, st)
    | next_token :: toks =>
        let pf := bool_decide (is_Some (pfile st)) in
        match (if pf && write_token then override_or override (token st)
               else Some "") with
        | None =>
            (Raise TypeError,
             {| tokens := toks; token := token st;
                prior_token := prior_token st; pfile := pfile st |})
        | Some patch_value =>
            let written next_token patch_tokens :=
              let patch_tokens :=
                if negb patch_skip || is_trigger next_token
                then patch_value +:+ patch_tokens else patch_tokens in
              (fun out => out +:+ patch_tokens) <$> pfile st in
            match scan cfg pf false next_token toks "" with
            | Scanned next_token rest patch_tokens =>
                (Ok tt,
                 {| tokens := rest; token := Some next_token;
                    prior_token := token st;
                    pfile := written next_token patch_tokens |})
            | Exhausted next_token patch_tokens =>
                (Raise StopIteration,
                 {| tokens := []; token := token st;
                    prior_token := prior_token st;
                    pfile := written next_token patch_tokens |})
            | ExhaustedInComment =>
                (Raise StopIteration,
                 {| tokens := []; token := token st;
                    prior_token := prior_token st; pfile := pfile st |})
            | EmptyToken rest =>
                (Raise IndexError,
                 {| tokens := rest; token := token st;
                    prior_token := prior_token st; pfile := pfile st |})
            end
        end
    end.

(** A token that [update_tokens] stops at: its first character starts
    neither a comment nor white space. *)
Definition plain (cfg : config) (t : string) : Prop :=
  first_in t (comment_tokens cfg +:+ whitespace) = Some false.

(** The text that [update_tokens] writes for the token it leaves. *)
Definition token_text (write_token : bool) (override : option string)
    (tok : string) : string :=
  if write_token then default tok (override_or override (Some tok)) else "".

(** The cursor just after the name of a variable [v_name], standing on the
    opening parenthesis of its index, with [toks] still to come and nothing
    being patched. *)
Definition at_index (v_name : string) (toks : list string) : parser :=
  {| tokens := toks; token := Some "("; prior_token := Some v_name;
     pfile := None |}.

(** [self.update_tokens()] with the default arguments. *)
Definition next_tokens (cfg : config) : M unit :=
  update_tokens cfg true None false.

(** ** [int(token)] *)

Definition digit_of (c : ascii) : option Z :=
  let n := nat_of_ascii c in
  if (48 <=? n)%nat && (n <=? 57)%nat then Some (Z.of_nat (n - 48)) else None.

(** The digits of a decimal literal, with single underscores between digits
    as Python 3 reads them; [after_digit] says that the character before was
    a digit. *)
Fixpoint digits_value (acc : Z) (after_digit : bool) (s : string) : option Z :=
  match s with
  | EmptyString => if after_digit then Some acc else None
  | String c s' =>
      match digit_of c with
      | Some d => digits_value (10 * acc + d) true s'
      | None =>
          if Ascii.eqb c "_" && after_digit then digits_value acc false s'
          else None
      end
  end.

(** [int(s)] on a token: an optional sign and a decimal literal in ASCII
    (tokens carry no white space around them); [None] is its [ValueError]. *)
Definition pyint (s : string) : option Z :=
  match s with
  | String "-" s' => Z.opp <$> digits_value 0 false s'
  | String "+" s' => digits_value 0 false s'
  | _ => digits_value 0 false s
  end.

(** The message of the [ValueError] of [int(s)]. *)
Definition int_error (s : string) : string :=
  "invalid literal for int() with base 10: '" +:+ s +:+ "'".

(** [int(self.token)] *)
Definition int_of_token (tok : option string) : M Z :=
  match tok with
  | Some t =>
      match pyint t with
      | Some n => mret n
      | None => raise (ValueError (int_error t))
      end
  | None => raise TypeError
  end.

(** ** [parse_index] and [parse_indices] *)

(** An index triplet [(i_start, i_end, i_stride)]. *)
Definition triplet : Type := option Z * option Z * option Z.

Definition parse_index (cfg : config) (v_name : string) : M triplet :=
  (* Start index *)
  next_tokens cfg;;
  i_start ← try_ValueError
    (tok ← get_token; n ← int_of_token tok; next_tokens cfg;; mret (Some n))
    (fun msg =>
       tok ← get_token;
       if token_in tok [","; ")"] then
         raise (ValueError (v_name +:+ " index cannot be empty."))
       else if negb (token_is tok ":") then raise (ValueError msg)
       else mret None);
  (* End index *)
  tok ← get_token;
  i_end ←
    (if token_is tok ":" then
       next_tokens cfg;;
       try_ValueError
         (tok ← get_token; n ← int_of_token tok; next_tokens cfg;;
          mret (Some (1 + n)))
         (fun msg =>
            tok ← get_token;
            if token_is tok ":" then
              raise (ValueError (v_name +:+ " end index cannot be implicit "
                                 +:+ "when using stride."))
            else if negb (token_in tok [","; ")"]) then raise (ValueError msg)
            else mret None)
     else if token_in tok [","; ")"] then
       (* Replace index with single-index range: [if i_start:] *)
       mret match i_start with
            | Some n => if n =? 0 then None else Some (1 + n)
            | None => None
            end
     else mret None);
  (* Stride index *)
  tok ← get_token;
  i_stride ←
    (if token_is tok ":" then
       next_tokens cfg;;
       n ← try_ValueError
         (tok ← get_token; int_of_token tok)
         (fun msg =>
            tok ← get_token;
            if token_is tok ")" then
              raise (ValueError (v_name +:+ " stride index cannot be "
                                 +:+ "implicit."))
            else raise (ValueError msg));
       if n =? 0 then
         raise (ValueError (v_name +:+ " stride index cannot be zero."))
       else next_tokens cfg;; mret (Some n)
     else mret None);
  tok ← get_token;
  if negb (token_in tok [","; ")"]) then
    raise (ValueError (v_name +:+ " index did not terminate correctly."))
  else mret (i_start, i_end, i_stride).

(** ['{0}'.format(self.prior_token)] *)
Definition format_token (tok : option string) : string :=
  default "None" tok.

(** The loop of [parse_indices]. *)
Fixpoint parse_indices_loop (fuel : nat) (cfg : config) (v_name : string)
    (v_indices : list triplet) : M (list triplet) :=
  tok ← get_token;
  if token_in tok [","; "("] then
    match fuel with
    | O => raise OutOfFuel
    | S fuel' =>
        idx ← parse_index cfg v_name;
        parse_indices_loop fuel' cfg v_name (v_indices ++ [idx])
    end
  else mret v_indices.

Definition parse_indices (cfg : config) : M (list triplet) :=
  v_name ← get_prior_token;
  with_fuel (fun fuel => parse_indices_loop fuel cfg (format_token v_name) []).

(** ** The index generator *)

(** Modelled from the spec: [FIndex] of [f90nml/findex.py], which is not
    among the sources: the resolved first-index vector, one integer or unset
    per dimension, and the finite sequence of coordinate tuples that
    [next(v_idx)] still has to yield. *)
Record FIndex : Type := {
  first : list (option Z);
  pending : list (list Z)
}.

(** [next(v_idx)] *)
Definition FIndex_next (v_idx : FIndex) : result (list Z * FIndex) :=
  match pending v_idx with
  | [] => Raise StopIteration
  | v_i :: more => Ok (v_i, {| first := first v_idx; pending := more |})
  end.

(** Every coordinate has one component per dimension. *)
Definition FIndex_wf (v_idx : FIndex) : Prop :=
  Forall (fun v_i => length v_i = length (first v_idx)) (pending v_idx).

(** ** Python lists *)

(** The position that [l[i]] denotes in a list of length [len]: negative
    indices count from the end; [None] is the [IndexError]. *)
Definition py_index (len : nat) (i : Z) : option nat :=
  if (0 <=? i) && (i <? Z.of_nat len) then Some (Z.to_nat i)
  else if (i <? 0) && (- Z.of_nat len <=? i) then Some (Z.to_nat (Z.of_nat len + i))
  else None.

(** [l.extend(x for _ in range(len(l), stop))] *)
Definition extend_to (x : value) (l : list value) (stop : Z) : list value :=
  l ++ replicate (Z.to_nat (stop - Z.of_nat (length l))) x.

(** [l[:-1]] and [l[-1]] *)
Definition but_last {A : Type} (l : list A) : list A := removelast l.
Definition py_last {A : Type} (l : list A) : option A := last l.

(** The first exception of a sequence of results, or all their values. *)
Fixpoint sequence {A : Type} (l : list (result A)) : result (list A) :=
  match l with
  | [] => Ok []
  | Raise e :: _ => Raise e
  | Ok a :: l' =>
      match sequence l' with
      | Ok r => Ok (a :: r)
      | Raise e => Raise e
      end
  end.

(** The value at the end of a path of positions into nested lists. *)
Fixpoint value_at (path : list nat) (v : value) : option value :=
  match path with
  | [] => Some v
  | k :: path' =>
      match v with
      | VList l => l !! k ≫= value_at path'
      | _ => None
      end
  end.

(** The nested list at the end of a path. *)
Definition list_at (path : list nat) (v : value) : option (list value) :=
  match value_at path v with
  | Some (VList l) => Some l
  | _ => None
  end.

(** ** [pad_array] and [append_value] *)

(** [pad_array(v, idx)].  The lists are updated in place in the source; here
    the updated value is returned.  A [v] that is not a list has no [extend]:
    that exception, as every use of a value that is not a list where a list
    is needed below, is rendered as [TypeError]. *)
Fixpoint pad_array (v : value) (idx : list (Z * Z)) {struct idx} : result value :=
  match idx with
  | [] => Raise IndexError
  | (i_v, i_s) :: idx' =>
      match v with
      | VList l =>
          match idx' with
          | _ :: _ =>
              (* Append missing subarrays, then pad elements *)
              match sequence (map (fun e => pad_array e idx')
                                (extend_to (VList []) l (i_v - i_s + 1))) with
              | Ok l' => Ok (VList l')
              | Raise e => Raise e
              end
          | [] => Ok (VList (extend_to VNone l (i_v - i_s + 1)))
          end
      | _ => Raise TypeError
      end
  end.

(** The walk of [append_value] down the lists of [v_values] along
    [zip(v_i[:-1], v_s[:-1])] and the assignment at [(v_i[-1], v_s[-1])]:
    [place steps deepest next_value v] is [v] after the assignment. *)
Fixpoint place (steps : list (Z * Z)) (deepest : Z * Z) (next_value : value)
    (v_subval : value) {struct steps} : result value :=
  match v_subval with
  | VList l =>
      match steps with
      | (i_v, i_s) :: steps' =>
          let into (l : list value) : option (result value) :=
            k ← py_index (length l) (i_v - i_s);
            sub ← l !! k;
            Some match place steps' deepest next_value sub with
                 | Ok sub' => Ok (VList (<[k := sub']> l))
                 | Raise e => Raise e
                 end in
          match into l with
          | Some r => r
          | None =>
              (* except IndexError: *)
              default (Raise IndexError)
                (into (extend_to (VList []) l (i_v - i_s + 1)))
          end
      | [] =>
          let (i_v, i_s) := deepest in
          let assign (l : list value) : option (result value) :=
            k ← py_index (length l) (i_v - i_s);
            Some (Ok (VList (<[k := next_value]> l))) in
          match assign l with
          | Some r => r
          | None =>
              (* except IndexError: *)
              default (Raise IndexError)
                (assign (extend_to VNone l (i_v - i_s + 1)))
          end
      end
  | _ => Raise TypeError
  end.

(** One turn of the loop of [append_value] for an indexed variable. *)
Definition append_indexed (cfg : config) (v_values : list value)
    (next_value : value) (v_idx : FIndex) : result (list value * FIndex) :=
  match FIndex_next v_idx with
  | Raise e => Raise e
  | Ok (v_i, v_idx') =>
      let v_s := map (fun idx => default (default_start_index cfg) idx)
                   (first v_idx) in
      let '(v_i, v_s) :=
        if negb (row_major cfg) then (reverse v_i, reverse v_s) else (v_i, v_s) in
      (* Multidimensional arrays *)
      match (if negb (sparse_arrays cfg)
             then pad_array (VList v_values) (zip v_i v_s)
             else Ok (VList v_values)) with
      | Raise e => Raise e
      | Ok v_values =>
          match py_last v_i, py_last v_s with
          | Some i_v, Some i_s =>
              match place (zip (but_last v_i) (but_last v_s)) (i_v, i_s)
                      next_value v_values with
              | Ok (VList v_values) => Ok (v_values, v_idx')
              | Ok _ => Raise TypeError
              | Raise e => Raise e
              end
          | _, _ => Raise IndexError
          end
      end
  end.

(** [append_value(v_values, next_value, v_idx, n_vals)], [turns] being
    [range(n_vals)]. *)
Fixpoint append_value_loop (turns : nat) (cfg : config) (v_values : list value)
    (next_value : value) (v_idx : option FIndex)
    : result (list value * option FIndex) :=
  match turns with
  | O => Ok (v_values, v_idx)
  | S turns' =>
      match v_idx with
      | Some idx =>
          match append_indexed cfg v_values next_value idx with
          | Ok (v_values', idx') =>
              append_value_loop turns' cfg v_values' next_value (Some idx')
          | Raise e => Raise e
          end
      | None =>
          append_value_loop turns' cfg (v_values ++ [next_value]) next_value None
      end
  end.

Definition append_value (cfg : config) (v_values : list value)
    (next_value : value) (v_idx : option FIndex) (n_vals : Z)
    : result (list value * option FIndex) :=
  append_value_loop (Z.to_nat n_vals) cfg v_values next_value v_idx.

(** [grows d v v']: down to depth [d], every nested list of [v] is still a
    list in [v'], at the same place and at least as long. *)
Fixpoint grows (d : nat) (v v' : value) {struct d} : Prop :=
  match d with
  | O => True
  | S d' =>
      match v with
      | VList l =>
          exists l' : list value,
            v' = VList l' /\ (length l <= length l')%nat /\
            forall (k : nat) (x : value), l !! k = Some x ->
              exists x' : value, l' !! k = Some x' /\ grows d' x x'
      | _ => True
      end
  end.

(** [regular d v]: down to depth [d], [v] is made of lists, as the array of
    a variable with [d] dimensions is. *)
Fixpoint regular (d : nat) (v : value) {struct d} : Prop :=
  match d with
  | O => True
  | S d' =>
      match v with
      | VList l => Forall (regular d') l
      | _ => False
      end
  end.

(** The coordinates that the generator still yields have one component per
    dimension, none below the start index of its dimension. *)
Definition FIndex_above_start (cfg : config) (v_idx : FIndex) : Prop :=
  let v_s := map (fun idx => default (default_start_index cfg) idx)
               (first v_idx) in
  Forall (fun v_i => length v_i = length (first v_idx)
                     /\ Forall (fun p => p.2 <= p.1) (zip v_i v_s))
    (pending v_idx).

(** The positions that a list of pairs [(i_v, i_s)] denotes, an index below
    its start counting as position 0. *)
Definition path_of (idx : list (Z * Z)) : list nat :=
  map (fun p => Z.to_nat (p.1 - p.2)) idx.

(** [Parser] with [row_major] set. *)
Definition row_major_config : config :=
  {| default_start_index := 1;
     global_start_index := None;
     comment_tokens := "!";
     sparse_arrays := false;
     row_major := true;
     strict_logical := true |}.

(** ** Groups *)

(** [s.lower()], on ASCII letters. *)
Definition lower_char (c : ascii) : ascii :=
  let n := nat_of_ascii c in
  if (65 <=? n)%nat && (n <=? 90)%nat then ascii_of_nat (n + 32) else c.

Fixpoint lower (s : string) : string :=
  match s with
  | EmptyString => EmptyString
  | String c s' => String (lower_char c) (lower s')
  end.

(** Modelled from the spec: the [Namelist] of [f90nml/namelist.py], which is
    not among the sources, as far as the parser uses it for a group: an
    ordered mapping from variable names to values, whose item access lowers
    the key, and the mapping [start_index] from variable names to their
    start-index vectors, one integer or unset per dimension. *)
Record Namelist : Type := {
  items : list (string * value);
  start_index : list (string * list (option Z))
}.

Definition empty_Namelist : Namelist := {| items := []; start_index := [] |}.

(** [key in nml] and [nml[key]] *)
Definition Namelist_get (key : string) (nml : Namelist) : option value :=
  dict_get (lower key) (items nml).

(** [nml[key] = v] *)
Definition Namelist_set (key : string) (v : value) (nml : Namelist) : Namelist :=
  {| items := dict_set (lower key) v (items nml);
     start_index := start_index nml |}.

(** A plain dict from names to start-index vectors. *)
Fixpoint index_get (k : string) (d : list (string * list (option Z)))
  : option (list (option Z)) :=
  match d with
  | [] => None
  | (k', v) :: d' => if String.eqb k k' then Some v else index_get k d'
  end.

Fixpoint index_set (k : string) (v : list (option Z))
    (d : list (string * list (option Z))) : list (string * list (option Z)) :=
  match d with
  | [] => [(k, v)]
  | (k', v') :: d' =>
      if String.eqb k k' then (k', v) :: d' else (k', v') :: index_set k v d'
  end.

(** [nml.start_index[key] = first] *)
Definition set_start_index (key : string) (v_first : list (option Z))
    (nml : Namelist) : Namelist :=
  {| items := items nml;
     start_index := index_set key v_first (start_index nml) |}.

(** ** The start index of a variable that is assigned again *)

(** [None] if both are [None], else the least of those that are not. *)
Definition i_first (i_p i_v : option Z) : option Z :=
  match i_p, i_v with
  | None, None => None
  | Some a, None => Some a
  | None, Some b => Some b
  | Some a, Some b => Some (Z.min a b)
  end.

(** The loop [for idx, pv in enumerate(zip(p_idx, v_idx.first))]: the
    entries of [v_idx.first] that have a counterpart in [p_idx] are replaced. *)
Definition update_first (p_idx v_first : list (option Z)) : list (option Z) :=
  zip_with i_first p_idx v_first ++ drop (length p_idx) v_first.

(** [parent[v_name] = pad + parent[v_name]] with [pad] of [n] times [None];
    a missing key is a [KeyError], a value that is not a list a [TypeError]. *)
Definition pad_front (v_name : string) (n : Z) (parent : Namelist)
  : result Namelist :=
  match Namelist_get v_name parent with
  | None => Raise KeyError
  | Some (VList l) =>
      Ok (Namelist_set v_name (VList (replicate (Z.to_nat n) VNone ++ l)) parent)
  | Some _ => Raise TypeError
  end.

(** The loop [for i_p, i_v in zip(p_idx, v_idx.first)] of an indexed
    variable: resize the vector based on the starting index. *)
Fixpoint resize_indexed (v_name : string) (pairs : list (option Z * option Z))
    (parent : Namelist) : result Namelist :=
  match pairs with
  | [] => Ok parent
  | (Some i_p, Some i_v) :: pairs' =>
      if i_v <? i_p then
        match pad_front v_name (i_p - i_v) parent with
        | Ok parent' => resize_indexed v_name pairs' parent'
        | Raise e => Raise e
        end
      else resize_indexed v_name pairs' parent
  | _ :: pairs' => resize_indexed v_name pairs' parent
  end.

(** The same loop for a variable without index, where [v_start] holds
    integers; comparing with a start index that is [None] is a
    [TypeError]. *)
Fixpoint resize_unindexed (v_name : string) (pairs : list (option Z * Z))
    (parent : Namelist) : result Namelist :=
  match pairs with
  | [] => Ok parent
  | (Some i_p, i_v) :: pairs' =>
      if i_v <? i_p then
        match pad_front v_name (i_p - i_v) parent with
        | Ok parent' => resize_unindexed v_name pairs' parent'
        | Raise e => Raise e
        end
      else resize_unindexed v_name pairs' parent
  | (None, _) :: _ => Raise TypeError
  end.

(** The block of [parse_variable] that updates the starting index of an
    indexed variable against the record of the group: the start-index
    vector of the variable and the group after it. *)
Definition reconcile_indexed (cfg : config) (v_name : string)
    (v_first : list (option Z)) (parent : Namelist)
  : result (list (option Z) * Namelist) :=
  match index_get (lower v_name) (start_index parent) with
  | Some p_idx =>
      let v_first := update_first p_idx v_first in
      match resize_indexed v_name (zip p_idx v_first) parent with
      | Ok parent' =>
          Ok (v_first, set_start_index (lower v_name) v_first parent')
      | Raise e => Raise e
      end
  | None =>
      (* If variable already existed without an index, then assume a
         1-based index *)
      let v_first :=
        if bool_decide (is_Some (Namelist_get v_name parent))
        then map (fun _ => Some (default_start_index cfg)) v_first
        else v_first in
      Ok (v_first, set_start_index (lower v_name) v_first parent)
  end.

(** The block for a variable without index: if an indexed variable already
    exists, it is re-indexed with the default start index. *)
Definition reconcile_unindexed (cfg : config) (v_name : string)
    (parent : Namelist) : result Namelist :=
  match index_get v_name (start_index parent) with
  | Some _ =>
      match index_get (lower v_name) (start_index parent) with
      | None => Raise KeyError
      | Some p_start =>
          let v_start := map (fun _ => default_start_index cfg) p_start in
          match resize_unindexed v_name (zip p_start v_start) parent with
          | Ok parent' =>
              Ok (set_start_index (lower v_name) (Some <$> v_start) parent')
          | Raise e => Raise e
          end
      end
  | None => Ok parent
  end.

(** The number of placeholders that the resize loops put in front of the
    array: for every dimension whose start index was lowered from [i_p] to
    [i_v], one per index from [i_v] up to [i_p]. *)
Definition lowered_by (pairs : list (option Z * option Z)) : nat :=
  sum_list_with
    (fun p => match p with
              | (Some i_p, Some i_v) => Z.to_nat (i_p - i_v)
              | _ => 0%nat
              end) pairs.

(** The same count when every start index is lowered to [i_v]. *)
Definition lowered_to (i_v : Z) (p_start : list (option Z)) : nat :=
  lowered_by (map (fun i_p => (i_p, Some i_v)) p_start).

(** ** [delist] and the end of [parse_variable] *)

(** [delist(values)]: reduce lists of zero or one elements to individual
    values. *)
Definition delist (values : list value) : value :=
  match values with
  | [] => VNone
  | [v] => v
  | _ => VList values
  end.

(** A list taken as a condition: [None] and the empty list are false. *)
Definition truthy_list (l : option (list value)) : option (list value) :=
  match l with
  | Some (_ :: _) => l
  | _ => None
  end.

(** The last statements of [parse_variable]:
    [if patch_values: v_values = patch_values] and
    [if not v_idx: v_values = delist(v_values)]. *)
Definition finish_variable (patch_values : option (list value))
    (v_idx : option FIndex) (v_values : list value) : value :=
  let v_values := default v_values (truthy_list patch_values) in
  match v_idx with
  | Some _ => VList v_values
  | None => delist v_values
  end.

(** ** [parse_value], [parse_variable] and [readstream] *)

Definition lift {A : Type} (r : result A) : M A := fun st => (r, st).

(** [try: body except StopIteration: ...], [None] saying that the exception
    was caught. *)
Definition try_StopIteration {A : Type} (body : M A) : M (option A) :=
  fun st =>
    match body st with
    | (Ok a, st') => (Ok (Some a), st')
    | (Raise StopIteration, st') => (Ok None, st')
    | (Raise e, st') => (Raise e, st')
    end.

(** [d.pop(key)] on the items that are left. *)
Fixpoint dict_remove (k : string) (d : list (string * value))
  : list (string * value) :=
  match d with
  | [] => []
  | (k', v) :: d' =>
      if String.eqb k k' then d' else (k', v) :: dict_remove k d'
  end.

(** [assert isinstance(n_vals, int)]; a [bool] is an [int]. *)
Definition assert_int (v : value) : M Z :=
  match v with
  | VInt n => mret n
  | VBool b => mret (if b then 1 else 0)
  | _ => raise AssertionError
  end.

Definition is_complex (v : value) : bool :=
  match v with VComplex _ _ => true | _ => false end.

(** [(prior, tok) in ((a, b), ...)] *)
Definition tokens_in (prior tok : option string) (l : list (string * string))
  : bool :=
  match prior, tok with
  | Some p, Some t => existsb (fun ab => String.eqb p ab.1 && String.eqb t ab.2) l
  | _, _ => false
  end.

Section Parser.

(** What the parser takes from modules that are not among the sources:
    - [fpy], the conversions [pyfloat], [pycomplex], [pybool] (with
      [strict_logical]) and [pystr] of [f90nml.fpy], tried in this order
      after [int]: the first value converted, [None] when all raise
      [ValueError];
    - [FIndex_init], the constructor [FIndex(bounds, first)];
    - [f90repr] and [var_strings], the methods of [Namelist] that render a
      value and the lines of a variable. *)
Variable fpy : bool -> string -> option value.
Variable FIndex_init : list triplet -> option Z -> FIndex.
Variable f90repr : value -> string.
Variable var_strings : string -> value -> list string.

Variable cfg : config.

Definition parse_value (write_token : bool) (override : option string)
  : M value :=
  v_str ← get_prior_token;
  v_str ←
    (if token_is v_str "(" then
       (* Construct the complex string *)
       v_re ← get_token;
       update_tokens cfg write_token None false;;
       tok ← get_token;
       if negb (token_is tok ",") then raise AssertionError else
       update_tokens cfg write_token None false;;
       v_im ← get_token;
       update_tokens cfg write_token None false;;
       tok ← get_token;
       if negb (token_is tok ")") then raise AssertionError else
       update_tokens cfg write_token override false;;
       mret (Some ("(" +:+ format_token v_re +:+ ", "
                   +:+ format_token v_im +:+ ")"))
     else mret v_str);
  match v_str with
  | None => raise TypeError
  | Some s =>
      match pyint s with
      | Some n => mret (VInt n)
      | None => mret (default VNone (fpy (strict_logical cfg) s))
      end
  end.

(** The loop of [parse_variable] that adds values until the next variable
    trigger.  [p_idx] counts the patch values that were written. *)
Fixpoint value_loop (fuel : nat) (patch_values : option (list value))
    (v_values : list value) (v_idx : option FIndex) (n_vals : option Z)
    (p_idx : nat) {struct fuel} : M (list value * option FIndex) :=
  tok ← get_token;
  prior ← get_prior_token;
  if negb (token_in tok ["="; "("; "%"])
     || tokens_in prior tok [("=", "("); (",", "(")] then
    match fuel with
    | O => raise OutOfFuel
    | S fuel' =>
        (* Check for repeated values *)
        n_vals ←
          (if token_is tok "*" then
             v ← parse_value true None;
             n ← assert_int v;
             next_tokens cfg;;
             mret n
           else
             mret match n_vals with
                  | None | Some 0 => 1
                  | Some n => n
                  end);
        tok ← get_token;
        prior ← get_prior_token;
        appended ←
          (if token_in prior ["="; "%"; ","] then
             (* First check for implicit null values *)
             if token_in tok [","; "/"; "&"; "$"]
                && negb (token_is prior "," && token_in tok ["/"; "&"; "$"])
             then lift (append_value cfg v_values VNone v_idx n_vals)
             else mret (v_values, v_idx)
           else if token_is prior "*" then
             (if negb (token_in tok ["/"; "&"; "$"]) then next_tokens cfg
              else mret tt);;
             tok ← get_token;
             prior ← get_prior_token;
             next_value ←
               (if token_is tok "="
                   || token_in tok ["/"; "&"; "$"] && token_is prior "*"
                then mret VNone
                else parse_value true None);
             lift (append_value cfg v_values next_value v_idx n_vals)
           else
             next_value ← parse_value true None;
             lift (append_value cfg v_values next_value v_idx n_vals));
        let '(v_values, v_idx) := appended in
        tok ← get_token;
        (* Exit for end of nml group (/, &, $) or null broadcast (=) *)
        if token_in tok ["/"; "&"; "$"; "="] then mret (v_values, v_idx)
        else
          match truthy_list patch_values with
          | Some values =>
              if (p_idx <? length values)%nat && negb (token_is tok ",") then
                match values !! p_idx with
                | None => raise IndexError
                | Some p_val =>
                    update_tokens cfg true (Some (f90repr p_val)) false;;
                    (if is_complex p_val then
                       (* Skip over the complex content *)
                       update_tokens cfg false None false;;
                       update_tokens cfg false None false;;
                       update_tokens cfg false None false;;
                       update_tokens cfg false None false
                     else mret tt);;
                    value_loop fuel' patch_values v_values v_idx (Some 1)
                      (S p_idx)
                end
              else
                (* Skip any values beyond the patch size *)
                let skip := (length values <=? p_idx)%nat in
                update_tokens cfg true None skip;;
                value_loop fuel' patch_values v_values v_idx (Some 1) p_idx
          | None =>
              next_tokens cfg;;
              value_loop fuel' patch_values v_values v_idx (Some 1) p_idx
          end
    end
  else mret (v_values, v_idx).

(** What [parse_variable] does once the name of the variable and its index,
    if it has one, are read: the test [if self.token == '%':], whose branch
    for a derived type is not followed, and the branch [else:] that
    constructs the variable array from the [=] on, up to the [return]. *)
Definition assign_values (v_name : string) (v_idx : option FIndex)
    (parent : Namelist) (patch_nml : list (string * value))
  : M (string * value * Namelist * list (string * value)) :=
  tok ← get_token;
  if token_is tok "%" then raise NotModelled
  else if negb (token_is tok "=") then raise AssertionError
  else
    next_tokens cfg;;
    (* Check if value is in the namelist patch *)
    let '(patch_values, patch_nml) :=
      match dict_get (lower v_name) patch_nml with
      | Some values =>
          (Some (Merge.as_list values), dict_remove (lower v_name) patch_nml)
      | None => (None, patch_nml)
      end in
    parsed ← with_fuel (fun fuel =>
                value_loop fuel patch_values [] v_idx None 0);
    let '(v_values, v_idx) := parsed in
    mret (v_name, finish_variable patch_values v_idx v_values, parent,
          patch_nml).

(** [parse_variable(parent, patch_nml)] for the statements [name = values]
    and [name(indices) = values]: the name, the values, the group [parent]
    and the patch as the call leaves them.  The branch of a derived type, a
    [%] after the name or after its index, is not followed. *)
Definition parse_variable (parent : Namelist) (patch_nml : list (string * value))
  : M (string * value * Namelist * list (string * value)) :=
  prior ← get_prior_token;
  match prior with
  | None => raise TypeError
  | Some v_name =>
      tok ← get_token;
      indexed ←
        (if token_is tok "(" then
           v_idx_bounds ← parse_indices cfg;
           let v_idx := FIndex_init v_idx_bounds (global_start_index cfg) in
           (* Update starting index against namelist record *)
           reconciled ← lift (reconcile_indexed cfg v_name (first v_idx) parent);
           let '(v_first, parent) := reconciled in
           next_tokens cfg;;
           mret (Some {| first := v_first; pending := pending v_idx |}, parent)
         else
           (* If indexed variable already exists, then re-index this new
              non-indexed variable using the global start index *)
           parent ← lift (reconcile_unindexed cfg v_name parent);
           mret (None, parent));
      let '(v_idx, parent) := indexed in
      assign_values v_name v_idx parent patch_nml
  end.

(** [self.pfile.write(text)]; without a patch file there is nothing to call
    [write] on. *)
Definition pfile_write (text : string) : M unit :=
  fun st =>
    match pfile st with
    | Some out =>
        (Ok tt, {| tokens := tokens st; token := token st;
                   prior_token := prior_token st;
                   pfile := Some (out +:+ text) |})
    | None => (Raise TypeError, st)
    end.

(** The loop that appends any remaining patched variables to the group and
    writes their lines. *)
Fixpoint append_patched (grp_patch : list (string * value)) (g_vars : Namelist)
  : M Namelist :=
  match grp_patch with
  | [] => mret g_vars
  | (v_name, v_val) :: grp_patch' =>
      let g_vars := Namelist_set v_name v_val g_vars in
      (fix write_lines (v_strs : list string) : M unit :=
         match v_strs with
         | [] => mret tt
         | v_str :: v_strs' =>
             pfile_write ("    " +:+ v_str +:+ LF);; write_lines v_strs'
         end) (var_strings v_name v_val);;
      append_patched grp_patch' g_vars
  end.

(** The loop [while g_name:] of [readstream], which populates one group:
    the namelist [nmls] with the group appended, and what is left of the
    patch of the group. *)
Fixpoint group_loop (fuel : nat) (g_name : string) (g_vars : Namelist)
    (grp_patch : list (string * value)) (nmls : list (string * value))
    {struct fuel} : M (list (string * value) * list (string * value)) :=
  match fuel with
  | O => raise OutOfFuel
  | S fuel' =>
      tok ← get_token;
      (if negb (token_in tok ["="; "%"; "("]) then next_tokens cfg
       else mret tt);;
      (* Set the next active variable *)
      tok ← get_token;
      active ←
        (if token_in tok ["="; "("; "%"] then
           parsed ← parse_variable g_vars grp_patch;
           let '(v_name, v_values, g_vars, grp_patch) := parsed in
           let v_values :=
             match Namelist_get v_name g_vars with
             | Some v_prior_values => Merge.merge_values v_prior_values v_values
             | None => v_values
             end in
           mret (Namelist_set v_name v_values g_vars, grp_patch)
         else mret (g_vars, grp_patch));
      let '(g_vars, grp_patch) := active in
      (* Finalise namelist group *)
      tok ← get_token;
      if token_in tok ["/"; "&"; "$"] then
        g_vars ← append_patched grp_patch g_vars;
        (* Append the grouplist to the namelist *)
        let g_update :=
          match dict_get (lower g_name) nmls with
          | Some g_update => VList (Merge.as_list g_update ++ [VDict (items g_vars)])
          | None => VDict (items g_vars)
          end in
        mret (dict_set (lower g_name) g_update nmls, grp_patch)
      else group_loop fuel' g_name g_vars grp_patch nmls
  end.

(** [while self.token not in ('&', '$'): self.update_tokens()] *)
Fixpoint skip_to_group (fuel : nat) : M unit :=
  tok ← get_token;
  if token_in tok ["&"; "$"] then mret tt
  else
    match fuel with
    | O => raise OutOfFuel
    | S fuel' => next_tokens cfg;; skip_to_group fuel'
    end.

(** A patch: for the name of a group, the patch of its variables. *)
Definition patch_tree : Type := list (string * list (string * value)).

Fixpoint patch_get (k : string) (p : patch_tree) : option (list (string * value)) :=
  match p with
  | [] => None
  | (k', v) :: p' => if String.eqb k k' then Some v else patch_get k p'
  end.

Fixpoint patch_set (k : string) (v : list (string * value)) (p : patch_tree)
  : patch_tree :=
  match p with
  | [] => []
  | (k', v') :: p' =>
      if String.eqb k k' then (k', v) :: p' else (k', v') :: patch_set k v p'
  end.

(** The loop [while True:] of [readstream]. *)
Fixpoint readstream_loop (fuel : nat) (nmls : list (string * value))
    (nml_patch : patch_tree) {struct fuel} : M (list (string * value)) :=
  match fuel with
  | O => raise OutOfFuel
  | S fuel' =>
      found ← try_StopIteration
        ((* Check for classic group terminator *)
         tok ← get_token;
         (if token_is tok "end" then next_tokens cfg else mret tt);;
         (* Ignore tokens outside of namelist groups *)
         with_fuel skip_to_group);
      match found with
      | None => mret nmls
      | Some _ =>
          (* Create the next namelist *)
          next_tokens cfg;;
          tok ← get_token;
          let g_name := format_token tok in
          let grp_patch := default [] (patch_get (lower g_name) nml_patch) in
          populated ←
            (if bool_decide (g_name = "") then mret (nmls, grp_patch)
             else with_fuel (fun fuel =>
                    group_loop fuel g_name empty_Namelist grp_patch nmls));
          let '(nmls, grp_patch) := populated in
          let nml_patch := patch_set (lower g_name) grp_patch nml_patch in
          more ← try_StopIteration (next_tokens cfg);
          match more with
          | None => mret nmls
          | Some _ => readstream_loop fuel' nmls nml_patch
          end
      end
  end.

(** [readstream] from the tokens [f90lex] of the file on: the namelist, and
    the cursor with the text of the patch file.  [patching] says whether
    [read] has opened a patch file. *)
Definition readstream (f90lex : list string) (nml_patch : patch_tree)
    (patching : bool) : result (list (string * value)) * parser :=
  let st := {| tokens := f90lex; token := None; prior_token := None;
               pfile := if patching then Some "" else None |} in
  (* Attempt to get first token; abort on empty file *)
  match try_StopIteration (update_tokens cfg false None false) st with
  | (Ok None, st') => (Ok [], st')
  | (Ok (Some _), st') => readstream_loop (S (length f90lex)) [] nml_patch st'
  | (Raise e, st') => (Raise e, st')
  end.

End Parser.

(** ** Statements and what patching them writes *)

(** A white-space token: [update_tokens] passes it on to the patch file and
    goes on to the next token. *)
Definition blank (cfg : config) (t : string) : Prop :=
  first_in t (comment_tokens cfg +:+ whitespace) = Some true
  /\ first_in t (comment_tokens cfg) = Some false.

(** The tokens that the loops of the parser test for. *)
Definition controls : list string :=
  ["="; "("; "%"; "*"; ","; "/"; "&"; "$"].

Definition is_control (t : string) : bool := existsb (String.eqb t) controls.

(** The token of a literal value: it is not a control token and
    [update_tokens] stops at it. *)
Definition literal_token (cfg : config) (t : string) : Prop :=
  plain cfg t /\ is_control t = false.

(** The text of a run of tokens. *)
Definition cat (toks : list string) : string := foldr String.append "" toks.

(** What [update_tokens] goes over while it patches: white-space tokens and
    comments, a comment being a token that starts with a comment character,
    the tokens after it up to the end of the line, and the end of the
    line. *)
Inductive padding (cfg : config) : list string -> Prop :=
| padding_nil : padding cfg []
| padding_blank (w : string) (ws : list string) :
    blank cfg w -> padding cfg ws -> padding cfg (w :: ws)
| padding_comment (c : string) (body ws : list string) :
    first_in c (comment_tokens cfg) = Some true -> c <> LF ->
    Forall (fun t => t <> LF) body ->
    padding cfg ws -> padding cfg (c :: body ++ LF :: ws).

(** One value of the list of a statement [name = v1, v2, ..., vn]: the token
    of its literal, the white space and comments after the literal, and
    those after the comma that follows (of no use for the last value). *)
Record src_value : Type := {
  lit : string;
  after_lit : list string;
  after_comma : list string
}.

(** The tokens of the values after [x], from the token after the literal of
    [x] on. *)
Fixpoint toks_after (x : src_value) (more : list src_value) : list string :=
  after_lit x ++
  match more with
  | [] => []
  | y :: more' => "," :: after_comma x ++ lit y :: toks_after y more'
  end.

(** The tokens of a list of values. *)
Definition toks_of (vs : list src_value) : list string :=
  match vs with
  | [] => []
  | x :: more => lit x :: toks_after x more
  end.

(** What the patch writer puts out for the values from [x] on, given the
    texts [reprs] of the patch values that are still to be written: the text
    of a patch value in place of a literal (the literal itself where that
    text is empty), and the comma after it if another patch value follows;
    of the source values beyond the patch only the white space and the
    comments around them. *)
Fixpoint emitted (reprs : list string) (x : src_value) (more : list src_value)
  : string :=
  match reprs with r :: _ => token_text true (Some r) (lit x) | [] => "" end
  +:+ cat (after_lit x)
  +:+ match more with
      | [] => ""
      | y :: more' =>
          match reprs with _ :: _ :: _ => "," | _ => "" end
          +:+ cat (after_comma x)
          +:+ emitted (tail reprs) y more'
      end.

(** The literal of the last value. *)
Fixpoint last_lit (x : src_value) (more : list src_value) : string :=
  match more with
  | [] => lit x
  | y :: more' => last_lit y more'
  end.

(** A value of a statement as the tokenizer gives it: a literal token, and
    white space and comments around the comma. *)
Definition well_spaced (cfg : config) (x : src_value) : Prop :=
  literal_token cfg (lit x)
  /\ padding cfg (after_lit x)
  /\ padding cfg (after_comma x).

(** What follows the values of a statement: the terminator of the group,
    or the name of the next variable, which the loop over the values reads
    as one more token before it meets the [=], [(] or [%] behind it. *)
Inductive ending : Type :=
| EndGroup (term : string)
| NextVariable (name : string) (after_name : list string) (trigger : string).

Definition ending_ok (cfg : config) (fin : ending) : Prop :=
  match fin with
  | EndGroup term => term ∈ ["/"; "&"; "$"] /\ plain cfg term
  | NextVariable name after_name trigger =>
      literal_token cfg name /\ padding cfg after_name
      /\ trigger ∈ ["="; "("; "%"] /\ plain cfg trigger
  end.

Definition ending_tokens (fin : ending) : list string :=
  match fin with
  | EndGroup term => [term]
  | NextVariable name after_name trigger => name :: after_name ++ [trigger]
  end.

(** The token that the loop over the values stops at, the token before it,
    [last] being the last literal, and what the patch writer puts out for
    the ending before it stops. *)
Definition ending_token (fin : ending) : string :=
  match fin with
  | EndGroup term => term
  | NextVariable _ _ trigger => trigger
  end.

Definition ending_prior (fin : ending) (last : string) : string :=
  match fin with
  | EndGroup _ => last
  | NextVariable name _ _ => name
  end.

Definition ending_text (fin : ending) : string :=
  match fin with
  | EndGroup _ => ""
  | NextVariable name after_name _ => name +:+ cat after_name
  end.

(** Before the name of the next variable the patch holds no more values
    than [n], the number of values of the statement: the name is not taken
    for a value to patch. *)
Definition ending_fits (fin : ending) (values : list value) (n : nat) : Prop :=
  match fin with
  | EndGroup _ => True
  | NextVariable _ _ _ => (length values <= n)%nat
  end.

(** The calls of [append_value] for the values of a statement, one after
    the other, each with the repeat factor 1. *)
Fixpoint append_values (cfg : config) (v_values : list value)
    (v_idx : option FIndex) (next_values : list value)
  : result (list value * option FIndex) :=
  match next_values with
  | [] => Ok (v_values, v_idx)
  | next_value :: more =>
      match append_value cfg v_values next_value v_idx 1 with
      | Ok (v_values', v_idx') => append_values cfg v_values' v_idx' more
      | Raise e => Raise e
      end
  end.

(** The value [parse_value] reads from a literal token. *)
Definition literal_value (fpy : bool -> string -> option value) (cfg : config)
    (s : string) : value :=
  match pyint s with
  | Some n => VInt n
  | None => default VNone (fpy (strict_logical cfg) s)
  end.

(** ** A statement to patch *)

Module Example.

(** The decimal literal of an integer. *)
Definition show_Z (n : Z) : string := NilZero.string_of_int (Z.to_int n).

(** Modelled from the spec: the rendering of a patch value by
    [Namelist.f90repr], which is not among the sources, for the values
    whose literal the specification fixes: an integer as its decimal literal,
    a logical as [.true.] or [.false.], unset as the empty text; a float and
    a string as the text they were given as. *)
Definition f90repr (v : value) : string :=
  match v with
  | VInt n => show_Z n
  | VBool true => ".true."
  | VBool false => ".false."
  | VFloat repr => repr
  | VStr s => s
  | _ => ""
  end.

(** Modelled from the spec: the conversions of [f90nml.fpy] after [int],
    of which the examples, whose literals are integers, need none: any other
    token is taken as a string, the last conversion. *)
Definition fpy (strict_logical : bool) (s : string) : option value :=
  Some (VStr s).

(** Modelled from the spec: the constructor of the index generator, for an
    index of single indices such as [v(3)] or [v(2, 5)], the only kind in
    the examples: the first index of every dimension is the global start
    index if one is set and else its start, and the generator yields the one
    coordinate of the starts.  Ranges yield no coordinate here. *)
Definition FIndex_init (bounds : list triplet) (global : option Z) : FIndex :=
  {| first := map (fun b => match global with
                            | Some g => Some g
                            | None => b.1.1
                            end) bounds;
     pending :=
       match mapM (fun b : triplet =>
                     match b with
                     | (Some i_start, Some i_end, None) =>
                         if i_end =? i_start + 1 then Some i_start else None
                     | _ => None
                     end) bounds with
       | Some v_i => [v_i]
       | None => []
       end |}.

(** Modelled from the spec: the lines of a variable appended at the end of
    a group, [Namelist.var_strings]; the examples leave no patch value to
    append. *)
Definition var_strings (v_name : string) (v_val : value) : list string := [].

(** Modelled from the spec: the tokens that the [Tokenizer], which is not
    among the sources, gives for the line [&a x=1,2,3 /], white space
    included, with the end of line that [readstream] appends. *)
Definition line_x123 : list string :=
  ["&"; "a"; " "; "x"; "="; "1"; ","; "2"; ","; "3"; " "; "/"; LF].

(** The same for the line [&a x=1,2*3 /]. *)
Definition line_x12r3 : list string :=
  ["&"; "a"; " "; "x"; "="; "1"; ","; "2"; "*"; "3"; " "; "/"; LF].

(** The same for the line [&a x=1,(1.0,2.0) /]. *)
Definition line_x1c : list string :=
  ["&"; "a"; " "; "x"; "="; "1"; ","; "("; "1.0"; ","; "2.0"; ")"; " "; "/"; LF].

(** [Parser().read(nml, patch, out)] from the tokens on: the text of the
    patch file. *)
Definition patched (f90lex : list string) (nml_patch : patch_tree)
  : result (list (string * value)) * option string :=
  let r := readstream fpy FIndex_init f90repr var_strings init_config f90lex
             nml_patch true in
  (r.1, pfile r.2).

End Example.

(** ** The forms of a dimension index *)

(** An integer token: its text and the number that [int] reads from it. *)
Record int_lit : Type := { text : string; number : Z }.

Definition int_lit_ok (i : int_lit) : Prop := pyint (text i) = Some (number i).

(** What stands between the parentheses or commas of an index, for one
    dimension: [n], [[n]:[m]] and [[n]:m:s], and the malformed [], [[n]::] and
    [[n]:m:]. *)
Inductive index_form : Type :=
| IEmpty
| ISingle (i : int_lit)
| IRange (i_start i_end : option int_lit)
| IStride (i_start : option int_lit) (i_end i_stride : int_lit)
| INoEnd (i_start : option int_lit)
| INoStride (i_start : option int_lit) (i_end : int_lit).

Definition opt_text (i : option int_lit) : list string :=
  match i with Some i => [text i] | None => [] end.

Definition index_tokens (f : index_form) : list string :=
  match f with
  | IEmpty => []
  | ISingle i => [text i]
  | IRange i_start i_end => opt_text i_start ++ ":" :: opt_text i_end
  | IStride i_start i_end i_stride =>
      opt_text i_start ++ [":"; text i_end; ":"; text i_stride]
  | INoEnd i_start => opt_text i_start ++ [":"; ":"]
  | INoStride i_start i_end => opt_text i_start ++ [":"; text i_end; ":"]
  end.

Definition index_form_ok (f : index_form) : Prop :=
  match f with
  | IEmpty => True
  | ISingle i => int_lit_ok i
  | IRange i_start i_end =>
      from_option int_lit_ok True i_start /\ from_option int_lit_ok True i_end
  | IStride i_start i_end i_stride =>
      from_option int_lit_ok True i_start /\ int_lit_ok i_end
      /\ int_lit_ok i_stride
  | INoEnd i_start => from_option int_lit_ok True i_start
  | INoStride i_start i_end =>
      from_option int_lit_ok True i_start /\ int_lit_ok i_end
  end.

(** What [parse_index] makes of a form that [term], a comma or a closing
    parenthesis, follows. *)
Definition index_outcome (v_name : string) (f : index_form) (term : string)
  : result triplet :=
  match f with
  | IEmpty => Raise (ValueError (v_name +:+ " index cannot be empty."))
  | ISingle i =>
      Ok (Some (number i),
          if number i =? 0 then None else Some (1 + number i), None)
  | IRange i_start i_end =>
      Ok (number <$> i_start, (fun i => 1 + number i) <$> i_end, None)
  | IStride i_start i_end i_stride =>
      if number i_stride =? 0 then
        Raise (ValueError (v_name +:+ " stride index cannot be zero."))
      else
        Ok (number <$> i_start, Some (1 + number i_end), Some (number i_stride))
  | INoEnd _ =>
      Raise (ValueError (v_name +:+ " end index cannot be implicit "
                         +:+ "when using stride."))
  | INoStride _ _ =>
      if String.eqb term ")" then
        Raise (ValueError (v_name +:+ " stride index cannot be "
                           +:+ "implicit."))
      else Raise (ValueError (int_error term))
  end.

(** ** Notions that the properties below are stated with *)

(** A value that is neither a list nor a dict. *)
Definition scalar (v : value) : Prop := is_list v = false /\ is_dict v = false.

(** A value that is set to a number, a logical or a string. *)
Definition assigned (v : value) : Prop := scalar v /\ is_none v = false.

(** [covers idx v]: on every level of the array [v], every list is long
    enough to hold the position of the index [idx] on that level. *)
Fixpoint covers (idx : list (Z * Z)) (v : value) {struct idx} : Prop :=
  match idx with
  | [] => True
  | (i_v, i_s) :: idx' =>
      match v with
      | VList l => i_v - i_s + 1 <= Z.of_nat (length l) /\ Forall (covers idx') l
      | _ => False
      end
  end.

(** ** What [update_tokens] passes on to the patch file *)

(** The text of the current token, empty before the first token is read. *)
Definition current_text (st : parser) : string := default "" (token st).

(** [passed_on f90lex st]: the patch file holds the text of the tokens of
    [f90lex] that were read so far, but for the current token, which the
    next call of [update_tokens] writes; once the tokens are exhausted it
    holds the text of them all. *)
Definition passed_on (f90lex : list string) (st : parser) : Prop :=
  exists (consumed : list string) (out : string),
    f90lex = consumed ++ tokens st /\ pfile st = Some out
    /\ match tokens st with
       | [] => out = cat f90lex
       | _ :: _ => out +:+ current_text st = cat consumed
       end.

(** [triple P m Q X]: run from a cursor with [P], the computation [m]
    leaves a cursor with [Q a] when it returns [a] and with [X e] when it
    raises [e]. *)
Definition triple {A : Type} (P : parser -> Prop) (m : M A)
    (Q : A -> parser -> Prop) (X : exn -> parser -> Prop) : Prop :=
  forall (st st' : parser) (r : result A),
    P st -> m st = (r, st') ->
    match r with
    | Ok a => Q a st'
    | Raise e => X e st'
    end.

(** What an exception leaves of an invariant [I] of the cursor: a
    [StopIteration] leaves [I] and [E]; a [TypeError] or an [IndexError] may
    leave anything, they are raised half way through [update_tokens] and no
    handler of the parser catches them; any other exception leaves [I]. *)
Definition carried (I E : parser -> Prop) (e : exn) (st : parser) : Prop :=
  match e with
  | StopIteration => I st /\ E st
  | TypeError | IndexError => True
  | _ => I st
  end.

(** The tokens are exhausted. *)
Definition exhausted (st : parser) : Prop := tokens st = [].

(** The tokens of a file as [readstream] collects them: it appends an end
    of line to the tokens of every line, so that the last token, if there is
    one, is an end of line. *)
Definition ends_lines (f90lex : list string) : Prop :=
  f90lex = [] \/ last f90lex = Some LF.

(** A patch that has no value for any variable. *)
Definition no_values (nml_patch : patch_tree) : Prop :=
  Forall (fun p => p.2 = []) nml_patch.

(** ** Files that assign literal values *)

#[global] Instance plain_dec (cfg : config) (t : string) : Decision (plain cfg t).
Proof. unfold plain. apply _. Defined.

(** The tokens that [update_tokens] stops at when nothing is patched: it
    passes over white space and comments. *)
Definition strip (cfg : config) (toks : list string) : list string :=
  filter (plain cfg) toks.

(** [reads_as cfg toks plains]: among the tokens [toks], none of them empty,
    the plain ones are [plains], in this order; the others are white space
    and comments. *)
Definition reads_as (cfg : config) (toks plains : list string) : Prop :=
  Forall (fun t => t <> "") toks /\ strip cfg toks = plains.

(** The cursor of a reader that patches nothing: the prior token, the
    current token, and the plain tokens that are still to come. *)
Definition reading (cfg : config) (prior tok : option string)
    (plains : list string) (st : parser) : Prop :=
  prior_token st = prior /\ token st = tok /\ pfile st = None
  /\ reads_as cfg (tokens st) plains.

(** One value of a statement [name = v1, v2, ...] as its tokens spell it: a
    literal [v], a literal with a repeat count [r*v], nothing at all before
    a comma, or the two parts of a complex number [(re, im)]. *)
Inductive item : Type :=
| ILit (v : string)
| IRep (r : int_lit) (v : string)
| INull
| IComplex (re im : string).

Definition item_tokens (i : item) : list string :=
  match i with
  | ILit v => [v]
  | IRep r v => [text r; "*"; v]
  | INull => []
  | IComplex re im => ["("; re; ","; im; ")"]
  end.

(** The tokens of a literal and of a real part are not control tokens, and
    a repeat count is an integer literal. *)
Definition item_ok (i : item) : Prop :=
  match i with
  | ILit v => is_control v = false
  | IRep r v => int_lit_ok r /\ is_control v = false
  | INull => True
  | IComplex re im => is_control re = false
  end.

(** The text that [parse_value] makes of the parts of a complex number. *)
Definition complex_text (re im : string) : string :=
  "(" +:+ re +:+ ", " +:+ im +:+ ")".

Definition is_null (i : item) : bool :=
  match i with INull => true | _ => false end.

(** The values that an item stands for. *)
Definition item_values (fpy : bool -> string -> option value) (cfg : config)
    (i : item) : list value :=
  match i with
  | ILit v => [literal_value fpy cfg v]
  | IRep r v => replicate (Z.to_nat (number r)) (literal_value fpy cfg v)
  | INull => [VNone]
  | IComplex re im => [literal_value fpy cfg (complex_text re im)]
  end.

(** The tokens of the items of a statement, with the commas between them. *)
Fixpoint items_tokens (i : item) (more : list item) : list string :=
  item_tokens i ++
  match more with
  | [] => []
  | j :: more' => "," :: items_tokens j more'
  end.

(** The last item of a statement. *)
Fixpoint last_item (i : item) (more : list item) : item :=
  match more with
  | [] => i
  | j :: more' => last_item j more'
  end.

(** A statement [name = v1, v2, ..., vn] with at least one item, the last
    of which is not empty. *)
Record statement : Type := {
  s_name : string;
  s_first : item;
  s_more : list item
}.

Definition statement_ok (s : statement) : Prop :=
  is_control (s_name s) = false
  /\ Forall item_ok (s_first s :: s_more s)
  /\ is_null (last_item (s_first s) (s_more s)) = false.

Definition statement_tokens (s : statement) : list string :=
  s_name s :: "=" :: items_tokens (s_first s) (s_more s).

(** The value of the variable of a statement. *)
Definition statement_value (fpy : bool -> string -> option value)
    (cfg : config) (s : statement) : value :=
  delist (concat (item_values fpy cfg <$> (s_first s :: s_more s))).

(** What a group holds after a statement: a variable that is assigned
    again is merged with what it held. *)
Definition assign (fpy : bool -> string -> option value) (cfg : config)
    (g_vars : Namelist) (s : statement) : Namelist :=
  let v_values := statement_value fpy cfg s in
  Namelist_set (s_name s)
    match Namelist_get (s_name s) g_vars with
    | Some v_prior_values => Merge.merge_values v_prior_values v_values
    | None => v_values
    end g_vars.

(** A group: the token that starts it, its name, its statements and the
    token that ends it. *)
Record group : Type := {
  g_start : string;
  g_id : string;
  g_statements : list statement;
  g_term : string
}.

Definition group_ok (g : group) : Prop :=
  g_start g ∈ ["&"; "$"]
  /\ is_control (g_id g) = false
  /\ Forall statement_ok (g_statements g)
  /\ g_term g ∈ ["/"; "&"; "$"].

Definition group_tokens (g : group) : list string :=
  g_start g :: g_id g :: concat (statement_tokens <$> g_statements g)
  ++ [g_term g].

(** The variables of a group, as a dict. *)
Definition group_value (fpy : bool -> string -> option value) (cfg : config)
    (g : group) : value :=
  VDict (items (foldl (assign fpy cfg) empty_Namelist (g_statements g))).

(** What the namelist holds after a group: a second group of a name makes
    a list of groups. *)
Definition add_group (fpy : bool -> string -> option value) (cfg : config)
    (nmls : list (string * value)) (g : group) : list (string * value) :=
  dict_set (lower (g_id g))
    match dict_get (lower (g_id g)) nmls with
    | Some g_update => VList (Merge.as_list g_update ++ [group_value fpy cfg g])
    | None => group_value fpy cfg g
    end nmls.

(** A token outside of the groups: it starts no group. *)
Definition outside (t : string) : Prop := t <> "&" /\ t <> "$".

(** A file: groups, each with the tokens outside of the groups that come
    before it, and the tokens after the last group. *)
Record file : Type := {
  f_groups : list (list string * group);
  f_rest : list string
}.

Definition file_ok (f : file) : Prop :=
  Forall (fun jg => Forall outside jg.1 /\ group_ok jg.2) (f_groups f)
  /\ Forall outside (f_rest f).

Definition file_tokens (f : file) : list string :=
  concat ((fun jg => jg.1 ++ group_tokens jg.2) <$> f_groups f) ++ f_rest f.

Definition file_value (fpy : bool -> string -> option value) (cfg : config)
    (f : file) : list (string * value) :=
  foldl (add_group fpy cfg) [] (snd <$> f_groups f).

(** The turns of the loop of [parse_variable] that an item takes. *)
Definition item_turns (i : item) : nat :=
  match i with INull => 1 | _ => 2 end.

(** The token that the loop leaves as prior token after the last item. *)
Definition item_last_token (i : item) : string :=
  match i with
  | ILit v | IRep _ v => v
  | INull => ""
  | IComplex _ _ => ")"
  end.

(** The turns of the loop that the items of a statement take. *)
Fixpoint items_turns (i : item) (more : list item) : nat :=
  match more with
  | [] => 2
  | j :: more' => item_turns i + items_turns j more'
  end.

(** ** The index of an array with several dimensions *)

(** The triplet that [parse_index] returns for a form that is well
    formed. *)
Definition index_triplet (f : index_form) : option triplet :=
  match f with
  | ISingle i =>
      Some (Some (number i),
            if number i =? 0 then None else Some (1 + number i), None)
  | IRange i_start i_end =>
      Some (number <$> i_start, (fun i => 1 + number i) <$> i_end, None)
  | IStride i_start i_end i_stride =>
      if number i_stride =? 0 then None
      else Some (number <$> i_start, Some (1 + number i_end),
                 Some (number i_stride))
  | _ => None
  end.

(** The tokens of the indices of the dimensions, between the parentheses,
    with the commas between them. *)
Fixpoint indices_tokens (f : index_form) (more : list index_form)
  : list string :=
  index_tokens f ++
  match more with
  | [] => []
  | g :: more' => "," :: indices_tokens g more'
  end.

(** ** The tokens of a file *)

(** [s.isspace()] on ASCII text: [s] is not empty and holds nothing but
    white space, the four ASCII separators included. *)
Definition isspace (s : string) : bool :=
  match s with
  | EmptyString => false
  | _ =>
      forallb (fun c => let n := nat_of_ascii c in
                        (9 <=? n)%nat && (n <=? 13)%nat
                        || (28 <=? n)%nat && (n <=? 32)%nat)
        (list_ascii_of_string s)
  end.

(** [toks[-1] += s]; [None] is the [IndexError] of an empty list. *)
Definition add_to_last (toks : list string) (s : string) : option (list string) :=
  match last toks with
  | Some t => Some (but_last toks ++ [t +:+ s])
  | None => None
  end.

Section Tokens.

(** What [readstream] takes from the [Tokenizer] of [f90nml/tokenizer.py],
    which is not among the sources: its state, the state of a new
    tokenizer, [parse], which returns the tokens of a line and changes the
    state, and the attribute [prior_delim] taken as a condition: the line
    ended inside a delimited string. *)
Variable Tokenizer : Type.
Variable Tokenizer_init : Tokenizer.
Variable Tokenizer_parse : Tokenizer -> string -> list string * Tokenizer.
Variable prior_delim : Tokenizer -> bool.

(** The body of the loop [while tokenizer.prior_delim:] once the next line
    is parsed: the tokens of the statement so far, with the new tokens
    attached. *)
Definition attach (toks new_toks : list string) : result (list string) :=
  match new_toks with
  | [] => (* Skip empty lines *) Ok toks
  | first :: others =>
      match (if isspace first
             then match add_to_last toks first with
                  | Some toks => Ok (toks, others)
                  | None => Raise IndexError
                  end
             else Ok (toks, new_toks)) with
      | Raise e => Raise e
      | Ok (toks, []) => Ok toks
      | Ok (toks, first :: others) =>
          (* Append the rest of the string, attach the rest of the tokens *)
          match add_to_last toks first with
          | Some toks => Ok (toks ++ others)
          | None => Raise IndexError
          end
      end
  end.

(** The loop [for line in nml_file:] of [readstream] with the loop
    [while tokenizer.prior_delim:] inside it, one line of the file at a
    time: [open] holds the tokens of a statement whose last line ended inside
    a delimited string, for which the inner loop takes the next line.  The
    file ending there is the [StopIteration] of [next(nml_file)]. *)
Fixpoint collect_tokens (tokenizer : Tokenizer) (open : option (list string))
    (nml_file : list string) (f90lex : list string) {struct nml_file}
  : result (list string) :=
  match nml_file with
  | [] =>
      match open with
      | None => Ok f90lex
      | Some _ => Raise StopIteration
      end
  | line :: nml_file' =>
      let '(new_toks, tokenizer') := Tokenizer_parse tokenizer line in
      match (match open with
             | None => Ok new_toks
             | Some toks => attach toks new_toks
             end) with
      | Raise e => Raise e
      | Ok toks =>
          if prior_delim tokenizer'
          then collect_tokens tokenizer' (Some toks) nml_file' f90lex
          else collect_tokens tokenizer' None nml_file' (f90lex ++ toks ++ [LF])
      end
  end.

(** The tokens [f90lex] of a file. *)
Definition tokens_of_file (nml_file : list string) : result (list string) :=
  collect_tokens Tokenizer_init None nml_file [].

End Tokens.

(** The lines that [readstream] writes for the variables that are left in
    the patch of a group. *)
Definition patched_lines (var_strings : string -> value -> list string)
    (grp_patch : list (string * value)) : list string :=
  concat ((fun kv => (fun v_str => "    " +:+ v_str +:+ LF)
                     <$> var_strings kv.1 kv.2) <$> grp_patch).

(** ** The tables of a comparison *)

(** The static methods of [NamelistDiff] in [f90nml/diff.py] that turn a
    section of a comparison, a nested dict, into the rows of a table.  A row
    is a Python list; what [_to_lists] returns for an input that is neither
    a dict nor a list is kept as the value it is. *)
Module NamelistDiff.

(** [[[key] + val for val in out]]; only a list can be added to a list. *)
Fixpoint prepend_key (key : string) (out : list value) : result (list value) :=
  match out with
  | [] => Ok []
  | VList val :: out' =>
      match prepend_key key out' with
      | Ok rows => Ok (VList (VStr key :: val) :: rows)
      | Raise e => Raise e
      end
  | _ :: _ => Raise TypeError
  end.

Fixpoint _to_lists (indict : value) (n_values : nat) {struct indict}
  : result (list value) :=
  match indict with
  | VDict d =>
      (* continue searching *)
      (fix items (d : list (string * value)) (outs : list value)
         : result (list value) :=
         match d with
         | [] => Ok outs
         | (key, values) :: d' =>
             match _to_lists values n_values with
             | Raise e => Raise e
             | Ok out =>
                 match prepend_key key out with
                 | Raise e => Raise e
                 | Ok rows => items d' (outs ++ rows)
                 end
             end
         end) d []
  | _ =>
      if (n_values =? 1)%nat
      then (* unique and equal sections have only one value *)
        Ok [VList [indict]]
      else (* difference section has more than one value *)
        Ok [indict]
  end.

(** The cells of the rows, as far as [len(out_i)] and
    [[None]*k + out_i] accept them: a row that is not a list has no length
    or cannot be added to a list. *)
Fixpoint rows_cells (out : list value) : result (list (list value)) :=
  match out with
  | [] => Ok []
  | VList out_i :: out' =>
      match rows_cells out' with
      | Ok rows => Ok (out_i :: rows)
      | Raise e => Raise e
      end
  | _ :: _ => Raise TypeError
  end.

(** [max] of a list of lengths that is not empty. *)
Definition max_length (rows : list (list value)) : nat :=
  foldr Nat.max 0%nat (length <$> rows).

Definition _convert_to_lists (indict : value) (varcols : list string)
  : result (list string * list (list value)) :=
  let n_varcols := length varcols in
  match _to_lists indict n_varcols with
  | Raise e => Raise e
  | Ok out =>
      match rows_cells out with
      | Raise e => Raise e
      | Ok [] => Raise (ValueError "max() arg is an empty sequence")
      | Ok (out_0 :: out') =>
          (* Convert all the list to the same length by prepending Nones *)
          let out_n := max_length (out_0 :: out') in
          let out := (fun out_i => replicate (out_n - length out_i) VNone ++ out_i)
                     <$> out_0 :: out' in
          let head :=
            ((fun i => "level " +:+ Example.show_Z (Z.of_nat i))
             <$> seq 0 (length (default [] (out !! 0%nat)) - n_varcols))
            ++ varcols in
          Ok (head, out)
      end
  end.

(** The variables of a nested dict: every value that is not a dict, with
    the keys that lead to it, in the order of the dict. *)
Fixpoint leaves (v : value) : list (list string * value) :=
  match v with
  | VDict d =>
      (fix items (d : list (string * value)) : list (list string * value) :=
         match d with
         | [] => []
         | (key, values) :: d' =>
             ((fun leaf => (key :: leaf.1, leaf.2)) <$> leaves values)
             ++ items d'
         end) d
  | _ => [([], v)]
  end.

(** The cells of a variable in a table with one column of values: the keys
    that lead to it, then its value. *)
Definition cells (leaf : list string * value) : list value :=
  (VStr <$> leaf.1) ++ [leaf.2].

(** The row of a variable in a table of [n] columns: unset cells first. *)
Definition row_of (n : nat) (leaf : list string * value) : list value :=
  replicate (n - length (cells leaf)) VNone ++ cells leaf.

(** The number of columns of the table of a nested dict with one column of
    values: one more than the keys of its deepest variable. *)
Definition width (v : value) : nat := max_length (cells <$> leaves v).

End NamelistDiff.

(** ** The turns of the loops *)

(** An exception that marks a limit of this development and that the source
    does not raise: the turns of a loop have run out, or a statement with a
    derived type was met. *)
Definition of_model (e : exn) : bool :=
  match e with
  | OutOfFuel | NotModelled => true
  | _ => false
  end.

(** [within f90lex n st]: the tokens that are still to come are the last
    tokens of [f90lex], there are fewer than [n] of them, and the current
    token is a token of [f90lex]. *)
Definition within (f90lex : list string) (n : nat) (st : parser) : Prop :=
  (exists consumed : list string, f90lex = consumed ++ tokens st)
  /\ (length (tokens st) < n)%nat
  /\ forall t : string, token st = Some t -> t ∈ f90lex.

(** What an exception leaves of [within]: it is not the end of the turns, it
    is the mark of a derived type only if [f90lex] has the token [%], and a
    [ValueError], which the parser catches, leaves the cursor [within]. *)
Definition raised_within (f90lex : list string) (n : nat) (e : exn)
    (st : parser) : Prop :=
  e <> OutOfFuel
  /\ (e = NotModelled -> "%" ∈ f90lex)
  /\ forall msg : string, e = ValueError msg -> within f90lex n st.

(** * Properties *)

(** ** The equations of the merge, as the source writes them *)

Module MergeFacts.
Import Merge.

(** The body of the loop of [merge_lists]. *)
Lemma merge_elem_eq (s val : value) :
  merge_elem s val =
    match val, s with
    | VDict p, VDict d => VDict (merge_dicts d p)
    | VList nl, VList sl => VList (merge_lists sl nl)
    | VNone, _ => s
    | _, _ => val
    end.
Proof. destruct val, s; reflexivity. Qed.

Lemma merge_lists_nil_l (new : list value) : merge_lists [] new = new.
Proof.
  unfold merge_lists. induction new as [|v new IH]; simpl; [done|].
  rewrite IH. f_equal. by destruct v.
Qed.

Lemma merge_lists_nil_r (src : list value) : merge_lists src [] = src.
Proof. done. Qed.

Lemma merge_lists_cons (s val : value) (src new : list value) :
  merge_lists (s :: src) (val :: new) = merge_elem s val :: merge_lists src new.
Proof. done. Qed.

Lemma merge_lists_length (src new : list value) :
  length (merge_lists src new) = Nat.max (length src) (length new).
Proof.
  revert src. induction new as [|v new IH]; intros src.
  - rewrite merge_lists_nil_r. simpl. lia.
  - destruct src as [|s src].
    + by rewrite merge_lists_nil_l.
    + rewrite merge_lists_cons. simpl. by rewrite IH.
Qed.

(** [merge_lists] is the source's loop: both lists are extended at their end
    with [None] to the longer length and merged position by position. *)
Lemma merge_lists_eq (src new : list value) :
  let n := Nat.max (length src) (length new) in
  merge_lists src new = zip_with merge_elem (extend_none src n) (extend_none new n).
Proof.
  unfold extend_none. revert src. induction new as [|v new IH]; intros src.
  - rewrite merge_lists_nil_r. cbn [length]. rewrite Nat.max_0_r, Nat.sub_diag, app_nil_r.
    rewrite Nat.sub_0_r. cbn [app]. induction src as [|s src IHs]; [done|].
    cbn. by rewrite <- IHs.
  - destruct src as [|s src].
    + rewrite merge_lists_nil_l. specialize (IH []).
      rewrite merge_lists_nil_l in IH. cbn in IH |- *.
      rewrite Nat.sub_diag in IH |- *. rewrite app_nil_r in IH |- *.
      rewrite Nat.sub_0_r in IH. f_equal; [by destruct v|done].
    + rewrite merge_lists_cons. cbn. f_equal. apply IH.
Qed.

(** Position [i] of the merge, with [None] standing for a missing entry. *)
Lemma merge_lists_lookup (src new : list value) (i : nat) :
  (i < Nat.max (length src) (length new))%nat ->
  merge_lists src new !! i =
    Some (merge_elem (default VNone (src !! i)) (default VNone (new !! i))).
Proof.
  revert src i. induction new as [|v new IH]; intros src i Hi.
  - rewrite merge_lists_nil_r. simpl in *. rewrite Nat.max_0_r in Hi.
    destruct (lookup_lt_is_Some_2 src i Hi) as [x Hx]. by rewrite Hx.
  - destruct src as [|s src].
    + rewrite merge_lists_nil_l. simpl in Hi.
      destruct (lookup_lt_is_Some_2 (v :: new) i Hi) as [x Hx].
      rewrite Hx. simpl. by destruct x.
    + rewrite merge_lists_cons. destruct i as [|i]; [done|].
      simpl. apply IH. simpl in Hi. lia.
Qed.

(** [merge_values] as the source writes it. *)
Lemma merge_values_eq (src new : value) :
  merge_values src new =
    match src, new with
    | VDict d, VDict p => VDict (merge_dicts d p)
    | _, _ => VList (merge_lists (as_list src) (as_list new))
    end.
Proof.
  destruct new as [| | | | | |nl|p]; simpl.
  1-6: destruct src as [| | | | | |[|s0 sl]|]; reflexivity.
  - by destruct src.
  - destruct src as [| | | | | |[|s0 sl]|]; try reflexivity.
    destruct s0; reflexivity.
Qed.

(** The loop of [merge_dicts], one key of [patch] at a time. *)
Lemma merge_dicts_cons (key : string) (pv : value) (src patch : list (string * value)) :
  merge_dicts src ((key, pv) :: patch) =
    match dict_get key src with
    | Some sv => merge_dicts (dict_set key (merge_values sv pv) src) patch
    | None => merge_dicts (dict_set key pv src) patch
    end.
Proof. done. Qed.

End MergeFacts.

(** ** Value merge *)

Module MergeProps.
Import Merge MergeFacts.

Lemma dict_get_set_eq (k : string) (v : value) (d : list (string * value)) :
  dict_get k (dict_set k v d) = Some v.
Proof.
  induction d as [|[k' v'] d IH]; simpl.
  - by rewrite String.eqb_refl.
  - destruct (String.eqb k k') eqn:E; simpl; rewrite E; [done|apply IH].
Qed.

Lemma dict_get_set_ne (k k' : string) (v : value) (d : list (string * value)) :
  k <> k' -> dict_get k' (dict_set k v d) = dict_get k' d.
Proof.
  intros Hne. induction d as [|[k0 v0] d IH]; simpl.
  - destruct (String.eqb k' k) eqn:E; [|done].
    apply String.eqb_eq in E. congruence.
  - destruct (String.eqb k k0) eqn:E; simpl.
    + apply String.eqb_eq in E. subst k0.
      destruct (String.eqb k' k) eqn:E'; [|done].
      apply String.eqb_eq in E'. congruence.
    + by rewrite IH.
Qed.

Lemma dict_get_not_key (k : string) (d : list (string * value)) :
  k ∉ keys d -> dict_get k d = None.
Proof.
  induction d as [|[k' v'] d IH]; simpl; [done|].
  intros Hk. apply not_elem_of_cons in Hk as [Hne Hk].
  destruct (String.eqb k k') eqn:E; [|by apply IH].
  apply String.eqb_eq in E. done.
Qed.

(** [merge_dicts], key by key. *)
Lemma merge_dicts_get (src patch : list (string * value)) (k : string) :
  NoDup (keys patch) ->
  dict_get k (merge_dicts src patch) =
    match dict_get k patch with
    | None => dict_get k src
    | Some pv =>
        match dict_get k src with
        | None => Some pv
        | Some sv => Some (merge_values sv pv)
        end
    end.
Proof.
  revert src. induction patch as [|[key pv] patch IH]; intros src Hnd; [done|].
  unfold keys in Hnd. simpl in Hnd. apply NoDup_cons in Hnd as [Hkey Hnd].
  fold (keys patch) in Hkey, Hnd. rewrite merge_dicts_cons. simpl.
  destruct (String.eqb k key) eqn:E.
  - apply String.eqb_eq in E. subst key.
    destruct (dict_get k src) as [sv|]; rewrite (IH _ Hnd);
      rewrite (dict_get_not_key _ _ Hkey); apply dict_get_set_eq.
  - assert (key <> k) as Hne.
    { intros ->. by rewrite String.eqb_refl in E. }
    destruct (dict_get key src) as [sv|]; rewrite (IH _ Hnd);
      by rewrite (dict_get_set_ne _ _ _ _ Hne).
Qed.

Lemma merge_lists_disjoint_comm (a b : list value) :
  disjoint_ranges a b -> merge_lists a b = merge_lists b a.
Proof.
  revert b. induction a as [|x a IH]; intros b Hd.
  - by rewrite merge_lists_nil_l, merge_lists_nil_r.
  - destruct b as [|y b].
    + by rewrite merge_lists_nil_l, merge_lists_nil_r.
    + rewrite !merge_lists_cons. f_equal.
      * destruct (Hd 0%nat x y eq_refl eq_refl) as [-> | ->];
          rewrite !merge_elem_eq; [by destruct y | by destruct x].
      * apply IH. intros i x' y' Hx Hy. exact (Hd (S i) x' y' Hx Hy).
Qed.

Lemma merge_elem_containers (s val : value) :
  is_list s && is_list val || is_dict s && is_dict val = true ->
  merge_elem s val = merge_values s val.
Proof. rewrite merge_elem_eq, merge_values_eq. by destruct s, val. Qed.

(** C1, as the specification words it, fails: a scalar [1] merged with the
    later [None, 2] keeps the [1] at the first position, because the shorter
    list is extended at its end; extended at its front, the [1] would be lost
    to the [2]. *)
Lemma merge_values_left_padded_counterexample :
  merge_values (VList [VInt 1]) (VList [VNone; VInt 2]) = VList [VInt 1; VInt 2]
  /\ merge_lists_left_padded [VInt 1] [VNone; VInt 2] = [VNone; VInt 2]
  /\ merge_values (VList [VInt 1]) (VList [VNone; VInt 2])
     <> VList (merge_lists_left_padded [VInt 1] [VNone; VInt 2]).
Proof. repeat split. discriminate. Qed.

(** C1 (amended): [merge_values] of any two values.  Unless both are dicts,
    each value that is not a list is first taken as the list of that one
    value, the two lists are merged and the result is a list: the shorter
    list is extended with [None] at its END to the longer length and the two
    are merged position by position, where a [None] of the newer list defers
    to the older entry, two lists or two dicts at one position are merged
    recursively, and any other newer entry wins.  Two dicts are merged key
    by key: a key of both holds [merge_values] of the two entries, a key of
    one holds that one's entry. *)
Theorem merge_values_right_padded (src new : value) :
  (is_dict src && is_dict new = false ->
   exists a b : list value,
     (forall l, src = VList l -> a = l) /\ (is_list src = false -> a = [src])
     /\ (forall l, new = VList l -> b = l) /\ (is_list new = false -> b = [new])
     /\ let n := Nat.max (length a) (length b) in
        merge_values src new = VList (merge_lists a b)
        /\ merge_lists a b
           = zip_with merge_elem (extend_none a n) (extend_none b n)
        /\ length (merge_lists a b) = n
        /\ forall i : nat, (i < n)%nat ->
             merge_lists a b !! i =
               Some (let s := default VNone (a !! i) in
                     match default VNone (b !! i) with
                     | VNone => s
                     | val =>
                         if is_list s && is_list val || is_dict s && is_dict val
                         then merge_values s val
                         else val
                     end))
  /\ (forall d p : list (string * value),
        src = VDict d -> new = VDict p -> NoDup (keys p) ->
        merge_values src new = VDict (merge_dicts d p)
        /\ forall k : string,
             dict_get k (merge_dicts d p) =
               match dict_get k p with
               | None => dict_get k d
               | Some pv =>
                   match dict_get k d with
                   | None => Some pv
                   | Some sv => Some (merge_values sv pv)
                   end
               end).
Proof.
  split.
  - intros Hdict. exists (as_list src), (as_list new).
    split; [by intros l ->|]. split; [by destruct src|].
    split; [by intros l ->|]. split; [by destruct new|].
    intros n. split.
    { rewrite merge_values_eq. destruct src; try done. by destruct new. }
    split; [apply merge_lists_eq|].
    split; [apply merge_lists_length|]. intros i Hi.
    rewrite merge_lists_lookup by done. f_equal. cbv zeta.
    destruct (default VNone (as_list new !! i)) eqn:Ev; try done;
      destruct (default VNone (as_list src !! i)) eqn:Es; try done;
      by rewrite <- merge_elem_containers.
  - intros d p -> -> Hnd. split; [by rewrite merge_values_eq|].
    intros k. by apply merge_dicts_get.
Qed.

(** The merges of the claim and of the counterexample, of two scalars, of an
    array with a scalar, and of two dicts with a common key. *)
Lemma merge_values_right_padded_witness :
  merge_values (VList [VInt 1]) (VList [VNone; VInt 2]) = VList [VInt 1; VInt 2]
  /\ merge_values (VInt 1) (VInt 2) = VList [VInt 2]
  /\ merge_values (VList [VNone; VNone; VInt 3]) (VInt 1)
     = VList [VInt 1; VNone; VInt 3]
  /\ merge_values (VDict [("x", VInt 1); ("y", VInt 5)])
       (VDict [("x", VList [VNone; VInt 2])])
     = VDict [("x", VList [VInt 1; VInt 2]); ("y", VInt 5)].
Proof.
  split; [|split; [|split]].
  - destruct (merge_values_right_padded (VList [VInt 1]) (VList [VNone; VInt 2]))
      as [H _].
    destruct (H eq_refl) as (a & b & Ha & _ & Hb & _ & Hm & _).
    rewrite (Ha _ eq_refl), (Hb _ eq_refl) in Hm. exact Hm.
  - destruct (merge_values_right_padded (VInt 1) (VInt 2)) as [H _].
    destruct (H eq_refl) as (a & b & _ & Ha & _ & Hb & Hm & _).
    rewrite (Ha eq_refl), (Hb eq_refl) in Hm. exact Hm.
  - destruct (merge_values_right_padded (VList [VNone; VNone; VInt 3]) (VInt 1))
      as [H _].
    destruct (H eq_refl) as (a & b & Ha & _ & _ & Hb & Hm & _).
    rewrite (Ha _ eq_refl), (Hb eq_refl) in Hm. exact Hm.
  - assert (NoDup (keys [("x", VList [VNone; VInt 2])])) as Hnd.
    { apply NoDup_cons. split; [apply not_elem_of_nil|apply NoDup_nil_2]. }
    destruct (merge_values_right_padded (VDict [("x", VInt 1); ("y", VInt 5)])
                (VDict [("x", VList [VNone; VInt 2])])) as [_ H].
    exact (proj1 (H _ _ eq_refl eq_refl Hnd)).
Defined.

(** C4: two lists that hold values of non-overlapping index ranges merge to
    the same value in either order. *)
Theorem merge_values_disjoint_comm (a b : list value) :
  disjoint_ranges a b ->
  merge_values (VList a) (VList b) = merge_values (VList b) (VList a).
Proof.
  intros Hd. rewrite !merge_values_eq. simpl. f_equal.
  by apply merge_lists_disjoint_comm.
Qed.

Lemma merge_values_disjoint_comm_witness :
  merge_values (VList [VInt 1; VNone]) (VList [VNone; VInt 2; VInt 3])
  = merge_values (VList [VNone; VInt 2; VInt 3]) (VList [VInt 1; VNone]).
Proof.
  apply merge_values_disjoint_comm.
  intros [|[|i]] x y Hx Hy; simpl in Hx, Hy.
  - right. congruence.
  - left. congruence.
  - discriminate.
Defined.

(** The empty list is neutral for [merge_lists] on either side. *)
Theorem merge_lists_empty (l : list value) :
  merge_lists [] l = l /\ merge_lists l [] = l.
Proof.
  split; [|apply merge_lists_nil_r].
  induction l as [|v l IH]; [done|].
  rewrite merge_lists_nil_l in IH |- *. done.
Qed.

Lemma merge_elem_assigned (s val : value) : assigned val -> merge_elem s val = val.
Proof. intros [[Hl Hd] Hn]. rewrite merge_elem_eq. by destruct val. Qed.

(** Values that are all set overwrite the older ones from the start of the
    array on; what the older array holds beyond them stays. *)
Theorem merge_lists_overwrites (src new : list value) :
  Forall assigned new -> merge_lists src new = new ++ drop (length new) src.
Proof.
  intros Hnew. revert src. induction Hnew as [|val new Hval _ IH]; intros src.
  - by rewrite merge_lists_nil_r, drop_0.
  - destruct src as [|s src].
    + rewrite (proj1 (merge_lists_empty _)). by rewrite drop_nil, app_nil_r.
    + rewrite merge_lists_cons, IH, merge_elem_assigned by done. done.
Qed.

Lemma merge_lists_overwrites_witness :
  merge_lists [VInt 7; VInt 8; VInt 9] [VInt 1; VInt 2]
  = [VInt 1; VInt 2; VInt 9].
Proof.
  apply (merge_lists_overwrites [VInt 7; VInt 8; VInt 9] [VInt 1; VInt 2]).
  repeat constructor.
Defined.

Lemma merge_elem_assoc (x y z : value) :
  scalar z -> merge_elem (merge_elem x y) z = merge_elem x (merge_elem y z).
Proof.
  intros [Hl Hd]. rewrite (merge_elem_eq y z), (merge_elem_eq _ z).
  destruct z; try done; by rewrite merge_elem_eq; destruct x.
Qed.

(** Three arrays merge to the same array however the merges are grouped,
    when the newest of them holds no list and no dict. *)
Theorem merge_lists_assoc (a b c : list value) :
  Forall scalar c ->
  merge_lists (merge_lists a b) c = merge_lists a (merge_lists b c).
Proof.
  intros Hc. revert a b. induction Hc as [|z c Hz _ IH]; intros a b.
  - by rewrite !merge_lists_nil_r.
  - destruct b as [|y b].
    + by rewrite merge_lists_nil_r, (proj1 (merge_lists_empty _)).
    + destruct a as [|x a].
      * by rewrite !(proj1 (merge_lists_empty _)).
      * rewrite !merge_lists_cons, IH. f_equal. by apply merge_elem_assoc.
Qed.

Lemma merge_lists_assoc_witness :
  merge_lists (merge_lists [VInt 1; VList [VInt 2]] [VNone; VList [VNone; VInt 3]])
    [VNone; VNone; VInt 4]
  = merge_lists [VInt 1; VList [VInt 2]]
      (merge_lists [VNone; VList [VNone; VInt 3]] [VNone; VNone; VInt 4]).
Proof.
  apply (merge_lists_assoc [VInt 1; VList [VInt 2]]
           [VNone; VList [VNone; VInt 3]] [VNone; VNone; VInt 4]).
  repeat constructor.
Defined.

Lemma keys_dict_set (k : string) (v : value) (d : list (string * value)) :
  keys (dict_set k v d) = if decide (k ∈ keys d) then keys d else keys d ++ [k].
Proof.
  induction d as [|[k' v'] d IH]; [done|]. simpl.
  destruct (String.eqb k k') eqn:E.
  - apply String.eqb_eq in E. subst k'. rewrite decide_True; [done|].
    apply elem_of_cons. by left.
  - assert (k <> k') as Hne.
    { intros ->. by rewrite String.eqb_refl in E. }
    unfold keys in *. simpl. rewrite IH.
    destruct (decide (k ∈ map fst d)) as [Hin|Hin].
    + rewrite decide_True; [done|]. apply elem_of_cons. by right.
    + rewrite decide_False; [done|].
      intros [?|?]%elem_of_cons; done.
Qed.

Lemma dict_get_is_key (k : string) (d : list (string * value)) :
  is_Some (dict_get k d) <-> k ∈ keys d.
Proof.
  induction d as [|[k' v'] d IH]; simpl.
  - split; [by intros [? ?]|by intros ?%elem_of_nil].
  - unfold keys in *. simpl. rewrite elem_of_cons.
    destruct (String.eqb k k') eqn:E.
    + apply String.eqb_eq in E. split; [by left|by eexists].
    + assert (k <> k') as Hne.
      { intros ->. by rewrite String.eqb_refl in E. }
      rewrite IH. split; [by right|]. by intros [?|?].
Qed.

Lemma filter_iff_in {A : Type} (P1 P2 : A -> Prop)
    `{!forall x, Decision (P1 x), !forall x, Decision (P2 x)} (l : list A) :
  (forall x, x ∈ l -> P1 x <-> P2 x) -> filter P1 l = filter P2 l.
Proof.
  induction l as [|a l IH]; intros Hiff; [done|].
  assert (filter P1 l = filter P2 l) as Hl.
  { apply IH. intros x Hx. apply Hiff. by right. }
  rewrite !filter_cons, Hl.
  destruct (decide (P1 a)) as [H1|H1].
  - rewrite decide_True; [done|]. apply Hiff; [by left|done].
  - rewrite decide_False; [done|]. intros H2. apply H1. apply Hiff; [by left|done].
Qed.

(** [merge_dicts] keeps the keys of the older dict, in their order, and
    puts the keys that only the newer dict has after them, in the order of
    the newer dict. *)
Theorem merge_dicts_keys (src patch : list (string * value)) :
  NoDup (keys patch) ->
  keys (merge_dicts src patch)
  = keys src ++ filter (fun k => k ∉ keys src) (keys patch).
Proof.
  revert src. induction patch as [|[key pv] patch IH]; intros src Hnd.
  - by rewrite app_nil_r.
  - unfold keys in Hnd. simpl in Hnd. apply NoDup_cons in Hnd as [Hkey Hnd].
    fold (keys patch) in Hkey, Hnd. rewrite merge_dicts_cons.
    change (keys ((key, pv) :: patch)) with (key :: keys patch).
    rewrite filter_cons.
    destruct (dict_get key src) as [sv|] eqn:Hget.
    + assert (key ∈ keys src) as Hin by (apply dict_get_is_key; by eexists).
      rewrite IH, keys_dict_set, !decide_True by done.
      rewrite decide_False by (intros Hn; by apply Hn). done.
    + assert (key ∉ keys src) as Hin.
      { intros Hin%dict_get_is_key. rewrite Hget in Hin. by destruct Hin. }
      rewrite IH, keys_dict_set, decide_False, decide_True by done.
      rewrite <- app_assoc. simpl. do 2 f_equal.
      apply filter_iff_in. intros k Hk.
      rewrite not_elem_of_app, list_elem_of_singleton.
      split; [by intros [? _]|]. intros ?. split; [done|]. by intros ->.
Qed.

Lemma merge_dicts_keys_witness :
  keys (merge_dicts [("x", VInt 1); ("y", VInt 2)]
                    [("z", VInt 3); ("x", VInt 4)])
  = ["x"; "y"; "z"].
Proof.
  rewrite (merge_dicts_keys [("x", VInt 1); ("y", VInt 2)]
             [("z", VInt 3); ("x", VInt 4)]).
  - reflexivity.
  - apply NoDup_cons. split; [|apply NoDup_singleton].
    by intros ?%list_elem_of_singleton.
Defined.

End MergeProps.

(** ** The cursor and the index grammar *)

Module IndexProps.

Lemma bind_ok {A B : Type} (m : M A) (f : A -> M B) (st st' : parser) (a : A) :
  m st = (Ok a, st') -> (m ≫= f) st = f a st'.
Proof. intros H. unfold mbind, M_bind. by rewrite H. Qed.

Lemma bind_raise {A B : Type} (m : M A) (f : A -> M B) (st st' : parser) (e : exn) :
  m st = (Raise e, st') -> (m ≫= f) st = (Raise e, st').
Proof. intros H. unfold mbind, M_bind. by rewrite H. Qed.

(** [update_tokens] at a token that is neither white space nor a comment:
    the token becomes [self.token], whatever is being written. *)
Lemma update_tokens_plain (cfg : config) (w : bool) (o : option string)
    (sk : bool) (st : parser) (t t0 : string) (rest : list string) :
  tokens st = t :: rest -> token st = Some t0 -> plain cfg t ->
  exists out : option string,
    update_tokens cfg w o sk st
    = (Ok tt, {| tokens := rest; token := Some t; prior_token := Some t0;
                 pfile := out |}).
Proof.
  intros Htoks Htok Hplain. unfold update_tokens. rewrite Htoks, Htok.
  assert (exists pv, (if bool_decide (is_Some (pfile st)) && w
                      then override_or o (Some t0) else Some "") = Some pv)
    as [pv ->].
  { destruct (bool_decide _ && w); [|by eexists].
    destruct o as [[|c o]|]; by eexists. }
  assert (scan cfg (bool_decide (is_Some (pfile st))) false t rest ""
          = Scanned t rest "") as ->.
  { destruct rest; simpl; unfold plain in Hplain; by rewrite Hplain. }
  by eexists.
Qed.

Lemma bind_get_token {B : Type} (f : option string -> M B) (st : parser) :
  (get_token ≫= f) st = f (token st) st.
Proof. done. Qed.

Lemma try_ok {A : Type} (body : M A) (h : string -> M A) (st st' : parser) (a : A) :
  body st = (Ok a, st') -> try_ValueError body h st = (Ok a, st').
Proof. intros H. unfold try_ValueError. by rewrite H. Qed.

Lemma try_caught {A : Type} (body : M A) (h : string -> M A) (st st' : parser)
    (msg : string) :
  body st = (Raise (ValueError msg), st') ->
  try_ValueError body h st = h msg st'.
Proof. intros H. unfold try_ValueError. by rewrite H. Qed.

(** An index with a start and nothing else, [v(n)] or [v(n, ...)]: the
    single-index range is made only when [i_start] is not zero. *)
Lemma parse_index_single (cfg : config) (v_name : string) (st : parser)
    (tok term t0 : string) (rest : list string) (n : Z) :
  tokens st = tok :: term :: rest -> token st = Some t0 ->
  plain cfg tok -> plain cfg term -> pyint tok = Some n ->
  term = "," \/ term = ")" ->
  (parse_index cfg v_name st).1
  = Ok (Some n, if n =? 0 then None else Some (1 + n), None).
Proof.
  intros Htoks Htok Hp1 Hp2 Hint Hterm. unfold parse_index, next_tokens.
  destruct (update_tokens_plain cfg true None false st _ _ _ Htoks Htok Hp1)
    as [out1 H1].
  rewrite (bind_ok _ _ _ _ _ H1).
  set (st1 := {| tokens := term :: rest; token := Some tok;
                 prior_token := Some t0; pfile := out1 |}).
  destruct (update_tokens_plain cfg true None false st1 term tok rest
              eq_refl eq_refl Hp2) as [out2 H2].
  erewrite bind_ok; cycle 1.
  { apply try_ok. rewrite bind_get_token. simpl token.
    unfold int_of_token. rewrite Hint.
    erewrite bind_ok by reflexivity. erewrite bind_ok by exact H2.
    reflexivity. }
  rewrite bind_get_token. simpl token.
  destruct Hterm as [-> | ->]; reflexivity.
Qed.

(** [v(n)] with [n] not zero is the single index [(n, n + 1, None)]. *)
Lemma parse_index_single_nonzero (v_name tok : string) (rest : list string) (n : Z) :
  plain init_config tok -> pyint tok = Some n -> n <> 0 ->
  (parse_index init_config v_name (at_index v_name (tok :: ")" :: rest))).1
  = Ok (Some n, Some (n + 1), None).
Proof.
  intros Hp Hint Hn.
  rewrite (parse_index_single init_config v_name _ tok ")" "(" rest n);
    try done; [|by right].
  destruct (Z.eqb_spec n 0); [done|]. by rewrite Z.add_comm.
Qed.

(** C8 fails on the code at the start index 0: [if i_start:] takes 0 for an
    absent start, so [v(0)] is read as [(0, None, None)] and not as the
    single index [(0, 1, None)]. *)
Theorem parse_index_single_zero (v_name : string) (rest : list string) :
  (parse_index init_config v_name (at_index v_name ("0" :: ")" :: rest))).1
  = Ok (Some 0, None, None).
Proof.
  by rewrite (parse_index_single init_config v_name _ "0" ")" "(" rest 0);
    try done; right.
Qed.

(** C7 fails on the code at an implicit stride that a comma follows, as in
    [v(1:5:,2)]: the handler names the variable only when [)] follows, and
    else lets the [ValueError] of [int] through, whose message is about the
    literal and does not name the variable. *)
Theorem parse_index_implicit_stride_comma (v_name : string) (rest : list string) :
  (parse_index init_config v_name
     (at_index v_name ("1" :: ":" :: "5" :: ":" :: "," :: rest))).1
  = Raise (ValueError "invalid literal for int() with base 10: ','").
Proof. destruct rest; reflexivity. Qed.

End IndexProps.

(** ** Value placement *)

Module PlaceProps.

Lemma grows_refl (d : nat) (v : value) : grows d v v.
Proof.
  revert v. induction d as [|d IH]; intros v; [done|].
  destruct v as [| | | | | |l|]; try done. exists l. repeat split; [lia|].
  intros k x Hx. exists x. split; [done|apply IH].
Qed.

Lemma grows_trans (d : nat) (v1 v2 v3 : value) :
  grows d v1 v2 -> grows d v2 v3 -> grows d v1 v3.
Proof.
  revert v1 v2 v3. induction d as [|d IH]; intros v1 v2 v3 H12 H23; [done|].
  destruct v1 as [| | | | | |l1|]; try done.
  destruct H12 as (l2 & -> & Hlen12 & H12).
  destruct H23 as (l3 & -> & Hlen23 & H23).
  exists l3. repeat split; [lia|]. intros k x Hx.
  destruct (H12 k x Hx) as (x2 & Hx2 & Hg12).
  destruct (H23 k x2 Hx2) as (x3 & Hx3 & Hg23).
  exists x3. split; [done|]. by apply (IH x x2 x3).
Qed.

(** A weaker depth is implied. *)
Lemma grows_le (d d' : nat) (v v' : value) :
  (d' <= d)%nat -> grows d v v' -> grows d' v v'.
Proof.
  revert d' v v'. induction d as [|d IH]; intros d' v v' Hle Hg.
  - by replace d' with 0%nat by lia.
  - destruct d' as [|d']; [done|].
    destruct v as [| | | | | |l|]; try done.
    destruct Hg as (l' & -> & Hlen & Hg). exists l'. repeat split; [done|].
    intros k x Hx. destruct (Hg k x Hx) as (x' & Hx' & Hgx).
    exists x'. split; [done|]. apply IH; [lia|done].
Qed.

(** What [grows] says of the nested lists, path by path. *)
Lemma grows_list_at (d : nat) (v v' : value) (path : list nat) (l : list value) :
  grows d v v' -> (length path < d)%nat -> list_at path v = Some l ->
  exists l' : list value,
    list_at path v' = Some l' /\ (length l <= length l')%nat.
Proof.
  revert d v v'. induction path as [|k path IH]; intros d v v' Hg Hd Hl.
  - destruct d as [|d]; [simpl in Hd; lia|].
    unfold list_at in Hl. simpl in Hl. destruct v as [| | | | | |l0|]; try done.
    injection Hl as ->. destruct Hg as (l' & -> & Hlen & _). by exists l'.
  - destruct d as [|d]; [simpl in Hd; lia|].
    unfold list_at in Hl. simpl in Hl. destruct v as [| | | | | |l0|]; try done.
    destruct (l0 !! k) as [x|] eqn:Hx; [|done]. simpl in Hl.
    destruct Hg as (l' & -> & Hlen & Hg).
    destruct (Hg k x Hx) as (x' & Hx' & Hgx).
    destruct (IH d x x' Hgx) as (l1 & Hl1 & Hlen1); [simpl in Hd; lia|done|].
    exists l1. split; [|done]. unfold list_at. simpl. rewrite Hx'. done.
Qed.

Lemma grows_value_at (d : nat) (v v' : value) (path : list nat) :
  grows d v v' -> (length path <= d)%nat -> is_Some (value_at path v) ->
  is_Some (value_at path v').
Proof.
  revert d v v'. induction path as [|k path IH]; intros d v v' Hg Hd Hv; [done|].
  destruct d as [|d]; [simpl in Hd; lia|].
  simpl in Hv. destruct v as [| | | | | |l0|]; try by destruct Hv.
  destruct (l0 !! k) as [x|] eqn:Hx; [|by destruct Hv]. simpl in Hv.
  destruct Hg as (l' & -> & Hlen & Hg).
  destruct (Hg k x Hx) as (x' & Hx' & Hgx).
  simpl. rewrite Hx'. simpl. apply (IH d x x' Hgx); [simpl in Hd; lia|done].
Qed.

Lemma extend_to_length (x : value) (l : list value) (stop : Z) :
  (length l <= length (extend_to x l stop))%nat.
Proof. unfold extend_to. rewrite length_app. lia. Qed.

Lemma extend_to_lookup (x y : value) (l : list value) (stop : Z) (k : nat) :
  l !! k = Some y -> extend_to x l stop !! k = Some y.
Proof. intros H. unfold extend_to. by apply lookup_app_l_Some. Qed.

Lemma sequence_ok {A B : Type} (f : A -> result B) (l : list A) (r : list B) :
  sequence (map f l) = Ok r -> Forall2 (fun a b => f a = Ok b) l r.
Proof.
  revert r. induction l as [|a l IH]; intros r H; simpl in H.
  - injection H as <-. constructor.
  - destruct (f a) as [b|] eqn:Ha; [|done].
    destruct (sequence (map f l)) as [r'|]; [|done].
    injection H as <-. constructor; [done|by apply IH].
Qed.

Lemma py_index_lt (len : nat) (i : Z) (k : nat) :
  py_index len i = Some k -> (k < len)%nat.
Proof.
  unfold py_index. intros H.
  destruct ((0 <=? i) && (i <? Z.of_nat len)) eqn:E1.
  - injection H as <-. apply andb_true_iff in E1 as [H0 H1]. lia.
  - destruct ((i <? 0) && (- Z.of_nat len <=? i)) eqn:E2; [|done].
    injection H as <-. apply andb_true_iff in E2 as [H0 H1]. lia.
Qed.

Lemma py_index_nonneg (len : nat) (i : Z) :
  0 <= i < Z.of_nat len -> py_index len i = Some (Z.to_nat i).
Proof.
  intros H. unfold py_index.
  replace ((0 <=? i) && (i <? Z.of_nat len)) with true; [done|].
  symmetry. apply andb_true_iff. lia.
Qed.

Lemma py_index_beyond (len : nat) (i : Z) :
  Z.of_nat len <= i -> py_index len i = None.
Proof.
  intros H. unfold py_index.
  replace (i <? Z.of_nat len) with false by lia.
  replace (i <? 0) with false by lia. by rewrite andb_false_r.
Qed.

Lemma extend_grows (d : nat) (x : value) (l : list value) (stop : Z) :
  grows (S d) (VList l) (VList (extend_to x l stop)).
Proof.
  exists (extend_to x l stop). repeat split; [apply extend_to_length|].
  intros k y Hy. exists y. split; [by apply extend_to_lookup|apply grows_refl].
Qed.

Lemma insert_grows (d : nat) (l : list value) (k : nat) (sub sub' : value) :
  l !! k = Some sub -> grows d sub sub' ->
  grows (S d) (VList l) (VList (<[k := sub']> l)).
Proof.
  intros Hk Hg. exists (<[k := sub']> l). repeat split.
  - by rewrite length_insert.
  - intros k0 x Hx. destruct (decide (k = k0)) as [<-|Hne].
    + exists sub'. split.
      * apply list_lookup_insert_eq. by apply lookup_lt_Some in Hk.
      * congruence.
    + exists x. split; [by rewrite list_lookup_insert_ne|apply grows_refl].
Qed.

(** [pad_array] only extends the lists of the first [len(idx)] levels. *)
Lemma pad_array_grows (idx : list (Z * Z)) (v v' : value) :
  pad_array v idx = Ok v' -> grows (length idx) v v'.
Proof.
  revert v v'. induction idx as [|[i_v i_s] idx IH]; intros v v' H; [done|].
  simpl in H. destruct v as [| | | | | |l|]; try done.
  destruct idx as [|p idx].
  - injection H as <-. apply extend_grows.
  - destruct (sequence _) as [l'|] eqn:Hseq; [|done]. injection H as <-.
    apply sequence_ok in Hseq.
    exists l'. split; [done|]. split.
    + apply Forall2_length in Hseq. rewrite <- Hseq. apply extend_to_length.
    + intros k x Hx.
      apply (extend_to_lookup (VList []) _ _ (i_v - i_s + 1)) in Hx.
      destruct (Forall2_lookup_l _ _ _ _ _ Hseq Hx) as (x' & Hx' & Hpad).
      exists x'. split; [done|]. by apply IH.
Qed.

(** The walk and the assignment of [append_value] only extend the lists on
    the way and replace one entry of the deepest one. *)
Lemma place_grows (steps : list (Z * Z)) (deepest : Z * Z)
    (next_value v v' : value) :
  place steps deepest next_value v = Ok v' -> grows (S (length steps)) v v'.
Proof.
  revert v v'. induction steps as [|[i_v i_s] steps IH]; intros v v' H.
  - destruct v as [| | | | | |l|]; try done. destruct deepest as [i_v i_s].
    cbn -[grows] in H.
    assert (forall l0 : list value,
              (k ← py_index (length l0) (i_v - i_s);
               Some (Ok (VList (<[k := next_value]> l0)))) = Some (Ok v') ->
              grows 1 (VList l0) v') as Hassign.
    { intros l0 H0.
      destruct (py_index (length l0) _) as [k|] eqn:Hk; simpl in H0; [|done].
      injection H0 as <-. apply py_index_lt in Hk.
      destruct (lookup_lt_is_Some_2 l0 k Hk) as [x Hx].
      by apply (insert_grows 0 l0 k x). }
    destruct (py_index (length l) (i_v - i_s)) as [k|] eqn:Hk.
    + apply Hassign. rewrite Hk. simpl. by rewrite <- H.
    + simpl in H.
      apply (grows_trans _ _ (VList (extend_to VNone l (i_v - i_s + 1))));
        [apply extend_grows|].
      apply Hassign.
      destruct (py_index (length (extend_to VNone l (i_v - i_s + 1))) _);
        simpl in *; [by rewrite <- H|done].
  - destruct v as [| | | | | |l|]; try done. cbn -[grows] in H.
    assert (forall l0 : list value,
              (k ← py_index (length l0) (i_v - i_s);
               sub ← l0 !! k;
               Some match place steps deepest next_value sub with
                    | Ok sub' => Ok (VList (<[k := sub']> l0))
                    | Raise e => Raise e
                    end) = Some (Ok v') ->
              grows (S (S (length steps))) (VList l0) v') as Hinto.
    { intros l0 H0.
      destruct (py_index (length l0) _) as [k|] eqn:Hk; simpl in H0; [|done].
      destruct (l0 !! k) as [sub|] eqn:Hsub; simpl in H0; [|done].
      destruct (place steps deepest next_value sub) as [sub'|] eqn:Hp; [|done].
      injection H0 as <-. apply (insert_grows _ l0 k sub sub' Hsub).
      by apply IH. }
    match type of H with
    | match ?o with _ => _ end = _ => destruct o as [r|] eqn:Ho
    end.
    + apply Hinto. by rewrite Ho, H.
    + apply (grows_trans _ _ (VList (extend_to (VList []) l (i_v - i_s + 1))));
        [apply extend_grows|].
      apply Hinto.
      match type of H with
      | default _ ?o = _ => destruct o as [r|]; simpl in H; [by rewrite H|done]
      end.
Qed.

Lemma but_last_length {A : Type} (l : list A) :
  length (but_last l) = pred (length l).
Proof.
  unfold but_last. rewrite removelast_firstn_len, length_take. lia.
Qed.

(** One indexed placement: the coordinate is taken from the generator and
    the array only grows, down to the depth of the coordinate. *)
Lemma append_indexed_grows (cfg : config) (v v' : list value)
    (next_value : value) (idx idx' : FIndex) :
  FIndex_wf idx ->
  append_indexed cfg v next_value idx = Ok (v', idx') ->
  grows (length (first idx)) (VList v) (VList v')
  /\ first idx' = first idx /\ FIndex_wf idx'.
Proof.
  intros Hwf H. unfold append_indexed, FIndex_next in H.
  destruct (pending idx) as [|v_i more] eqn:Hpend; [done|].
  unfold FIndex_wf in Hwf. rewrite Hpend in Hwf.
  apply Forall_cons in Hwf as [Hlen Hwf].
  set (v_s := map (fun i => default (default_start_index cfg) i) (first idx)) in H.
  assert (length v_s = length (first idx)) as Hs by apply length_map.
  destruct (if negb (row_major cfg) then (reverse v_i, reverse v_s)
            else (v_i, v_s)) as [c s0] eqn:Hcs.
  assert (length c = length (first idx) /\ length s0 = length (first idx))
    as [Hc Hs0].
  { destruct (negb (row_major cfg)); injection Hcs as <- <-;
      rewrite ?length_reverse; done. }
  destruct (if negb (sparse_arrays cfg) then pad_array (VList v) (zip c s0)
            else Ok (VList v)) as [padded|] eqn:Hpad; [|done].
  assert (grows (length (first idx)) (VList v) padded) as Hg1.
  { destruct (negb (sparse_arrays cfg)).
    - apply pad_array_grows in Hpad.
      rewrite length_zip_with, Hc, Hs0, Nat.min_id in Hpad. done.
    - injection Hpad as <-. apply grows_refl. }
  destruct (py_last c) as [i_v|] eqn:Hlc; [|done].
  destruct (py_last s0) as [i_s|]; [|done].
  destruct (place _ _ _ _) as [placed|] eqn:Hplace; [|done].
  destruct placed as [| | | | | |placed|]; try done.
  injection H as <- <-. split; [|done].
  apply place_grows in Hplace.
  rewrite length_zip_with, !but_last_length, Hc, Hs0, Nat.min_id in Hplace.
  apply (grows_trans _ _ padded); [done|].
  assert (length (first idx) <> 0%nat) as Hne.
  { intros H0. rewrite H0 in Hc. by destruct c. }
  by replace (S (pred (length (first idx)))) with (length (first idx))
    in Hplace by lia.
Qed.

Lemma append_value_loop_grows (turns : nat) (cfg : config) (v v' : list value)
    (next_value : value) (idx : FIndex) (idx' : option FIndex) :
  FIndex_wf idx ->
  append_value_loop turns cfg v next_value (Some idx) = Ok (v', idx') ->
  (length v <= length v')%nat
  /\ grows (length (first idx)) (VList v) (VList v').
Proof.
  revert v idx. induction turns as [|turns IH]; intros v idx Hwf H; simpl in H.
  - injection H as <- <-. split; [done|apply grows_refl].
  - destruct (append_indexed cfg v next_value idx) as [[v1 idx1]|] eqn:H1;
      [|done].
    destruct (append_indexed_grows _ _ _ _ _ _ Hwf H1) as (Hg1 & Hf & Hwf1).
    destruct (IH v1 idx1 Hwf1 H) as [Hlen Hg]. rewrite Hf in Hg.
    split; [|by apply (grows_trans _ _ (VList v1))].
    enough (length v <= length v1)%nat by lia.
    destruct (length (first idx)) as [|d] eqn:Hd.
    + unfold append_indexed, FIndex_next in H1.
      destruct (pending idx) as [|v_i more] eqn:Hpend; [done|].
      unfold FIndex_wf in Hwf. rewrite Hpend in Hwf.
      apply Forall_cons in Hwf as [Hvi _]. rewrite Hd in Hvi.
      destruct v_i; [|done]. simpl in H1. rewrite ?reverse_nil in H1.
      destruct (negb (row_major cfg)), (negb (sparse_arrays cfg)); done.
    + destruct Hg1 as (l' & [= <-] & Hl & _). done.
Qed.

(** C3: an indexed placement never shrinks the array.  After a call of
    [append_value] with coordinates from the index generator, the array is at
    least as long as before; every nested list above the depth of the
    coordinates is still a list at the same place and at least as long; and
    every element position down to that depth is still there. *)
Theorem append_value_never_shrinks (cfg : config) (v_values v_values' : list value)
    (next_value : value) (v_idx : FIndex) (v_idx' : option FIndex) (n_vals : Z) :
  FIndex_wf v_idx ->
  append_value cfg v_values next_value (Some v_idx) n_vals
  = Ok (v_values', v_idx') ->
  (length v_values <= length v_values')%nat
  /\ (forall (path : list nat) (l : list value),
        (length path < length (first v_idx))%nat ->
        list_at path (VList v_values) = Some l ->
        exists l' : list value,
          list_at path (VList v_values') = Some l'
          /\ (length l <= length l')%nat)
  /\ (forall path : list nat,
        (length path <= length (first v_idx))%nat ->
        is_Some (value_at path (VList v_values)) ->
        is_Some (value_at path (VList v_values'))).
Proof.
  intros Hwf H. unfold append_value in H.
  destruct (append_value_loop_grows _ _ _ _ _ _ _ Hwf H) as [Hlen Hg].
  split; [done|]. split.
  - intros path l Hp Hl. by apply (grows_list_at _ _ _ _ _ Hg).
  - intros path Hp Hv. by apply (grows_value_at _ _ _ _ Hg).
Qed.

Lemma append_value_never_shrinks_witness :
  let v_idx := {| first := [Some 1; Some 1]; pending := [[2; 2]] |} in
  let v_idx' := {| first := [Some 1; Some 1]; pending := [] |} in
  append_value init_config [VList [VInt 1]] (VInt 7) (Some v_idx) 1
  = Ok ([VList [VInt 1; VNone]; VList [VNone; VInt 7]], Some v_idx')
  /\ exists l' : list value,
       list_at [0%nat] (VList [VList [VInt 1; VNone]; VList [VNone; VInt 7]])
       = Some l' /\ (length [VInt 1] <= length l')%nat.
Proof.
  split; [reflexivity|].
  assert (FIndex_wf {| first := [Some 1; Some 1]; pending := [[2; 2]] |}) as Hwf.
  { repeat constructor. }
  destruct (append_value_never_shrinks init_config [VList [VInt 1]]
              [VList [VInt 1; VNone]; VList [VNone; VInt 7]] (VInt 7)
              {| first := [Some 1; Some 1]; pending := [[2; 2]] |}
              (Some {| first := [Some 1; Some 1]; pending := [] |}) 1
              Hwf eq_refl) as (_ & Hlists & _).
  apply (Hlists [0%nat] [VInt 1]); [simpl; lia|reflexivity].
Defined.

Lemma py_index_nonneg_inv (len : nat) (i : Z) (k : nat) :
  0 <= i -> py_index len i = Some k -> k = Z.to_nat i.
Proof.
  intros Hi H. unfold py_index in H.
  destruct ((0 <=? i) && (i <? Z.of_nat len)); [by injection H|].
  replace (i <? 0) with false in H by lia. done.
Qed.

(** The assignment at a position at or above the start index is read back
    along the positions of the walk. *)
Lemma place_value_at (steps : list (Z * Z)) (deepest : Z * Z)
    (next_value v v' : value) :
  Forall (fun p => p.2 <= p.1) steps -> deepest.2 <= deepest.1 ->
  place steps deepest next_value v = Ok v' ->
  value_at (path_of (steps ++ [deepest])) v' = Some next_value.
Proof.
  intros Hsteps Hdeep. revert v v'.
  induction steps as [|[i_v i_s] steps IH]; intros v v' H.
  - destruct v as [| | | | | |l|]; try done. destruct deepest as [i_v i_s].
    simpl in Hdeep. cbn -[value_at] in H.
    assert (forall l0 : list value,
              (k ← py_index (length l0) (i_v - i_s);
               Some (Ok (VList (<[k := next_value]> l0)))) = Some (Ok v') ->
              value_at [Z.to_nat (i_v - i_s)] v' = Some next_value) as Hassign.
    { intros l0 H0.
      destruct (py_index (length l0) _) as [k|] eqn:Hk; simpl in H0; [|done].
      injection H0 as <-.
      assert (k = Z.to_nat (i_v - i_s)) as <-
        by (eapply py_index_nonneg_inv; [|exact Hk]; lia).
      apply py_index_lt in Hk. simpl.
      by rewrite list_lookup_insert_eq. }
    destruct (py_index (length l) (i_v - i_s)) as [k|] eqn:Hk.
    + apply (Hassign l). rewrite Hk. simpl. by rewrite <- H.
    + simpl in H. apply (Hassign (extend_to VNone l (i_v - i_s + 1))).
      destruct (py_index (length (extend_to VNone l (i_v - i_s + 1))) _);
        simpl in *; [by rewrite <- H|done].
  - apply Forall_cons in Hsteps as [Hstep Hsteps]. simpl in Hstep.
    destruct v as [| | | | | |l|]; try done. cbn -[value_at] in H.
    assert (forall l0 : list value,
              (k ← py_index (length l0) (i_v - i_s);
               sub ← l0 !! k;
               Some match place steps deepest next_value sub with
                    | Ok sub' => Ok (VList (<[k := sub']> l0))
                    | Raise e => Raise e
                    end) = Some (Ok v') ->
              value_at (Z.to_nat (i_v - i_s) :: path_of (steps ++ [deepest])) v'
              = Some next_value) as Hinto.
    { intros l0 H0.
      destruct (py_index (length l0) _) as [k|] eqn:Hk; simpl in H0; [|done].
      destruct (l0 !! k) as [sub|] eqn:Hsub; simpl in H0; [|done].
      destruct (place steps deepest next_value sub) as [sub'|] eqn:Hp; [|done].
      injection H0 as <-.
      assert (k = Z.to_nat (i_v - i_s)) as <-
        by (eapply py_index_nonneg_inv; [|exact Hk]; lia).
      apply py_index_lt in Hk. simpl.
      rewrite list_lookup_insert_eq by done. simpl. by apply (IH Hsteps sub). }
    match type of H with
    | match ?o with _ => _ end = _ => destruct o as [r|] eqn:Ho
    end.
    + apply (Hinto l). by rewrite Ho, H.
    + apply (Hinto (extend_to (VList []) l (i_v - i_s + 1))).
      match type of H with
      | default _ ?o = _ => destruct o as [r|]; simpl in H; [by rewrite H|done]
      end.
Qed.

Lemma zip_but_last (c s : list Z) (i j : Z) :
  length c = length s -> py_last c = Some i -> py_last s = Some j ->
  zip (but_last c) (but_last s) ++ [(i, j)] = zip c s.
Proof.
  intros Hlen Hc Hs. unfold py_last in *.
  apply last_Some in Hc as [c' ->]. apply last_Some in Hs as [s' ->].
  unfold but_last. rewrite !removelast_last.
  rewrite !length_app in Hlen. simpl in Hlen.
  rewrite zip_with_app by lia. done.
Qed.

Lemma zip_reverse (c s : list Z) :
  length c = length s -> zip (reverse c) (reverse s) = reverse (zip c s).
Proof.
  revert s. induction c as [|i c IH]; intros [|j s] Hlen; try done.
  simpl in Hlen. rewrite !reverse_cons.
  rewrite zip_with_app by (rewrite !length_reverse; lia).
  rewrite IH by lia. simpl. by rewrite reverse_cons.
Qed.

(** C9, as the specification words it, fails both ways: by default
    ([row_major] false) the value of the coordinate [(1, 2)] goes to the
    reversed position [[1][0]] and not to [[0][1]]; with [row_major] set it
    goes to [[0][1]], the coordinate as generated. *)
Lemma append_value_row_major_counterexample :
  let v_idx := {| first := [Some 1; Some 1]; pending := [[1; 2]] |} in
  let v_idx' := {| first := [Some 1; Some 1]; pending := [] |} in
  (row_major init_config = false
   /\ append_value init_config [] (VInt 7) (Some v_idx) 1
      = Ok ([VList [VNone]; VList [VInt 7]], Some v_idx')
   /\ value_at [0; 1]%nat (VList [VList [VNone]; VList [VInt 7]]) = None
   /\ value_at [1; 0]%nat (VList [VList [VNone]; VList [VInt 7]])
      = Some (VInt 7))
  /\ (row_major row_major_config = true
      /\ append_value row_major_config [] (VInt 7) (Some v_idx) 1
         = Ok ([VList [VNone; VInt 7]], Some v_idx')
      /\ value_at [0; 1]%nat (VList [VList [VNone; VInt 7]]) = Some (VInt 7)
      /\ value_at [1; 0]%nat (VList [VList [VNone; VInt 7]]) = None).
Proof. repeat split. Qed.

(** C9 (amended): the coordinate drawn from the index generator is reversed
    at the point of placement exactly when [row_major] is false, the default;
    with [row_major] set it is used as generated.  The value placed by one
    call for a coordinate at or above the start indices is read back at the
    positions of the reversed coordinate in the first case and at those of
    the coordinate itself in the second. *)
Theorem append_value_coordinate_order (cfg : config) (v_values v_values' : list value)
    (next_value : value) (first0 : list (option Z)) (v_i : list Z)
    (more : list (list Z)) (v_idx' : option FIndex) :
  let v_s := map (fun idx => default (default_start_index cfg) idx) first0 in
  length v_i = length first0 ->
  Forall (fun p => p.2 <= p.1) (zip v_i v_s) ->
  append_value cfg v_values next_value
    (Some {| first := first0; pending := v_i :: more |}) 1
  = Ok (v_values', v_idx') ->
  value_at (if row_major cfg then path_of (zip v_i v_s)
            else path_of (reverse (zip v_i v_s))) (VList v_values')
  = Some next_value.
Proof.
  intros v_s Hlen Hpos H. unfold append_value in H.
  change (Z.to_nat 1) with 1%nat in H. simpl in H.
  destruct (append_indexed _ _ _ _) as [[v1 idx1]|] eqn:H1; [|done].
  injection H as <- <-. unfold append_indexed, FIndex_next in H1.
  cbn [pending first] in H1. fold v_s in H1.
  assert (length v_s = length first0) as Hs by apply length_map.
  destruct (if negb (row_major cfg) then (reverse v_i, reverse v_s)
            else (v_i, v_s)) as [c s0] eqn:Hcs.
  assert (length c = length s0
          /\ zip c s0 = if row_major cfg then zip v_i v_s
                        else reverse (zip v_i v_s)) as [Hcs0 Hzip].
  { destruct (row_major cfg); injection Hcs as <- <-.
    - split; [congruence|done].
    - rewrite !length_reverse. split; [congruence|].
      apply zip_reverse. congruence. }
  destruct (if negb (sparse_arrays cfg) then pad_array (VList v_values) (zip c s0)
            else Ok (VList v_values)) as [padded|]; [|done].
  destruct (py_last c) as [i_v|] eqn:Hlc; [|done].
  destruct (py_last s0) as [i_s|] eqn:Hls; [|done].
  destruct (place _ _ _ _) as [placed|] eqn:Hplace; [|done].
  destruct placed as [| | | | | |placed|]; try done.
  injection H1 as <- <-.
  pose proof (zip_but_last c s0 i_v i_s Hcs0 Hlc Hls) as Hz.
  assert (Forall (fun p => p.2 <= p.1) (zip c s0)) as Hall.
  { rewrite Hzip. destruct (row_major cfg); [done|by apply Forall_reverse]. }
  rewrite <- Hz in Hall. apply Forall_app in Hall as [Hsteps Hdeep].
  rewrite Forall_singleton in Hdeep.
  apply (place_value_at _ _ _ _ _ Hsteps Hdeep) in Hplace.
  rewrite Hz, Hzip in Hplace. by destruct (row_major cfg).
Qed.

Lemma append_value_coordinate_order_witness :
  value_at [1; 0]%nat (VList [VList [VNone]; VList [VInt 7]]) = Some (VInt 7).
Proof.
  apply (append_value_coordinate_order init_config [] _ (VInt 7)
           [Some 1; Some 1] [1; 2] []
           (Some {| first := [Some 1; Some 1]; pending := [] |})).
  - reflexivity.
  - repeat constructor; simpl; lia.
  - reflexivity.
Defined.

Lemma regular_empty (d : nat) : regular (S d) (VList []).
Proof. constructor. Qed.

Lemma extend_to_regular (d : nat) (x : value) (l : list value) (stop : Z) :
  regular d x -> Forall (regular d) l -> Forall (regular d) (extend_to x l stop).
Proof.
  intros Hx Hl. unfold extend_to. apply Forall_app. split; [done|].
  by apply Forall_replicate.
Qed.

Lemma sequence_Forall {A B : Type} (f : A -> result B) (P : B -> Prop)
    (l : list A) :
  Forall (fun a => exists b, f a = Ok b /\ P b) l ->
  exists r : list B, sequence (map f l) = Ok r /\ Forall P r.
Proof.
  induction 1 as [|a l (b & Hb & HP) _ (r & Hr & HPr)]; simpl.
  - by exists [].
  - rewrite Hb, Hr. exists (b :: r). split; [done|by constructor].
Qed.

(** On an array of the depth of the index, [pad_array] returns. *)
Lemma pad_array_regular (idx : list (Z * Z)) (v : value) :
  idx <> [] -> regular (length idx) v ->
  exists v' : value, pad_array v idx = Ok v' /\ regular (length idx) v'.
Proof.
  revert v. induction idx as [|[i_v i_s] idx IH]; intros v Hne Hreg; [done|].
  simpl in Hreg |- *. destruct v as [| | | | | |l|]; try done.
  destruct idx as [|p idx].
  - eexists. split; [done|]. simpl. by apply Forall_true.
  - destruct (sequence_Forall (fun e => pad_array e (p :: idx))
                (regular (length (p :: idx)))
                (extend_to (VList []) l (i_v - i_s + 1))) as (r & -> & Hr).
    + apply (Forall_impl (regular (length (p :: idx)))).
      * apply extend_to_regular; [apply regular_empty|exact Hreg].
      * intros e He. by apply IH.
    + by eexists.
Qed.

(** On an array of the depth of the walk, at positions that are not below
    the start index, the walk and the assignment of [append_value] return. *)
Lemma place_regular (steps : list (Z * Z)) (deepest : Z * Z)
    (next_value v : value) :
  Forall (fun p => p.2 <= p.1) steps -> deepest.2 <= deepest.1 ->
  regular (S (length steps)) v ->
  exists l' : list value,
    place steps deepest next_value v = Ok (VList l')
    /\ regular (S (length steps)) (VList l').
Proof.
  intros Hsteps Hdeep. revert v.
  induction steps as [|[i_v i_s] steps IH]; intros v Hreg.
  - destruct v as [| | | | | |l|]; try done. destruct deepest as [i_v i_s].
    simpl in Hdeep. cbn -[regular].
    destruct (py_index (length l) (i_v - i_s)) as [k|] eqn:Hk; cbn -[regular].
    + eexists. split; [done|]. simpl. by apply Forall_true.
    + rewrite py_index_nonneg; cbn -[regular].
      * eexists. split; [done|]. simpl. by apply Forall_true.
      * unfold extend_to. rewrite length_app, length_replicate. lia.
  - apply Forall_cons in Hsteps as [Hstep Hsteps]. simpl in Hstep.
    destruct v as [| | | | | |l|]; try done.
    cbn [regular length] in Hreg. cbn -[regular].
    assert (forall (l0 : list value) (k : nat),
              Forall (regular (S (length steps))) l0 ->
              py_index (length l0) (i_v - i_s) = Some k ->
              exists l' : list value,
                (k ← py_index (length l0) (i_v - i_s);
                 sub ← l0 !! k;
                 Some match place steps deepest next_value sub with
                      | Ok sub' => Ok (VList (<[k := sub']> l0))
                      | Raise e => Raise e
                      end) = Some (Ok (VList l'))
                /\ regular (S (S (length steps))) (VList l')) as Hinto.
    { intros l0 k Hl0 Hk. rewrite Hk. cbn -[regular].
      destruct (lookup_lt_is_Some_2 l0 k (py_index_lt _ _ _ Hk)) as [sub Hsub].
      rewrite Hsub. cbn -[regular].
      destruct (IH Hsteps sub (Forall_lookup_1 _ _ _ _ Hl0 Hsub))
        as (sub' & -> & Hsub').
      eexists. split; [done|]. cbn [regular].
      by apply Forall_insert. }
    destruct (py_index (length l) (i_v - i_s)) as [k|] eqn:Hk.
    + destruct (Hinto l k Hreg Hk) as (l' & Hl' & Hreg').
      rewrite Hk in Hl'. rewrite Hl'. by exists l'.
    + cbn -[regular].
      assert (py_index (length (extend_to (VList []) l (i_v - i_s + 1)))
                (i_v - i_s) = Some (Z.to_nat (i_v - i_s))) as Hk'.
      { apply py_index_nonneg. unfold extend_to.
        rewrite length_app, length_replicate. lia. }
      destruct (Hinto (extend_to (VList []) l (i_v - i_s + 1)) _
                  (extend_to_regular _ (VList []) l _ (regular_empty _) Hreg)
                  Hk') as (l' & Hl' & Hreg').
      rewrite Hl'. by exists l'.
Qed.

(** One indexed placement at a coordinate that is not below the start index
    returns, on an array of the depth of the coordinate, and leaves such an
    array. *)
Lemma append_indexed_regular (cfg : config) (v : list value)
    (next_value : value) (first_idx : list (option Z)) (v_i : list Z)
    (more : list (list Z)) :
  first_idx <> [] ->
  length v_i = length first_idx ->
  Forall (fun p => p.2 <= p.1)
    (zip v_i (map (fun i => default (default_start_index cfg) i) first_idx)) ->
  regular (length first_idx) (VList v) ->
  exists v' : list value,
    append_indexed cfg v next_value
      {| first := first_idx; pending := v_i :: more |}
    = Ok (v', {| first := first_idx; pending := more |})
    /\ regular (length first_idx) (VList v').
Proof.
  intros Hne Hlen Habove Hreg. unfold append_indexed, FIndex_next.
  cbn [pending first].
  set (v_s := map (fun i => default (default_start_index cfg) i) first_idx) in *.
  assert (length v_s = length first_idx) as Hs by apply length_map.
  destruct (if negb (row_major cfg) then (reverse v_i, reverse v_s)
            else (v_i, v_s)) as [c s0] eqn:Hcs.
  assert (length c = length first_idx /\ length s0 = length first_idx
          /\ Forall (fun p => p.2 <= p.1) (zip c s0)) as (Hc & Hs0 & Hcs0).
  { destruct (negb (row_major cfg)); injection Hcs as <- <-;
      rewrite ?length_reverse; repeat split; try done.
    rewrite zip_reverse by lia. by apply Forall_reverse. }
  assert (length first_idx <> 0%nat) as Hd by (by destruct first_idx).
  assert (exists padded : value,
            (if negb (sparse_arrays cfg) then pad_array (VList v) (zip c s0)
             else Ok (VList v)) = Ok padded
            /\ regular (length first_idx) padded) as (padded & -> & Hpadded).
  { destruct (negb (sparse_arrays cfg)); [|by eexists].
    destruct (pad_array_regular (zip c s0) (VList v)) as (padded & Hp & Hr).
    - destruct c, s0; simpl in *; done || lia.
    - by rewrite length_zip_with, Hc, Hs0, Nat.min_id.
    - rewrite length_zip_with, Hc, Hs0, Nat.min_id in Hr. by exists padded. }
  destruct (py_last c) as [i_v|] eqn:Hlc; cycle 1.
  { unfold py_last in Hlc. apply last_None in Hlc. subst c. done. }
  destruct (py_last s0) as [i_s|] eqn:Hls; cycle 1.
  { unfold py_last in Hls. apply last_None in Hls. subst s0. done. }
  pose proof (zip_but_last c s0 i_v i_s ltac:(lia) Hlc Hls) as Hzip.
  rewrite <- Hzip in Hcs0. apply Forall_app in Hcs0 as [Hsteps Hdeep].
  rewrite Forall_singleton in Hdeep.
  assert (S (length (zip (but_last c) (but_last s0))) = length first_idx)
    as Hdepth.
  { rewrite length_zip_with, !but_last_length, Hc, Hs0, Nat.min_id. lia. }
  destruct (place_regular (zip (but_last c) (but_last s0)) (i_v, i_s)
              next_value padded Hsteps Hdeep) as (v' & -> & Hv').
  { by rewrite Hdepth. }
  exists v'. split; [done|]. by rewrite <- Hdepth.
Qed.

Lemma append_value_loop_regular (turns : nat) (cfg : config) (v : list value)
    (next_value : value) (idx : FIndex) :
  first idx <> [] ->
  (turns <= length (pending idx))%nat ->
  FIndex_above_start cfg idx ->
  regular (length (first idx)) (VList v) ->
  exists v' : list value,
    append_value_loop turns cfg v next_value (Some idx)
    = Ok (v', Some {| first := first idx;
                      pending := drop turns (pending idx) |})
    /\ regular (length (first idx)) (VList v').
Proof.
  revert v idx. induction turns as [|turns IH];
    intros v [first_idx pend] Hne Hturns Habove Hreg; cbn [first pending] in *.
  - exists v. by rewrite drop_0.
  - destruct pend as [|v_i more]; [simpl in Hturns; lia|].
    unfold FIndex_above_start in Habove. cbn [first pending] in Habove.
    apply Forall_cons in Habove as [[Hlen Hvi] Hmore].
    destruct (append_indexed_regular cfg v next_value first_idx v_i more
                Hne Hlen Hvi Hreg) as (v1 & H1 & Hreg1).
    cbn [append_value_loop]. rewrite H1.
    destruct (IH v1 {| first := first_idx; pending := more |})
      as (v' & Hv' & Hreg'); cbn [first pending]; try done.
    + simpl in Hturns. lia.
    + exists v'. by rewrite Hv'.
Qed.

(** An indexed placement returns.  On an array of the depth of the index (the
    empty array of a new variable is one), when the generator still has a
    coordinate for each of the [n_vals] values and none of them is below the
    start index, [append_value] raises nothing: it returns an array of the
    same depth and the generator advanced by [n_vals] coordinates. *)
Theorem append_value_returns (cfg : config) (v_values : list value)
    (next_value : value) (v_idx : FIndex) (n_vals : Z) :
  first v_idx <> [] ->
  (Z.to_nat n_vals <= length (pending v_idx))%nat ->
  FIndex_above_start cfg v_idx ->
  regular (length (first v_idx)) (VList v_values) ->
  exists v_values' : list value,
    append_value cfg v_values next_value (Some v_idx) n_vals
    = Ok (v_values', Some {| first := first v_idx;
                             pending := drop (Z.to_nat n_vals) (pending v_idx) |})
    /\ regular (length (first v_idx)) (VList v_values').
Proof.
  intros Hne Hn Habove Hreg. unfold append_value.
  by apply append_value_loop_regular.
Qed.

Lemma append_value_returns_witness :
  exists v_values' : list value,
    append_value init_config [] (VInt 7)
      (Some {| first := [Some 1; None]; pending := [[2; 3]; [3; 3]] |}) 2
    = Ok (v_values', Some {| first := [Some 1; None]; pending := [] |})
    /\ regular 2 (VList v_values').
Proof.
  apply (append_value_returns init_config [] (VInt 7)
           {| first := [Some 1; None]; pending := [[2; 3]; [3; 3]] |} 2).
  - done.
  - simpl. lia.
  - unfold FIndex_above_start. simpl.
    repeat (constructor; simpl; try lia).
  - constructor.
Defined.

Lemma append_value_loop_None (cfg : config) (turns : nat) :
  forall (v_values : list value) (next_value : value),
    append_value_loop turns cfg v_values next_value None
    = Ok (v_values ++ replicate turns next_value, None).
Proof.
  induction turns as [|turns IH]; intros v_values next_value; simpl.
  - by rewrite app_nil_r.
  - rewrite IH. by rewrite <- app_assoc.
Qed.

(** A call of [append_value] without index generator appends [n_vals] times
    the value, and nothing when [n_vals] is zero or negative. *)
Theorem append_value_unindexed (cfg : config) (v_values : list value)
    (next_value : value) (n_vals : Z) :
  append_value cfg v_values next_value None n_vals
  = Ok (v_values ++ replicate (Z.to_nat n_vals) next_value, None)
  /\ (n_vals <= 0 ->
      append_value cfg v_values next_value None n_vals = Ok (v_values, None)).
Proof.
  unfold append_value. rewrite append_value_loop_None. split; [done|].
  intros Hn. replace (Z.to_nat n_vals) with 0%nat by lia.
  by rewrite app_nil_r.
Qed.

Lemma extend_to_enough (x : value) (l : list value) (stop : Z) :
  stop <= Z.of_nat (length (extend_to x l stop)).
Proof. unfold extend_to. rewrite length_app, length_replicate. lia. Qed.

Lemma extend_to_done (x : value) (l : list value) (stop : Z) :
  stop <= Z.of_nat (length l) -> extend_to x l stop = l.
Proof.
  intros H. unfold extend_to.
  replace (Z.to_nat (stop - Z.of_nat (length l))) with 0%nat by lia.
  apply app_nil_r.
Qed.

Lemma sequence_fixed {A : Type} (f : A -> result A) (l : list A) :
  Forall (fun a => f a = Ok a) l -> sequence (map f l) = Ok l.
Proof.
  induction 1 as [|a l Ha _ IH]; simpl; [done|]. by rewrite Ha, IH.
Qed.

Lemma pad_array_covers (idx : list (Z * Z)) (v v' : value) :
  pad_array v idx = Ok v' -> covers idx v' /\ pad_array v' idx = Ok v'.
Proof.
  revert v v'. induction idx as [|[i_v i_s] idx IH]; intros v v' H; [done|].
  simpl in H. destruct v as [| | | | | |l|]; try done.
  destruct idx as [|p idx].
  - injection H as <-. cbn [covers pad_array].
    pose proof (extend_to_enough VNone l (i_v - i_s + 1)) as Hlen.
    split; [split; [done|by apply Forall_true]|].
    by rewrite extend_to_done.
  - destruct (sequence _) as [l'|] eqn:Hseq; [|done]. injection H as <-.
    apply sequence_ok in Hseq.
    pose proof (extend_to_enough (VList []) l (i_v - i_s + 1)) as Hlen.
    rewrite (Forall2_length _ _ _ Hseq) in Hlen.
    assert (Forall (fun e => covers (p :: idx) e
                             /\ pad_array e (p :: idx) = Ok e) l') as Hl'.
    { clear Hlen. induction Hseq as [|a b ext l' Hab _ IH']; [done|].
      constructor; [by apply (IH a)|done]. }
    split.
    + split; [done|]. eapply Forall_impl; [exact Hl'|]. by intros e [? _].
    + cbn [pad_array]. rewrite extend_to_done by done.
      rewrite sequence_fixed; [done|].
      eapply Forall_impl; [exact Hl'|]. by intros e [_ ?].
Qed.

(** [pad_array] keeps every element that the array holds. *)
Lemma pad_array_keeps (idx : list (Z * Z)) (v v' : value) (path : list nat)
    (x : value) :
  pad_array v idx = Ok v' -> length path = length idx ->
  value_at path v = Some x -> value_at path v' = Some x.
Proof.
  revert v v' path. induction idx as [|[i_v i_s] idx IH];
    intros v v' path H Hlen Hx; [done|].
  simpl in H. destruct v as [| | | | | |l|]; try done.
  destruct path as [|k path]; [done|]. simpl in Hlen, Hx.
  destruct (l !! k) as [e|] eqn:He; [|done]. simpl in Hx.
  destruct idx as [|p idx].
  - injection H as <-. destruct path; [|done]. simpl.
    rewrite (extend_to_lookup _ e) by done. done.
  - destruct (sequence _) as [l'|] eqn:Hseq; [|done]. injection H as <-.
    apply sequence_ok in Hseq.
    pose proof (extend_to_lookup (VList []) e l (i_v - i_s + 1) k He) as Hext.
    destruct (Forall2_lookup_l _ _ _ _ _ Hseq Hext) as (e' & He' & Hpad).
    simpl. rewrite He'. simpl. apply (IH e e' path Hpad); [lia|done].
Qed.

(** The assignment of [append_value] keeps every other element. *)
Lemma place_keeps (steps : list (Z * Z)) (deepest : Z * Z)
    (next_value v v' : value) (path : list nat) (x : value) :
  Forall (fun p => p.2 <= p.1) steps -> deepest.2 <= deepest.1 ->
  place steps deepest next_value v = Ok v' ->
  length path = S (length steps) -> path <> path_of (steps ++ [deepest]) ->
  value_at path v = Some x -> value_at path v' = Some x.
Proof.
  intros Hsteps Hdeep. revert v v' path.
  induction steps as [|[i_v i_s] steps IH]; intros v v' path H Hlen Hne Hx.
  - destruct v as [| | | | | |l|]; try done. destruct deepest as [i_v i_s].
    simpl in Hdeep. cbn -[value_at] in H.
    destruct path as [|k [|? ?]]; try done. simpl in Hx, Hne.
    destruct (l !! k) as [e|] eqn:He; [|done]. simpl in Hx. injection Hx as ->.
    assert (forall l0 : list value,
              l0 !! k = Some x ->
              (k ← py_index (length l0) (i_v - i_s);
               Some (Ok (VList (<[k := next_value]> l0)))) = Some (Ok v') ->
              value_at [k] v' = Some x) as Hassign.
    { intros l0 Hl0 H0.
      destruct (py_index (length l0) _) as [k0|] eqn:Hk; simpl in H0; [|done].
      injection H0 as <-.
      assert (k0 = Z.to_nat (i_v - i_s)) as ->
        by (eapply py_index_nonneg_inv; [|exact Hk]; lia).
      simpl. rewrite list_lookup_insert_ne by congruence. by rewrite Hl0. }
    destruct (py_index (length l) (i_v - i_s)) as [k0|] eqn:Hk.
    + apply (Hassign l He). rewrite Hk. simpl. by rewrite <- H.
    + simpl in H.
      apply (Hassign (extend_to VNone l (i_v - i_s + 1)));
        [by apply extend_to_lookup|].
      destruct (py_index (length (extend_to VNone l (i_v - i_s + 1))) _);
        simpl in *; [by rewrite <- H|done].
  - apply Forall_cons in Hsteps as [Hstep Hsteps]. simpl in Hstep.
    destruct v as [| | | | | |l|]; try done. cbn -[value_at] in H.
    destruct path as [|k path]; [done|]. simpl in Hx, Hne, Hlen.
    destruct (l !! k) as [e|] eqn:He; [|done]. simpl in Hx.
    assert (forall l0 : list value,
              l0 !! k = Some e ->
              (k ← py_index (length l0) (i_v - i_s);
               sub ← l0 !! k;
               Some match place steps deepest next_value sub with
                    | Ok sub' => Ok (VList (<[k := sub']> l0))
                    | Raise e => Raise e
                    end) = Some (Ok v') ->
              value_at (k :: path) v' = Some x) as Hinto.
    { intros l0 Hl0 H0.
      destruct (py_index (length l0) _) as [k0|] eqn:Hk; simpl in H0; [|done].
      destruct (l0 !! k0) as [sub|] eqn:Hsub; simpl in H0; [|done].
      destruct (place steps deepest next_value sub) as [sub'|] eqn:Hp; [|done].
      injection H0 as <-.
      assert (k0 = Z.to_nat (i_v - i_s)) as ->
        by (eapply py_index_nonneg_inv; [|exact Hk]; lia).
      apply py_index_lt in Hk. simpl.
      destruct (decide (k = Z.to_nat (i_v - i_s))) as [->|Hk'].
      - rewrite list_lookup_insert_eq by done. simpl.
        rewrite Hl0 in Hsub. injection Hsub as <-.
        apply (IH Hsteps e sub' path Hp); [lia| |done]. congruence.
      - rewrite list_lookup_insert_ne by done. rewrite Hl0. done. }
    match type of H with
    | match ?o with _ => _ end = _ => destruct o as [r|] eqn:Ho
    end.
    + apply (Hinto l He). by rewrite Ho, H.
    + apply (Hinto (extend_to (VList []) l (i_v - i_s + 1)));
        [by apply extend_to_lookup|].
      match type of H with
      | default _ ?o = _ => destruct o as [r|]; simpl in H; [by rewrite H|done]
      end.
Qed.

(** [pad_array] does what it is for and no more: every list of the padded
    array is long enough for the index, on every level; every element that
    the array held is still at its place; and padding once more changes
    nothing. *)
Theorem pad_array_pads (idx : list (Z * Z)) (v v' : value) :
  pad_array v idx = Ok v' ->
  covers idx v'
  /\ (forall (path : list nat) (x : value),
        length path = length idx ->
        value_at path v = Some x -> value_at path v' = Some x)
  /\ pad_array v' idx = Ok v'.
Proof.
  intros H. destruct (pad_array_covers idx v v' H) as [Hc Hi].
  split; [done|]. split; [|done].
  intros path x Hlen Hx. by apply (pad_array_keeps idx v v').
Qed.

Lemma pad_array_pads_witness :
  pad_array (VList [VList [VInt 1]]) [(2, 1); (3, 1)]
  = Ok (VList [VList [VInt 1; VNone; VNone]; VList [VNone; VNone; VNone]])
  /\ covers [(2, 1); (3, 1)]
       (VList [VList [VInt 1; VNone; VNone]; VList [VNone; VNone; VNone]]).
Proof.
  split; [reflexivity|].
  apply (pad_array_pads [(2, 1); (3, 1)] (VList [VList [VInt 1]])).
  reflexivity.
Defined.

(** An indexed placement changes one element only: every other element of
    the array, at the depth of the index, is after the call what it was
    before. *)
Theorem append_value_keeps_others (cfg : config)
    (v_values v_values' : list value) (next_value : value)
    (first0 : list (option Z)) (v_i : list Z) (more : list (list Z))
    (v_idx' : option FIndex) (path : list nat) (x : value) :
  let v_s := map (fun idx => default (default_start_index cfg) idx) first0 in
  length v_i = length first0 ->
  Forall (fun p => p.2 <= p.1) (zip v_i v_s) ->
  append_value cfg v_values next_value
    (Some {| first := first0; pending := v_i :: more |}) 1
  = Ok (v_values', v_idx') ->
  length path = length first0 ->
  path <> (if row_major cfg then path_of (zip v_i v_s)
           else path_of (reverse (zip v_i v_s))) ->
  value_at path (VList v_values) = Some x ->
  value_at path (VList v_values') = Some x.
Proof.
  intros v_s Hlen Hpos H Hpath Hne Hx. unfold append_value in H.
  change (Z.to_nat 1) with 1%nat in H. simpl in H.
  destruct (append_indexed _ _ _ _) as [[v1 idx1]|] eqn:H1; [|done].
  injection H as <- <-. unfold append_indexed, FIndex_next in H1.
  cbn [pending first] in H1. fold v_s in H1.
  assert (length v_s = length first0) as Hs by apply length_map.
  destruct (if negb (row_major cfg) then (reverse v_i, reverse v_s)
            else (v_i, v_s)) as [c s0] eqn:Hcs.
  assert (length c = length first0 /\ length s0 = length first0
          /\ zip c s0 = if row_major cfg then zip v_i v_s
                        else reverse (zip v_i v_s)) as (Hc & Hs0 & Hzip).
  { destruct (row_major cfg); injection Hcs as <- <-.
    - done.
    - rewrite !length_reverse. repeat split; try done.
      apply zip_reverse. congruence. }
  destruct (if negb (sparse_arrays cfg) then pad_array (VList v_values) (zip c s0)
            else Ok (VList v_values)) as [padded|] eqn:Hpad; [|done].
  assert (value_at path padded = Some x) as Hx'.
  { destruct (negb (sparse_arrays cfg)); [|by injection Hpad as <-].
    apply (pad_array_keeps _ _ _ _ _ Hpad); [|done].
    rewrite length_zip_with, Hc, Hs0, Nat.min_id. done. }
  destruct (py_last c) as [i_v|] eqn:Hlc; [|done].
  destruct (py_last s0) as [i_s|] eqn:Hls; [|done].
  destruct (place _ _ _ _) as [placed|] eqn:Hplace; [|done].
  destruct placed as [| | | | | |placed|]; try done.
  injection H1 as <- <-.
  pose proof (zip_but_last c s0 i_v i_s ltac:(lia) Hlc Hls) as Hz.
  assert (Forall (fun p => p.2 <= p.1) (zip c s0)) as Hall.
  { rewrite Hzip. destruct (row_major cfg); [done|by apply Forall_reverse]. }
  rewrite <- Hz in Hall. apply Forall_app in Hall as [Hsteps Hdeep].
  rewrite Forall_singleton in Hdeep.
  apply (place_keeps _ _ _ _ _ path x Hsteps Hdeep Hplace); [| |done].
  - rewrite length_zip_with, !but_last_length, Hc, Hs0, Nat.min_id.
    assert (length first0 <> 0%nat); [|lia].
    intros H0. rewrite H0 in Hc. by destruct c.
  - rewrite Hz, Hzip. by destruct (row_major cfg).
Qed.

Lemma append_value_keeps_others_witness :
  append_value init_config [VList [VInt 1; VInt 2]] (VInt 7)
    (Some {| first := [Some 1; Some 1]; pending := [[1; 2]] |}) 1
  = Ok ([VList [VInt 1; VInt 2]; VList [VInt 7]],
        Some {| first := [Some 1; Some 1]; pending := [] |})
  /\ value_at [0; 1]%nat (VList [VList [VInt 1; VInt 2]; VList [VInt 7]])
     = Some (VInt 2).
Proof.
  split; [reflexivity|].
  apply (append_value_keeps_others init_config [VList [VInt 1; VInt 2]] _
           (VInt 7) [Some 1; Some 1] [1; 2] []
           (Some {| first := [Some 1; Some 1]; pending := [] |})).
  - reflexivity.
  - repeat constructor; simpl; lia.
  - reflexivity.
  - reflexivity.
  - discriminate.
  - reflexivity.
Defined.

End PlaceProps.

(** ** Start-index reconciliation *)

Module ReconcileProps.

Lemma Namelist_get_set_eq (key : string) (v : value) (nml : Namelist) :
  Namelist_get key (Namelist_set key v nml) = Some v.
Proof. apply MergeProps.dict_get_set_eq. Qed.

Lemma index_get_set_eq (k : string) (v : list (option Z))
    (d : list (string * list (option Z))) :
  index_get k (index_set k v d) = Some v.
Proof.
  induction d as [|[k' v'] d IH]; simpl.
  - by rewrite String.eqb_refl.
  - destruct (String.eqb k k') eqn:E; simpl; rewrite E; [done|apply IH].
Qed.

Lemma pad_front_ok (v_name : string) (n : Z) (parent : Namelist) (arr : list value) :
  Namelist_get v_name parent = Some (VList arr) ->
  pad_front v_name n parent
  = Ok (Namelist_set v_name (VList (replicate (Z.to_nat n) VNone ++ arr)) parent).
Proof. intros H. unfold pad_front. by rewrite H. Qed.

(** The resize loop of an indexed variable puts [lowered_by pairs]
    placeholders in front of the array and leaves the rest of it as it is. *)
Lemma resize_indexed_ok (v_name : string) (pairs : list (option Z * option Z))
    (parent : Namelist) (arr : list value) :
  Namelist_get v_name parent = Some (VList arr) ->
  exists parent' : Namelist,
    resize_indexed v_name pairs parent = Ok parent'
    /\ Namelist_get v_name parent'
       = Some (VList (replicate (lowered_by pairs) VNone ++ arr))
    /\ start_index parent' = start_index parent.
Proof.
  revert parent arr. induction pairs as [|[[i_p|] [i_v|]] pairs IH];
    intros parent arr Harr; simpl; try (by apply IH).
  - by exists parent.
  - destruct (Z.ltb_spec i_v i_p) as [Hlt|Hge].
    + rewrite (pad_front_ok _ _ _ _ Harr).
      destruct (IH _ _ (Namelist_get_set_eq v_name
                          (VList (replicate (Z.to_nat (i_p - i_v)) VNone ++ arr))
                          parent)) as (parent' & -> & Hget & Hidx).
      exists parent'. split; [done|]. split; [|done].
      rewrite Hget. unfold lowered_by. simpl.
      rewrite app_assoc, <- replicate_add. do 4 f_equal. lia.
    + destruct (IH _ _ Harr) as (parent' & -> & Hget & Hidx).
      exists parent'. split; [done|]. split; [|done].
      rewrite Hget. unfold lowered_by. simpl.
      by replace (Z.to_nat (i_p - i_v)) with 0%nat by lia.
Qed.

(** The same for the loop of a variable without index, when every recorded
    start index is an integer. *)
Lemma resize_unindexed_ok (v_name : string) (i_v : Z) (p_start : list (option Z))
    (parent : Namelist) (arr : list value) :
  Forall is_Some p_start ->
  Namelist_get v_name parent = Some (VList arr) ->
  exists parent' : Namelist,
    resize_unindexed v_name (zip p_start (map (fun _ => i_v) p_start)) parent
    = Ok parent'
    /\ Namelist_get v_name parent'
       = Some (VList (replicate (lowered_to i_v p_start) VNone ++ arr))
    /\ start_index parent' = start_index parent.
Proof.
  intros Hsome. revert parent arr.
  induction Hsome as [|i_p p_start [x ->] _ IH]; intros parent arr Harr; simpl.
  - by exists parent.
  - destruct (Z.ltb_spec i_v x) as [Hlt|Hge].
    + rewrite (pad_front_ok _ _ _ _ Harr).
      destruct (IH _ _ (Namelist_get_set_eq v_name
                          (VList (replicate (Z.to_nat (x - i_v)) VNone ++ arr))
                          parent)) as (parent' & -> & Hget & Hidx).
      exists parent'. split; [done|]. split; [|done].
      rewrite Hget. unfold lowered_to, lowered_by. simpl.
      rewrite app_assoc, <- replicate_add. do 4 f_equal. apply Nat.add_comm.
    + destruct (IH _ _ Harr) as (parent' & -> & Hget & Hidx).
      exists parent'. split; [done|]. split; [|done].
      rewrite Hget. unfold lowered_to, lowered_by. simpl.
      by replace (Z.to_nat (x - i_v)) with 0%nat by lia.
Qed.

(** What [update_first] leaves in a dimension that the record has too. *)
Lemma update_first_lookup (p_idx v_first : list (option Z)) (d : nat)
    (i_p i_v : option Z) :
  p_idx !! d = Some i_p -> v_first !! d = Some i_v ->
  update_first p_idx v_first !! d = Some (i_first i_p i_v).
Proof.
  intros Hp Hv. unfold update_first. rewrite lookup_app_l.
  - rewrite lookup_zip_with, Hp. simpl. by rewrite Hv.
  - rewrite length_zip_with. apply lookup_lt_Some in Hp, Hv. lia.
Qed.

(** Start-index reconciliation, where it takes place, only ever puts
    placeholders in front of the array that is already built.  When a variable with a recorded
    start-index vector is assigned again with an index, the recorded and the
    new start index are replaced by their minimum in every dimension, and for
    every dimension whose start index is lowered, one [None] per index
    between the new and the old start is put in front of the array; when it
    is assigned again without an index, the same happens with the default
    start index.  The array itself follows the placeholders unchanged. *)
Theorem start_index_reconciliation (cfg : config) (v_name : string)
    (v_first p_idx : list (option Z)) (parent : Namelist) (arr : list value) :
  index_get (lower v_name) (start_index parent) = Some p_idx ->
  Namelist_get v_name parent = Some (VList arr) ->
  (let first' := update_first p_idx v_first in
   (forall (d : nat) (i_p i_v : option Z),
      p_idx !! d = Some i_p -> v_first !! d = Some i_v ->
      first' !! d = Some (i_first i_p i_v))
   /\ exists parent' : Namelist,
        reconcile_indexed cfg v_name v_first parent = Ok (first', parent')
        /\ Namelist_get v_name parent'
           = Some (VList (replicate (lowered_by (zip p_idx first')) VNone ++ arr))
        /\ index_get (lower v_name) (start_index parent') = Some first')
  /\ (is_Some (index_get v_name (start_index parent)) ->
      Forall is_Some p_idx ->
      exists parent' : Namelist,
        reconcile_unindexed cfg v_name parent = Ok parent'
        /\ Namelist_get v_name parent'
           = Some (VList (replicate (lowered_to (default_start_index cfg) p_idx)
                            VNone ++ arr))
        /\ index_get (lower v_name) (start_index parent')
           = Some (map (fun _ => Some (default_start_index cfg)) p_idx)).
Proof.
  intros Hidx Harr. split.
  - intros first'. split; [apply update_first_lookup|].
    unfold reconcile_indexed. rewrite Hidx. fold first'.
    destruct (resize_indexed_ok v_name (zip p_idx first') parent arr Harr)
      as (parent' & -> & Hget & Hsi).
    eexists. split; [done|]. split; [done|].
    simpl. apply index_get_set_eq.
  - intros [p_raw Hraw] Hsome. unfold reconcile_unindexed.
    rewrite Hraw, Hidx.
    destruct (resize_unindexed_ok v_name (default_start_index cfg) p_idx
                parent arr Hsome Harr) as (parent' & -> & Hget & Hsi).
    eexists. split; [done|]. split; [done|].
    simpl. rewrite index_get_set_eq. f_equal.
    by rewrite <- list_fmap_compose.
Qed.

(** The example of the claim: [v(5) = 50] followed by [v(3) = 30].  The
    array [[50]] recorded with the start index 5 gets two placeholders in
    front when the start index 3 is met; the second assignment builds [[30]]
    from the start index 3, and the merged array covers the positions 3 to 5. *)
Lemma start_index_reconciliation_witness :
  let parent := {| items := [("v", VList [VInt 50])];
                   start_index := [("v", [Some 5])] |} in
  (exists parent' : Namelist,
     reconcile_indexed init_config "v" [Some 3] parent = Ok ([Some 3], parent')
     /\ Namelist_get "v" parent' = Some (VList [VNone; VNone; VInt 50])
     /\ index_get "v" (start_index parent') = Some [Some 3])
  /\ append_value init_config [] (VInt 30)
       (Some {| first := [Some 3]; pending := [[3]] |}) 1
     = Ok ([VInt 30], Some {| first := [Some 3]; pending := [] |})
  /\ Merge.merge_values (VList [VNone; VNone; VInt 50]) (VList [VInt 30])
     = VList [VInt 30; VNone; VInt 50].
Proof.
  split; [|split; reflexivity].
  destruct (start_index_reconciliation init_config "v" [Some 3] [Some 5]
              {| items := [("v", VList [VInt 50])];
                 start_index := [("v", [Some 5])] |} [VInt 50]
              eq_refl eq_refl) as [[_ (parent' & H1 & H2 & H3)] _].
  exists parent'. split; [exact H1|]. split; [exact H2|exact H3].
Defined.

(** C2 fails on the code for a name that is not written in lower case and
    is assigned again without index.  The record of the start indices is
    kept under the lower-cased name, and the block for an indexed variable
    looks the name up lower-cased, but the block for a variable without index
    tests [v_name in parent.start_index] with the name as it is written.  In
    [&g v(3)=3 V=1 /] the second statement lowers the start index of [v] from
    3 to the default 1, yet nothing is put in front of the array [[3]] and
    the record stays at 3: the merge then stores 1 over the value of index 3,
    which is lost.  Written [v=1], the same statement gives [[1, None, 3]]. *)
Lemma unindexed_upper_case_not_reconciled :
  let parent := {| items := [("v", VList [VInt 3])];
                   start_index := [("v", [Some 3])] |} in
  reconcile_unindexed init_config "V" parent = Ok parent
  /\ reconcile_unindexed init_config "v" parent
     = Ok {| items := [("v", VList [VNone; VNone; VInt 3])];
             start_index := [("v", [Some 1])] |}
  /\ (readstream Example.fpy Example.FIndex_init Example.f90repr
        Example.var_strings init_config
        ["&"; "g"; " "; "v"; "("; "3"; ")"; "="; "3"; " "; "V"; "="; "1"; " ";
         "/"; LF] [] false).1
     = Ok [("g", VDict [("v", VList [VInt 1])])]
  /\ (readstream Example.fpy Example.FIndex_init Example.f90repr
        Example.var_strings init_config
        ["&"; "g"; " "; "v"; "("; "3"; ")"; "="; "3"; " "; "v"; "="; "1"; " ";
         "/"; LF] [] false).1
     = Ok [("g", VDict [("v", VList [VInt 1; VNone; VInt 3])])].
Proof. repeat split. Qed.

End ReconcileProps.

(** ** The patch writer *)

Module PatchProps.
Import IndexProps.

Lemma append_assoc (a b c : string) : (a +:+ b) +:+ c = a +:+ b +:+ c.
Proof.
  induction a as [|x a IH]; [done|].
  change (String x ((a +:+ b) +:+ c) = String x (a +:+ b +:+ c)).
  by rewrite IH.
Qed.

Lemma append_nil_r (a : string) : a +:+ "" = a.
Proof.
  induction a as [|x a IH]; [done|].
  change (String x (a +:+ "") = String x a). by rewrite IH.
Qed.

Lemma scan_plain (cfg : config) (pf : bool) (t : string) (rest : list string)
    (patch_tokens : string) :
  plain cfg t -> scan cfg pf false t rest patch_tokens = Scanned t rest patch_tokens.
Proof. intros H. unfold plain in H. destruct rest; simpl; by rewrite H. Qed.

Lemma cat_app (a b : list string) : cat (a ++ b) = cat a +:+ cat b.
Proof.
  induction a as [|x a IH]; [done|]. simpl. rewrite IH.
  by rewrite append_assoc.
Qed.

Lemma char_in_app (c : ascii) (a b : string) :
  char_in c (a +:+ b) = char_in c a || char_in c b.
Proof.
  induction a as [|c' a IH]; [done|].
  change (String c' a +:+ b) with (String c' (a +:+ b)). simpl.
  by rewrite IH, orb_assoc.
Qed.

(** White-space tokens are padding. *)
Lemma padding_blanks (cfg : config) (ws : list string) :
  Forall (blank cfg) ws -> padding cfg ws.
Proof. induction 1; by constructor. Qed.

Lemma comment_start (cfg : config) (c : string) :
  first_in c (comment_tokens cfg) = Some true ->
  first_in c (comment_tokens cfg +:+ whitespace) = Some true.
Proof.
  destruct c as [|ch c]; [done|]. simpl. intros [= H].
  by rewrite char_in_app, H.
Qed.

(** The search inside a comment goes on to the end of the line and collects
    the comment. *)
Lemma scan_comment (cfg : config) (body : list string) :
  forall (in_comment : bool) (c pt t' : string) (toks' : list string),
    (in_comment = false -> first_in c (comment_tokens cfg) = Some true) ->
    c <> LF -> Forall (fun t => t <> LF) body ->
    scan cfg true in_comment c (body ++ LF :: t' :: toks') pt
    = scan cfg true false t' toks' (pt +:+ c +:+ cat body +:+ LF).
Proof.
  induction body as [|b body IH]; intros in_comment c pt t' toks' Hc Hlf Hbody.
  - apply String.eqb_neq in Hlf. cbn [app cat foldr].
    destruct in_comment.
    + cbn [scan]. rewrite Hlf. cbn [scan]. rewrite String.eqb_refl.
      by rewrite !append_assoc.
    + cbn [scan]. rewrite (comment_start cfg c (Hc eq_refl)), (Hc eq_refl), Hlf.
      cbn [scan]. rewrite String.eqb_refl. by rewrite !append_assoc.
  - apply Forall_cons in Hbody as [Hb Hbody].
    pose proof Hlf as Hlf'. apply String.eqb_neq in Hlf'.
    cbn [app cat foldr].
    assert (scan cfg true in_comment c (b :: body ++ LF :: t' :: toks') pt
            = scan cfg true true b (body ++ LF :: t' :: toks') (pt +:+ c)) as ->.
    { destruct in_comment; cbn [scan].
      - by rewrite Hlf'.
      - by rewrite (comment_start cfg c (Hc eq_refl)), (Hc eq_refl), Hlf'. }
    rewrite (IH true b _ t' toks'); [|done..].
    by rewrite !append_assoc.
Qed.

(** The search goes over white space and comments and collects them. *)
Lemma scan_padding (cfg : config) (ws : list string) :
  padding cfg ws ->
  forall (t : string) (rest : list string) (x : string) (toks : list string)
         (pt : string),
    plain cfg t -> ws ++ t :: rest = x :: toks ->
    scan cfg true false x toks pt = Scanned t rest (pt +:+ cat ws).
Proof.
  induction 1 as [|w ws [Hw1 Hw2] _ IH|c body ws Hc Hlf Hbody _ IH];
    intros t rest x toks pt Ht E.
  - injection E as <- <-. rewrite (scan_plain _ _ _ _ _ Ht).
    by rewrite append_nil_r.
  - injection E as <- <-.
    destruct (ws ++ t :: rest) as [|x' toks'] eqn:E'; [by destruct ws|].
    cbn [scan]. rewrite Hw1, Hw2. rewrite (IH _ _ _ _ _ Ht E').
    by rewrite append_assoc.
  - injection E as <- <-. rewrite <- app_assoc. cbn [app].
    destruct (ws ++ t :: rest) as [|x' toks'] eqn:E'; [by destruct ws|].
    rewrite (scan_comment cfg body false c pt x' toks'); [|done..].
    rewrite (IH _ _ _ _ _ Ht E'). f_equal.
    change (cat (c :: body ++ LF :: ws))
      with (c +:+ cat (body ++ LF :: ws)).
    rewrite cat_app. change (cat (LF :: ws)) with (LF +:+ cat ws).
    by rewrite !append_assoc.
Qed.

(** [update_tokens] while patching, at white space and comments followed by
    a plain token. *)
Lemma update_tokens_padding (cfg : config) (w : bool) (o : option string)
    (sk : bool) (st : parser) (ws : list string) (t t0 out : string)
    (rest : list string) :
  tokens st = ws ++ t :: rest -> token st = Some t0 -> pfile st = Some out ->
  padding cfg ws -> plain cfg t ->
  update_tokens cfg w o sk st
  = (Ok tt,
     {| tokens := rest; token := Some t; prior_token := Some t0;
        pfile := Some (out +:+ (if negb sk || is_trigger t
                                then token_text w o t0 else "")
                       +:+ cat ws) |}).
Proof.
  intros Htoks Htok Hout Hws Ht. unfold update_tokens, token_text.
  rewrite Htok, Hout.
  replace (bool_decide (is_Some (Some out))) with true by done.
  assert (exists pv, (if true && w then override_or o (Some t0) else Some "")
                     = Some pv
                     /\ pv = (if w then default t0 (override_or o (Some t0))
                              else "")) as (pv & -> & ->).
  { destruct w; simpl; [|by eexists]. destruct o as [[|c o]|]; by eexists. }
  rewrite Htoks.
  destruct (ws ++ t :: rest) as [|x toks] eqn:E; [by destruct ws|].
  rewrite (scan_padding cfg ws Hws t rest x toks "" Ht E).
  cbn [fmap option_fmap option_map]. change ("" +:+ cat ws) with (cat ws).
  by destruct (negb sk || is_trigger t).
Qed.

Lemma not_control_in (t : string) (l : list string) :
  is_control t = false -> forallb is_control l = true ->
  token_in (Some t) l = false.
Proof.
  intros Ht Hl. simpl. apply not_true_iff_false. intros Hin.
  apply existsb_exists in Hin as (c & Hc & Heq).
  apply String.eqb_eq in Heq. subst c.
  rewrite forallb_forall in Hl. specialize (Hl _ Hc). congruence.
Qed.

Lemma not_control_is (t c : string) :
  is_control t = false -> is_control c = true -> token_is (Some t) c = false.
Proof.
  intros Ht Hc. apply not_control_in; [done|]. simpl. by rewrite Hc.
Qed.

Lemma literal_not_trigger (cfg : config) (t : string) :
  literal_token cfg t -> is_trigger t = false.
Proof. intros [_ H]. by apply (not_control_in t ["="; "("; "%"]). Qed.

(** The three terminators of a group, one by one. *)
Ltac term_cases H :=
  rewrite !elem_of_cons, elem_of_nil in H; destruct H as [-> | [-> | [-> | []]]].

Section ValueLoop.
Variable fpy : bool -> string -> option value.
Variable f90repr : value -> string.
Variable cfg : config.

(** [parse_value] at a literal token that has just been left behind. *)
Lemma parse_value_literal (st : parser) (v : string) :
  prior_token st = Some v -> is_control v = false ->
  parse_value fpy cfg true None st = (Ok (literal_value fpy cfg v), st).
Proof.
  intros Hprior Hv. unfold parse_value.
  unfold mbind, M_bind, get_prior_token. rewrite Hprior.
  rewrite (not_control_is v "(" Hv eq_refl). simpl.
  unfold literal_value. by destruct (pyint v).
Qed.

(** The turn of the loop at the terminator of the group: the value of the
    last literal is appended, at the next coordinate of the index if the
    variable has one, and the loop ends. *)
Lemma value_loop_term_at (fuel : nat) (patch_values : option (list value))
    (v_values : list value) (v_idx : option FIndex) (p_idx : nat)
    (st : parser) (v term : string) :
  token st = Some term -> prior_token st = Some v ->
  term ∈ ["/"; "&"; "$"] -> is_control v = false ->
  value_loop fpy f90repr cfg (S fuel) patch_values v_values v_idx (Some 1)
    p_idx st
  = (append_value cfg v_values (literal_value fpy cfg v) v_idx 1, st).
Proof.
  intros Htok Hprior Hterm Hv.
  assert (token_in (Some term) ["="; "("; "%"] = false) as H1.
  { by term_cases Hterm. }
  assert (token_is (Some term) "*" = false) as H2.
  { by term_cases Hterm. }
  assert (token_in (Some term) ["/"; "&"; "$"; "="] = true) as H3.
  { by term_cases Hterm. }
  pose proof (not_control_in v ["="; "%"; ","] Hv eq_refl) as H4.
  pose proof (not_control_is v "*" Hv eq_refl) as H5.
  cbn [value_loop].
  unfold mbind, M_bind, get_token, get_prior_token, mret, M_ret, lift.
  rewrite Htok, Hprior, H1, H2. cbn [negb orb].
  rewrite Htok, Hprior, H4, H5.
  rewrite (parse_value_literal st v Hprior Hv).
  destruct (append_value cfg v_values (literal_value fpy cfg v) v_idx 1)
    as [[vs idx]|e]; [|done].
  cbn beta iota. by rewrite Htok, H3.
Qed.

Lemma value_loop_term (fuel : nat) (patch_values : option (list value))
    (v_values : list value) (p_idx : nat) (st : parser) (v term : string) :
  token st = Some term -> prior_token st = Some v ->
  term ∈ ["/"; "&"; "$"] -> is_control v = false ->
  value_loop fpy f90repr cfg (S fuel) patch_values v_values None (Some 1) p_idx st
  = (Ok (v_values ++ [literal_value fpy cfg v], None), st).
Proof.
  intros Htok Hprior Hterm Hv.
  by rewrite (value_loop_term_at _ _ _ _ _ _ _ _ Htok Hprior Hterm Hv).
Qed.

(** The turn of the loop at a comma: the value of the literal before it is
    appended; the comma is written unless the patch values are exhausted. *)
Lemma value_loop_comma (fuel : nat) (values : list value) (v_values : list value)
    (v_idx : option FIndex) (p_idx : nat) (v v' out : string)
    (ws rest : list string) :
  values <> [] -> is_control v = false ->
  padding cfg ws -> literal_token cfg v' ->
  value_loop fpy f90repr cfg (S fuel) (Some values) v_values v_idx (Some 1)
    p_idx
    {| tokens := ws ++ v' :: rest; token := Some ","; prior_token := Some v;
       pfile := Some out |}
  = match append_value cfg v_values (literal_value fpy cfg v) v_idx 1 with
    | Ok (v_values', v_idx') =>
        value_loop fpy f90repr cfg fuel (Some values) v_values' v_idx' (Some 1)
          p_idx
          {| tokens := rest; token := Some v'; prior_token := Some ",";
             pfile := Some (out +:+ (if (length values <=? p_idx)%nat then ""
                                     else ",") +:+ cat ws) |}
    | Raise e =>
        (Raise e,
         {| tokens := ws ++ v' :: rest; token := Some ",";
            prior_token := Some v; pfile := Some out |})
    end.
Proof.
  intros Hne Hv Hws Hv'.
  pose proof (not_control_in v ["="; "%"; ","] Hv eq_refl) as H4.
  pose proof (not_control_is v "*" Hv eq_refl) as H5.
  set (st := {| tokens := ws ++ v' :: rest; token := Some ",";
                prior_token := Some v; pfile := Some out |}).
  cbn [value_loop].
  unfold mbind, M_bind, get_token, get_prior_token, mret, M_ret, lift.
  cbn [token prior_token st].
  change (token_in (Some ",") ["="; "("; "%"]) with false.
  change (token_is (Some ",") "*") with false.
  cbn [negb orb]. cbn [token prior_token st]. rewrite H4, H5.
  rewrite (parse_value_literal st v eq_refl Hv).
  destruct (append_value cfg v_values (literal_value fpy cfg v) v_idx 1)
    as [[vs idx]|e]; [|done].
  cbn beta iota. cbn [token st].
  change (token_in (Some ",") ["/"; "&"; "$"; "="]) with false.
  change (token_is (Some ",") ",") with true.
  destruct values as [|p0 ps]; [done|]. cbn [truthy_list].
  rewrite andb_false_r.
  rewrite (update_tokens_padding cfg true None _ st ws v' "," out rest
             eq_refl eq_refl eq_refl Hws (proj1 Hv')).
  rewrite (literal_not_trigger cfg v' Hv'), orb_false_r.
  unfold token_text. cbn [override_or default id].
  by destruct (length (p0 :: ps) <=? p_idx)%nat.
Qed.

(** The turn of the loop at a literal for which a patch value is left: the
    text of the patch value is written in its place, or the literal itself
    if that text is empty. *)
Lemma value_loop_literal_patched (fuel : nat) (values : list value)
    (v_values : list value) (v_idx : option FIndex) (n_vals : option Z)
    (p_idx : nat) (p_val : value) (v c prior out : string)
    (ws rest : list string) :
  values !! p_idx = Some p_val -> is_complex p_val = false ->
  literal_token cfg v -> prior ∈ ["="; ","] ->
  padding cfg ws -> plain cfg c ->
  value_loop fpy f90repr cfg (S fuel) (Some values) v_values v_idx n_vals p_idx
    {| tokens := ws ++ c :: rest; token := Some v; prior_token := Some prior;
       pfile := Some out |}
  = value_loop fpy f90repr cfg fuel (Some values) v_values v_idx (Some 1)
      (S p_idx)
      {| tokens := rest; token := Some c; prior_token := Some v;
         pfile := Some (out +:+ token_text true (Some (f90repr p_val)) v
                        +:+ cat ws) |}.
Proof.
  intros Hp Hcomplex [Hplain Hv] Hprior Hws Hc.
  pose proof (not_control_in v ["="; "("; "%"] Hv eq_refl) as H1.
  pose proof (not_control_is v "*" Hv eq_refl) as H2.
  pose proof (not_control_in v [","; "/"; "&"; "$"] Hv eq_refl) as H3.
  pose proof (not_control_in v ["/"; "&"; "$"; "="] Hv eq_refl) as H4.
  pose proof (not_control_is v "," Hv eq_refl) as H5.
  assert (token_in (Some prior) ["="; "%"; ","] = true) as H6.
  { rewrite !elem_of_cons, elem_of_nil in Hprior.
    by destruct Hprior as [-> | [-> | []]]. }
  set (st := {| tokens := ws ++ c :: rest; token := Some v;
                prior_token := Some prior; pfile := Some out |}).
  cbn [value_loop].
  unfold mbind, M_bind, get_token, get_prior_token, mret, M_ret, lift.
  cbn [token prior_token st]. rewrite H1, H2. cbn [negb orb].
  cbn [token prior_token st]. rewrite H6, H3. cbn [andb].
  cbn beta iota. cbn [token st]. rewrite H4.
  pose proof (lookup_lt_Some _ _ _ Hp) as Hlt.
  destruct values as [|p0 ps]; [done|]. cbn [truthy_list].
  replace (p_idx <? length (p0 :: ps))%nat with true
    by (symmetry; by apply Nat.ltb_lt).
  rewrite H5. cbn [negb andb]. rewrite Hp.
  rewrite (update_tokens_padding cfg true (Some (f90repr p_val)) false st ws c v
             out rest eq_refl eq_refl eq_refl Hws Hc).
  rewrite Hcomplex. by cbn [negb orb].
Qed.

(** The turn of the loop at a literal beyond the patch values: the literal
    is left out of the output. *)
Lemma value_loop_literal_skipped (fuel : nat) (values : list value)
    (v_values : list value) (v_idx : option FIndex) (n_vals : option Z)
    (p_idx : nat) (v c prior out : string) (ws rest : list string) :
  values <> [] -> (length values <= p_idx)%nat ->
  literal_token cfg v -> prior ∈ ["="; ","] ->
  padding cfg ws -> plain cfg c -> is_trigger c = false ->
  value_loop fpy f90repr cfg (S fuel) (Some values) v_values v_idx n_vals p_idx
    {| tokens := ws ++ c :: rest; token := Some v; prior_token := Some prior;
       pfile := Some out |}
  = value_loop fpy f90repr cfg fuel (Some values) v_values v_idx (Some 1) p_idx
      {| tokens := rest; token := Some c; prior_token := Some v;
         pfile := Some (out +:+ cat ws) |}.
Proof.
  intros Hne Hge [Hplain Hv] Hprior Hws Hc Htrig.
  pose proof (not_control_in v ["="; "("; "%"] Hv eq_refl) as H1.
  pose proof (not_control_is v "*" Hv eq_refl) as H2.
  pose proof (not_control_in v [","; "/"; "&"; "$"] Hv eq_refl) as H3.
  pose proof (not_control_in v ["/"; "&"; "$"; "="] Hv eq_refl) as H4.
  assert (token_in (Some prior) ["="; "%"; ","] = true) as H6.
  { rewrite !elem_of_cons, elem_of_nil in Hprior.
    by destruct Hprior as [-> | [-> | []]]. }
  set (st := {| tokens := ws ++ c :: rest; token := Some v;
                prior_token := Some prior; pfile := Some out |}).
  cbn [value_loop].
  unfold mbind, M_bind, get_token, get_prior_token, mret, M_ret, lift.
  cbn [token prior_token st]. rewrite H1, H2. cbn [negb orb].
  cbn [token prior_token st]. rewrite H6, H3. cbn [andb].
  cbn beta iota. cbn [token st]. rewrite H4.
  destruct values as [|p0 ps]; [done|]. cbn [truthy_list].
  replace (p_idx <? length (p0 :: ps))%nat with false
    by (symmetry; by apply Nat.ltb_ge).
  cbn [andb].
  replace (length (p0 :: ps) <=? p_idx)%nat with true
    by (symmetry; by apply Nat.leb_le).
  rewrite (update_tokens_padding cfg true None true st ws c v
             out rest eq_refl eq_refl eq_refl Hws Hc).
  rewrite Htrig. done.
Qed.

(** The turn of the loop at the name of the next variable, once the patch
    values are exhausted: the value of the last literal is appended, the
    name is written, and the loop ends at the token behind the name. *)
Lemma value_loop_next (fuel : nat) (values : list value) (v_values : list value)
    (v_idx : option FIndex) (p_idx : nat) (v name trigger out : string)
    (ws rest : list string) :
  values <> [] -> (length values <= p_idx)%nat -> is_control v = false ->
  literal_token cfg name -> padding cfg ws ->
  trigger ∈ ["="; "("; "%"] -> plain cfg trigger ->
  value_loop fpy f90repr cfg (S fuel) (Some values) v_values v_idx (Some 1)
    p_idx
    {| tokens := ws ++ trigger :: rest; token := Some name;
       prior_token := Some v; pfile := Some out |}
  = match append_value cfg v_values (literal_value fpy cfg v) v_idx 1 with
    | Ok appended =>
        (Ok appended,
         {| tokens := rest; token := Some trigger; prior_token := Some name;
            pfile := Some (out +:+ name +:+ cat ws) |})
    | Raise e =>
        (Raise e,
         {| tokens := ws ++ trigger :: rest; token := Some name;
            prior_token := Some v; pfile := Some out |})
    end.
Proof.
  intros Hne Hge Hv [Hplain Hname] Hws Htrig Hptrig.
  pose proof (not_control_in v ["="; "%"; ","] Hv eq_refl) as H4.
  pose proof (not_control_is v "*" Hv eq_refl) as H5.
  pose proof (not_control_in name ["="; "("; "%"] Hname eq_refl) as H1.
  pose proof (not_control_is name "*" Hname eq_refl) as H2.
  pose proof (not_control_in name ["/"; "&"; "$"; "="] Hname eq_refl) as H3.
  pose proof (not_control_is name "," Hname eq_refl) as H6.
  pose proof (not_control_is name "=" Hname eq_refl) as H7.
  set (st := {| tokens := ws ++ trigger :: rest; token := Some name;
                prior_token := Some v; pfile := Some out |}).
  cbn [value_loop].
  unfold mbind, M_bind, get_token, get_prior_token, mret, M_ret, lift.
  cbn [token prior_token st]. rewrite H1, H2. cbn [negb orb].
  cbn [token prior_token st]. rewrite H4, H5.
  rewrite (parse_value_literal st v eq_refl Hv).
  destruct (append_value cfg v_values (literal_value fpy cfg v) v_idx 1)
    as [[vs idx]|e]; [|done].
  cbn beta iota. cbn [token st]. rewrite H3.
  destruct values as [|p0 ps]; [done|]. cbn [truthy_list].
  replace (p_idx <? length (p0 :: ps))%nat with false
    by (symmetry; by apply Nat.ltb_ge).
  cbn [andb].
  replace (length (p0 :: ps) <=? p_idx)%nat with true
    by (symmetry; by apply Nat.leb_le).
  rewrite (update_tokens_padding cfg true None true st ws trigger name
             out rest eq_refl eq_refl eq_refl Hws Hptrig).
  assert (is_trigger trigger = true) as ->.
  { rewrite !elem_of_cons, elem_of_nil in Htrig.
    by destruct Htrig as [-> | [-> | [-> | []]]]. }
  assert (token_in (Some trigger) ["="; "("; "%"] = true) as Hin.
  { rewrite !elem_of_cons, elem_of_nil in Htrig.
    by destruct Htrig as [-> | [-> | [-> | []]]]. }
  assert (tokens_in (Some name) (Some trigger) [("=", "("); (",", "(")] = false)
    as Hpair.
  { simpl in H6, H7 |- *. rewrite orb_false_r in H6, H7. by rewrite H6, H7. }
  unfold token_text. cbn [orb override_or default id].
  destruct fuel; cbn [value_loop];
    unfold mbind, M_bind, get_token, get_prior_token, mret, M_ret;
    cbn [token prior_token]; by rewrite Hin, Hpair.
Qed.

Section Statement.
Variable values : list value.
Variable fin : ending.
Variable beyond : list string.
Hypothesis Hvalues : values <> [].
Hypothesis Hcomplex : Forall (fun p_val => is_complex p_val = false) values.
Hypothesis Hcomma : plain cfg ",".
Hypothesis Hfin : ending_ok cfg fin.

(** The turn at the literal of a value, whether a patch value is left for
    it or not. *)
Lemma value_loop_literal (fuel : nat) (v_values : list value)
    (v_idx : option FIndex) (n_vals : option Z) (p_idx : nat)
    (v c prior out : string) (ws rest : list string) :
  literal_token cfg v -> prior ∈ ["="; ","] ->
  padding cfg ws -> plain cfg c -> is_trigger c = false ->
  value_loop fpy f90repr cfg (S fuel) (Some values) v_values v_idx n_vals p_idx
    {| tokens := ws ++ c :: rest; token := Some v; prior_token := Some prior;
       pfile := Some out |}
  = value_loop fpy f90repr cfg fuel (Some values) v_values v_idx (Some 1)
      match values !! p_idx with Some _ => S p_idx | None => p_idx end
      {| tokens := rest; token := Some c; prior_token := Some v;
         pfile := Some (out
                        +:+ match f90repr <$> drop p_idx values with
                            | r :: _ => token_text true (Some r) v
                            | [] => ""
                            end
                        +:+ cat ws) |}.
Proof.
  intros Hlit Hprior Hws Hc Htrig.
  destruct (values !! p_idx) as [p_val|] eqn:Hp.
  - rewrite (value_loop_literal_patched _ _ _ _ _ _ p_val _ _ _ _ _ _
               Hp (Forall_lookup_1 _ _ _ _ Hcomplex Hp) Hlit Hprior Hws Hc).
    by rewrite (drop_S _ _ _ Hp).
  - apply lookup_ge_None in Hp.
    rewrite (value_loop_literal_skipped _ _ _ _ _ _ _ _ _ _ _ _
               Hvalues Hp Hlit Hprior Hws Hc Htrig).
    by rewrite (drop_ge _ _ Hp).
Qed.

(** The loop over the values of a statement, from the literal of [x] on:
    the values of the source are read and appended, and the patch file gets
    the text [emitted] for the patch values that are left, and the name of
    the next variable if the statement ends with one.  If the index of the
    variable does not take one of the values, the loop ends with the
    exception of [append_value]. *)
Lemma value_loop_patched (more : list src_value) :
  forall (x : src_value) (fuel : nat) (v_values : list value)
         (v_idx : option FIndex) (n_vals : option Z) (p_idx : nat)
         (prior out : string),
    Forall (well_spaced cfg) (x :: more) -> prior ∈ ["="; ","] ->
    (2 * S (length more) <= fuel)%nat ->
    ending_fits fin values (p_idx + S (length more)) ->
    let st := {| tokens := toks_after x more ++ ending_tokens fin ++ beyond;
                 token := Some (lit x); prior_token := Some prior;
                 pfile := Some out |} in
    match append_values cfg v_values v_idx
            ((fun y => literal_value fpy cfg (lit y)) <$> x :: more) with
    | Ok appended =>
        value_loop fpy f90repr cfg fuel (Some values) v_values v_idx n_vals
          p_idx st
        = (Ok appended,
           {| tokens := beyond; token := Some (ending_token fin);
              prior_token := Some (ending_prior fin (last_lit x more));
              pfile := Some (out +:+ emitted (f90repr <$> drop p_idx values)
                                       x more
                             +:+ ending_text fin) |})
    | Raise e =>
        (value_loop fpy f90repr cfg fuel (Some values) v_values v_idx n_vals
           p_idx st).1 = Raise e
    end.
Proof.
  induction more as [|y more IH];
    intros x fuel v_values v_idx n_vals p_idx prior out Hall Hprior Hfuel Hfits
      st; subst st.
  - apply Forall_cons in Hall as [(Hlit & Hws & _) _].
    destruct fuel as [|[|fuel]]; [simpl in Hfuel; lia..|].
    cbn [toks_after]. rewrite app_nil_r.
    cbn [append_values fmap list_fmap emitted last_lit].
    destruct fin as [term|name after_name trigger].
    + destruct Hfin as [Hterm Hplain].
      cbn [ending_tokens ending_token ending_prior ending_text app].
      rewrite (value_loop_literal _ _ _ _ _ _ _ _ _ _ _
                 Hlit Hprior Hws Hplain ltac:(by term_cases Hterm)).
      erewrite (value_loop_term_at _ _ _ _ _ _ (lit x) term);
        [|reflexivity|reflexivity|exact Hterm|exact (proj2 Hlit)].
      destruct (append_value cfg v_values (literal_value fpy cfg (lit x)) v_idx 1)
        as [[vs idx]|e]; [|done].
      by rewrite !append_nil_r.
    + destruct Hfin as (Hname & Hpad & Htrig & Hptrig).
      cbn [ending_tokens ending_token ending_prior ending_text app].
      rewrite <- app_assoc. cbn [app].
      rewrite (value_loop_literal _ _ _ _ _ _ _ _ _ _ _
                 Hlit Hprior Hws (proj1 Hname) (literal_not_trigger _ _ Hname)).
      rewrite (value_loop_next fuel values _ _ _ (lit x) name trigger _
                 after_name beyond Hvalues); [|..|exact Hptrig]; try done.
      * destruct (append_value cfg v_values (literal_value fpy cfg (lit x))
                    v_idx 1) as [[vs idx]|e]; [|done].
        by rewrite append_nil_r, !append_assoc.
      * simpl in Hfits. destruct (values !! p_idx) eqn:Hp; [lia|].
        apply lookup_ge_None in Hp. lia.
      * exact (proj2 Hlit).
  - apply Forall_cons in Hall as [(Hlit & Hws & Hws') Hall].
    pose proof Hall as Hall'.
    apply Forall_cons in Hall' as [(Hlity & _) _].
    destruct fuel as [|[|fuel]]; [simpl in Hfuel; lia..|].
    cbn [toks_after]. rewrite <- app_assoc. cbn [app].
    rewrite <- app_assoc. cbn [app].
    rewrite (value_loop_literal _ _ _ _ _ _ _ _ _ _ _
               Hlit Hprior Hws Hcomma eq_refl).
    rewrite (value_loop_comma _ _ _ _ _ _ _ _ _ _ Hvalues (proj2 Hlit) Hws' Hlity).
    change (append_values cfg v_values v_idx
              ((fun y0 => literal_value fpy cfg (lit y0)) <$> x :: y :: more))
      with (match append_value cfg v_values (literal_value fpy cfg (lit x))
                    v_idx 1 with
            | Ok (v_values', v_idx') =>
                append_values cfg v_values' v_idx'
                  ((fun y0 => literal_value fpy cfg (lit y0)) <$> y :: more)
            | Raise e => Raise e
            end).
    destruct (append_value cfg v_values (literal_value fpy cfg (lit x)) v_idx 1)
      as [[vs idx]|e]; [|done].
    assert ("," ∈ ["="; ","]) as Hin by (rewrite !elem_of_cons; by right; left).
    assert (2 * S (length more) <= fuel)%nat as Hfuel'
      by (simpl in Hfuel |- *; lia).
    assert (ending_fits fin values
              (match values !! p_idx with Some _ => S p_idx | None => p_idx end
               + S (length more))) as Hfits'.
    { destruct fin; [done|]. simpl in Hfits |- *.
      destruct (values !! p_idx) eqn:Hp; [lia|].
      apply lookup_ge_None in Hp. lia. }
    specialize (IH y fuel vs idx (Some 1)
                  match values !! p_idx with Some _ => S p_idx | None => p_idx end
                  ","
                  (out
                   +:+ match f90repr <$> drop p_idx values with
                       | r :: _ => token_text true (Some r) (lit x)
                       | [] => ""
                       end
                   +:+ cat (after_lit x)
                   +:+ (if (length values
                            <=? match values !! p_idx with
                                | Some _ => S p_idx
                                | None => p_idx
                                end)%nat
                        then "" else ",")
                   +:+ cat (after_comma x))
                  Hall Hin Hfuel' Hfits').
    cbv zeta in IH. rewrite !append_assoc.
    destruct (append_values cfg vs idx
                ((fun y0 => literal_value fpy cfg (lit y0)) <$> y :: more))
      as [appended|e]; [|exact IH].
    rewrite IH. do 3 f_equal.
    cbn [emitted]. rewrite !append_assoc. f_equal.
    destruct (values !! p_idx) as [p_val|] eqn:Hp.
    + rewrite (drop_S _ _ _ Hp). cbn [fmap list_fmap tail].
      do 2 f_equal.
      destruct (drop (S p_idx) values) as [|q qs] eqn:Hd.
      * apply drop_nil_inv in Hd.
        replace (length values <=? S p_idx)%nat with true
          by (symmetry; by apply Nat.leb_le).
        done.
      * replace (length values <=? S p_idx)%nat with false; [done|].
        symmetry. apply Nat.leb_gt.
        destruct (decide (S p_idx < length values)%nat) as [|Hge]; [done|].
        rewrite drop_ge in Hd by lia. done.
    + apply lookup_ge_None in Hp. rewrite (drop_ge _ _ Hp).
      cbn [fmap list_fmap tail].
      replace (length values <=? p_idx)%nat with true
        by (symmetry; by apply Nat.leb_le).
      done.
Qed.

End Statement.

End ValueLoop.

Lemma toks_after_length (x : src_value) (more : list src_value) :
  (2 * length more <= length (toks_after x more))%nat.
Proof.
  revert x. induction more as [|y more IH]; intros x; simpl; [lia|].
  rewrite length_app. simpl. rewrite length_app. simpl.
  specialize (IH y). lia.
Qed.

(** Once the patch values are exhausted, only the white space and the
    comments of the source values are written: no literal and no comma. *)
Lemma emitted_exhausted (x : src_value) (more : list src_value) :
  emitted [] x more
  = cat (after_lit x)
    +:+ match more with
        | [] => ""
        | y :: more' => cat (after_comma x) +:+ emitted [] y more'
        end.
Proof. by destruct more. Qed.

(** Without index every value is appended. *)
Lemma append_values_unindexed (cfg : config) (next_values : list value) :
  forall v_values : list value,
    append_values cfg v_values None next_values
    = Ok (v_values ++ next_values, None).
Proof.
  induction next_values as [|v more IH]; intros v_values.
  - by rewrite app_nil_r.
  - cbn [append_values].
    change (append_value cfg v_values v None 1)
      with (Ok (v_values ++ [v], @None FIndex)).
    cbn beta iota. rewrite IH. by rewrite <- app_assoc.
Qed.

(** An indexed variable keeps its index. *)
Lemma append_values_indexed (cfg : config) (next_values : list value) :
  forall (v_values : list value) (v_idx : FIndex)
         (appended : list value * option FIndex),
    append_values cfg v_values (Some v_idx) next_values = Ok appended ->
    is_Some appended.2.
Proof.
  induction next_values as [|v more IH]; intros v_values v_idx appended H.
  - injection H as <-. by eexists.
  - cbn [append_values] in H. unfold append_value in H.
    change (Z.to_nat 1) with 1%nat in H. cbn [append_value_loop] in H.
    destruct (append_indexed cfg v_values v v_idx) as [[vs idx]|e]; [|done].
    by apply (IH vs idx).
Qed.




End PatchProps.

(** ** The value of a variable *)

Module DelistProps.
Import IndexProps PatchProps.

(** Without a patch file the search only goes over the white space. *)
Lemma scan_blanks_unpatched (cfg : config) (x : string) (ws : list string)
    (t : string) (rest : list string) (patch_tokens : string) :
  blank cfg x -> Forall (blank cfg) ws -> plain cfg t ->
  scan cfg false false x (ws ++ t :: rest) patch_tokens
  = Scanned t rest patch_tokens.
Proof.
  intros Hx Hws Ht. revert x patch_tokens Hx.
  induction Hws as [|y ws Hy _ IH]; intros x patch_tokens [Hx1 Hx2].
  - simpl. rewrite Hx1. by rewrite (scan_plain _ _ _ _ _ Ht).
  - simpl. rewrite Hx1. by rewrite (IH _ _ Hy).
Qed.

Lemma update_tokens_unpatched (cfg : config) (w : bool) (o : option string)
    (sk : bool) (st : parser) (ws : list string) (t : string)
    (rest : list string) :
  tokens st = ws ++ t :: rest -> pfile st = None ->
  Forall (blank cfg) ws -> plain cfg t ->
  update_tokens cfg w o sk st
  = (Ok tt,
     {| tokens := rest; token := Some t; prior_token := token st;
        pfile := None |}).
Proof.
  intros Htoks Hout Hws Ht. unfold update_tokens. rewrite Hout.
  replace (bool_decide (is_Some (@None string))) with false by done.
  cbn [andb fmap option_fmap option_map].
  destruct ws as [|x ws]; simpl in Htoks; rewrite Htoks.
  - by rewrite (scan_plain _ _ _ _ _ Ht).
  - apply Forall_cons in Hws as [Hx Hws].
    by rewrite (scan_blanks_unpatched _ _ _ _ _ _ Hx Hws Ht).
Qed.

Lemma bind_inv {A B : Type} (m : M A) (f : A -> M B) (st st' : parser) (b : B) :
  (m ≫= f) st = (Ok b, st') ->
  exists (a : A) (st1 : parser), m st = (Ok a, st1) /\ f a st1 = (Ok b, st').
Proof.
  unfold mbind, M_bind. destruct (m st) as [[a|e] st1]; [|done].
  intros H. by exists a, st1.
Qed.

Lemma append_value_keeps_index (cfg0 : config) (v_values v_values' : list value)
    (next_value : value) (v_idx : FIndex) (v_idx' : option FIndex) (n_vals : Z) :
  append_value cfg0 v_values next_value (Some v_idx) n_vals
  = Ok (v_values', v_idx') ->
  is_Some v_idx'.
Proof.
  unfold append_value. generalize (Z.to_nat n_vals) as turns.
  intros turns. revert v_values v_idx.
  induction turns as [|turns IH]; intros v_values v_idx H; simpl in H.
  - injection H as <- <-. by eexists.
  - destruct (append_indexed cfg0 v_values next_value v_idx) as [[v1 idx1]|];
      [|done].
    by apply (IH v1 idx1).
Qed.

(** Taking a computation of the parser apart, when it has returned. *)
Ltac inv_M H :=
  repeat match type of H with
    | (_ ≫= _) _ = (Ok _, _) =>
        let a := fresh "a" in
        let st1 := fresh "st" in
        let H1 := fresh "H" in
        apply bind_inv in H as (a & st1 & H1 & H);
        lazymatch type of H1 with
        | get_token _ = _ => unfold get_token in H1; injection H1 as <- <-
        | get_prior_token _ = _ =>
            unfold get_prior_token in H1; injection H1 as <- <-
        | _ => idtac
        end
    | raise _ _ = (Ok _, _) => discriminate H
    end.

Section Unpatched.
Variable fpy : bool -> string -> option value.
Variable f90repr : value -> string.
Variable cfg : config.

(** The turn of the loop at a literal when the variable is not patched:
    the loop goes on to the next token. *)
Lemma value_loop_literal_unpatched (fuel : nat) (v_values : list value)
    (n_vals : option Z) (p_idx : nat) (v c prior : string)
    (ws rest : list string) :
  literal_token cfg v -> prior ∈ ["="; ","] ->
  Forall (blank cfg) ws -> plain cfg c ->
  value_loop fpy f90repr cfg (S fuel) None v_values None n_vals p_idx
    {| tokens := ws ++ c :: rest; token := Some v; prior_token := Some prior;
       pfile := None |}
  = value_loop fpy f90repr cfg fuel None v_values None (Some 1) p_idx
      {| tokens := rest; token := Some c; prior_token := Some v;
         pfile := None |}.
Proof.
  intros [Hplain Hv] Hprior Hws Hc.
  pose proof (not_control_in v ["="; "("; "%"] Hv eq_refl) as H1.
  pose proof (not_control_is v "*" Hv eq_refl) as H2.
  pose proof (not_control_in v [","; "/"; "&"; "$"] Hv eq_refl) as H3.
  pose proof (not_control_in v ["/"; "&"; "$"; "="] Hv eq_refl) as H4.
  assert (token_in (Some prior) ["="; "%"; ","] = true) as H6.
  { rewrite !elem_of_cons, elem_of_nil in Hprior.
    by destruct Hprior as [-> | [-> | []]]. }
  set (st := {| tokens := ws ++ c :: rest; token := Some v;
                prior_token := Some prior; pfile := None |}).
  cbn [value_loop].
  unfold mbind, M_bind, get_token, get_prior_token, mret, M_ret, lift.
  cbn [token prior_token st]. rewrite H1, H2. cbn [negb orb].
  cbn [token prior_token st]. rewrite H6, H3. cbn [andb].
  cbn beta iota. cbn [token st]. rewrite H4. cbn [truthy_list].
  unfold next_tokens.
  by rewrite (update_tokens_unpatched cfg true None false st ws c rest
                eq_refl eq_refl Hws Hc).
Qed.

(** At the [=] of the next variable the loop is not entered. *)
Lemma value_loop_next_variable (fuel : nat) (patch_values : option (list value))
    (v_values : list value) (v_idx : option FIndex) (n_vals : option Z)
    (p_idx : nat) (st : parser) (v : string) :
  token st = Some "=" -> prior_token st = Some v ->
  value_loop fpy f90repr cfg fuel patch_values v_values v_idx n_vals p_idx st
  = (Ok (v_values, v_idx), st).
Proof.
  intros Htok Hprior.
  assert (tokens_in (Some v) (Some "=") [("=", "("); (",", "(")] = false) as H.
  { simpl. by rewrite !andb_false_r. }
  destruct fuel; cbn [value_loop];
    unfold mbind, M_bind, get_token, get_prior_token, mret, M_ret;
    rewrite Htok, Hprior, H; reflexivity.
Qed.

(** The index generator of an indexed variable stays with it through the
    loop over its values. *)
Lemma value_loop_keeps_index (fuel : nat) :
  forall (patch_values : option (list value)) (v_values : list value)
         (v_idx : FIndex) (n_vals : option Z) (p_idx : nat) (st st' : parser)
         (v_values' : list value) (v_idx' : option FIndex),
    value_loop fpy f90repr cfg fuel patch_values v_values (Some v_idx) n_vals
      p_idx st
    = (Ok (v_values', v_idx'), st') ->
    is_Some v_idx'.
Proof.
  induction fuel as [|fuel IH];
    intros patch_values v_values v_idx n_vals p_idx st st' v_values' v_idx' H;
    cbn [value_loop] in H; inv_M H.
  - destruct (_ || _); [done|]. injection H as <- <- <-. by eexists.
  - destruct (_ || _); cycle 1.
    { injection H as <- <- <-. by eexists. }
    inv_M H. rename H0 into Hn, H1 into Happ.
    assert (is_Some a0.2) as Hsome.
    { destruct a0 as [vv0 o0]. cbn [snd].
      destruct (token_in (prior_token st0) _).
      - destruct (_ && _).
        + injection Happ as Happ _.
          by apply append_value_keeps_index in Happ.
        + injection Happ as <- <- _. by eexists.
      - destruct (token_is (prior_token st0) "*"); inv_M Happ.
        + injection Happ as Happ _.
          by apply append_value_keeps_index in Happ.
        + injection Happ as Happ _.
          by apply append_value_keeps_index in Happ. }
    destruct a0 as [vv0 o0]. cbn [snd] in Hsome. destruct Hsome as [idx0 ->].
    inv_M H.
    destruct (token_in (token st1) _).
    { injection H as <- <- <-. by eexists. }
    destruct (truthy_list patch_values) as [values|].
    + destruct (_ && _).
      * destruct (values !! p_idx) as [p_val|]; [|done].
        inv_M H. by apply IH in H.
      * inv_M H. by apply IH in H.
    + inv_M H. by apply IH in H.
Qed.

Variable FIndex_init : list triplet -> option Z -> FIndex.

(** An unpatched statement [name = literal] before the end of the group:
    the variable gets the value of the literal, not a list of it. *)
Lemma parse_variable_single (v_name : string) (parent : Namelist)
    (patch_nml : list (string * value)) (v term : string)
    (before after beyond : list string) :
  index_get v_name (start_index parent) = None ->
  dict_get (lower v_name) patch_nml = None ->
  literal_token cfg v -> Forall (blank cfg) before -> Forall (blank cfg) after ->
  term ∈ ["/"; "&"; "$"] -> plain cfg term ->
  parse_variable fpy FIndex_init f90repr cfg parent patch_nml
    {| tokens := before ++ v :: after ++ term :: beyond; token := Some "=";
       prior_token := Some v_name; pfile := None |}
  = (Ok (v_name, literal_value fpy cfg v, parent, patch_nml),
     {| tokens := beyond; token := Some term; prior_token := Some v;
        pfile := None |}).
Proof.
  intros Hidx Hpatch Hlit Hbefore Hafter Hterm Hplain.
  set (st := {| tokens := before ++ v :: after ++ term :: beyond;
                token := Some "="; prior_token := Some v_name; pfile := None |}).
  unfold parse_variable, assign_values.
  unfold mbind at 1, M_bind at 1, get_prior_token. cbn [prior_token st].
  unfold mbind at 1, M_bind at 1, get_token. cbn [token st].
  change (token_is (Some "=") "(") with false. cbn iota.
  unfold reconcile_unindexed. rewrite Hidx.
  unfold mbind, M_bind, mret, M_ret, lift, get_token. cbn [token st].
  change (token_is (Some "=") "%") with false.
  change (token_is (Some "=") "=") with true. cbn [negb].
  unfold next_tokens.
  rewrite (update_tokens_unpatched cfg true None false st before v _
             eq_refl eq_refl Hbefore (proj1 Hlit)).
  rewrite Hpatch. unfold with_fuel. cbn [tokens token st].
  rewrite length_app. cbn [length]. rewrite Nat.add_succ_r.
  rewrite (value_loop_literal_unpatched _ _ _ _ _ _ _ _ _ Hlit
             ltac:(apply elem_of_cons; by left) Hafter Hplain).
  erewrite (value_loop_term fpy f90repr cfg _ _ _ _ _ v term);
    [|reflexivity|reflexivity|exact Hterm|exact (proj2 Hlit)].
  reflexivity.
Qed.

(** An unpatched statement [name =] that the next variable follows at once,
    as in [x = y = 3]: the loop ends at the second [=] with no value read,
    and the variable gets [None]. *)
Lemma parse_variable_no_value (v_name : string) (parent : Namelist)
    (patch_nml : list (string * value)) (next_name : string)
    (before after beyond : list string) :
  index_get v_name (start_index parent) = None ->
  dict_get (lower v_name) patch_nml = None ->
  literal_token cfg next_name ->
  Forall (blank cfg) before -> Forall (blank cfg) after -> plain cfg "=" ->
  parse_variable fpy FIndex_init f90repr cfg parent patch_nml
    {| tokens := before ++ next_name :: after ++ "=" :: beyond;
       token := Some "="; prior_token := Some v_name; pfile := None |}
  = (Ok (v_name, VNone, parent, patch_nml),
     {| tokens := beyond; token := Some "="; prior_token := Some next_name;
        pfile := None |}).
Proof.
  intros Hidx Hpatch Hlit Hbefore Hafter Hplain.
  set (st := {| tokens := before ++ next_name :: after ++ "=" :: beyond;
                token := Some "="; prior_token := Some v_name; pfile := None |}).
  unfold parse_variable, assign_values.
  unfold mbind at 1, M_bind at 1, get_prior_token. cbn [prior_token st].
  unfold mbind at 1, M_bind at 1, get_token. cbn [token st].
  change (token_is (Some "=") "(") with false. cbn iota.
  unfold reconcile_unindexed. rewrite Hidx.
  unfold mbind, M_bind, mret, M_ret, lift, get_token. cbn [token st].
  change (token_is (Some "=") "%") with false.
  change (token_is (Some "=") "=") with true. cbn [negb].
  unfold next_tokens.
  rewrite (update_tokens_unpatched cfg true None false st before next_name _
             eq_refl eq_refl Hbefore (proj1 Hlit)).
  rewrite Hpatch. unfold with_fuel. cbn [tokens token st].
  rewrite (value_loop_literal_unpatched _ _ _ _ _ _ _ _ _ Hlit
             ltac:(apply elem_of_cons; by left) Hafter Hplain).
  erewrite value_loop_next_variable; [|reflexivity|reflexivity].
  reflexivity.
Qed.

(** An indexed variable whose statement is parsed gets a list, whatever the
    number of its values. *)
Lemma parse_variable_indexed_list (parent parent' : Namelist)
    (patch_nml patch_nml' : list (string * value)) (st st' : parser)
    (v_name : string) (v_values : value) :
  token st = Some "(" ->
  parse_variable fpy FIndex_init f90repr cfg parent patch_nml st
  = (Ok (v_name, v_values, parent', patch_nml'), st') ->
  is_list v_values = true.
Proof.
  intros Htok H. unfold parse_variable, assign_values in H. inv_M H.
  destruct (prior_token st) as [name|]; [|done].
  inv_M H. rewrite Htok in H0.
  change (token_is (Some "(") "(") with true in H0. cbn iota in H0.
  inv_M H0. destruct a1 as [v_first parent1]. inv_M H0.
  injection H0 as <- <-. cbn beta iota in H. inv_M H.
  destruct (token_is (token st3) "%"); [done|].
  destruct (negb (token_is (token st3) "=")); [done|].
  inv_M H.
  destruct (match dict_get (lower name) patch_nml with
            | Some values => _
            | None => _
            end) as [patch_values patch_nml1].
  inv_M H. destruct a2 as [vv v_idx']. unfold with_fuel in H4.
  apply value_loop_keeps_index in H4 as [idx' ->].
  injection H as <- <- <- <- <-. reflexivity.
Qed.

End Unpatched.

(** C6: a variable without index whose statement holds one value gets that
    value and not a list of it: [delist] reduces the list of length 1 to its
    sole element; an indexed variable gets a list whatever the number of its
    values, a list of length 1 included. *)
Theorem delist_unless_indexed
    (fpy : bool -> string -> option value)
    (FIndex_init : list triplet -> option Z -> FIndex)
    (f90repr : value -> string) (cfg : config)
    (v_name : string) (parent : Namelist) (patch_nml : list (string * value))
    (v term : string) (before after beyond : list string) :
  index_get v_name (start_index parent) = None ->
  dict_get (lower v_name) patch_nml = None ->
  literal_token cfg v -> Forall (blank cfg) before -> Forall (blank cfg) after ->
  term ∈ ["/"; "&"; "$"] -> plain cfg term ->
  (parse_variable fpy FIndex_init f90repr cfg parent patch_nml
     {| tokens := before ++ v :: after ++ term :: beyond; token := Some "=";
        prior_token := Some v_name; pfile := None |}
   = (Ok (v_name, literal_value fpy cfg v, parent, patch_nml),
      {| tokens := beyond; token := Some term; prior_token := Some v;
         pfile := None |})
   /\ forall x : value,
        delist [x] = x /\ finish_variable None None [x] = x)
  /\ (forall (v_idx : FIndex) (x : value),
        finish_variable None (Some v_idx) [x] = VList [x])
  /\ (forall (parent0 parent' : Namelist)
             (patch_nml0 patch_nml' : list (string * value))
             (st st' : parser) (name : string) (v_values : value),
        token st = Some "(" ->
        parse_variable fpy FIndex_init f90repr cfg parent0 patch_nml0 st
        = (Ok (name, v_values, parent', patch_nml'), st') ->
        is_list v_values = true).
Proof.
  intros Hidx Hpatch Hlit Hbefore Hafter Hterm Hplain. repeat split.
  - by apply parse_variable_single.
  - intros. by eapply parse_variable_indexed_list.
Qed.

(** The statements [x = 7 /] and [x(1) = 7 /]: the first gives [x] the
    integer 7, the second the list of it. *)
Lemma delist_unless_indexed_witness :
  parse_variable Example.fpy Example.FIndex_init Example.f90repr init_config
    empty_Namelist []
    {| tokens := [" "; "7"; " "; "/"; LF]; token := Some "=";
       prior_token := Some "x"; pfile := None |}
  = (Ok ("x", VInt 7, empty_Namelist, []),
     {| tokens := [LF]; token := Some "/"; prior_token := Some "7";
        pfile := None |})
  /\ (parse_variable Example.fpy Example.FIndex_init Example.f90repr init_config
        empty_Namelist []
        {| tokens := ["1"; ")"; " "; "="; " "; "7"; " "; "/"; LF];
           token := Some "("; prior_token := Some "x"; pfile := None |}).1
     = Ok ("x", VList [VInt 7],
           {| items := []; start_index := [("x", [Some 1])] |}, [])
  /\ is_list (VList [VInt 7]) = true.
Proof.
  destruct (delist_unless_indexed Example.fpy Example.FIndex_init
              Example.f90repr init_config "x" empty_Namelist [] "7" "/"
              [" "] [" "] [LF]) as ([Hscalar _] & _ & Hlist).
  - reflexivity.
  - reflexivity.
  - split; reflexivity.
  - repeat constructor.
  - repeat constructor.
  - apply elem_of_cons. by left.
  - reflexivity.
  - split; [exact Hscalar|]. split; [reflexivity|].
    apply (Hlist empty_Namelist
             {| items := []; start_index := [("x", [Some 1])] |} [] []
             {| tokens := ["1"; ")"; " "; "="; " "; "7"; " "; "/"; LF];
                token := Some "("; prior_token := Some "x"; pfile := None |}
             {| tokens := [LF]; token := Some "/"; prior_token := Some "7";
                pfile := None |} "x").
    + reflexivity.
    + reflexivity.
Defined.

(** C10: a variable without index whose list of parsed values is empty at
    the end of [parse_variable] gets [None], not an empty list: [delist] of
    the empty list is [None].  The list is empty when the next variable
    follows the [=] at once. *)
Theorem delist_empty_is_None
    (fpy : bool -> string -> option value)
    (FIndex_init : list triplet -> option Z -> FIndex)
    (f90repr : value -> string) (cfg : config)
    (v_name : string) (parent : Namelist) (patch_nml : list (string * value))
    (next_name : string) (before after beyond : list string) :
  index_get v_name (start_index parent) = None ->
  dict_get (lower v_name) patch_nml = None ->
  literal_token cfg next_name ->
  Forall (blank cfg) before -> Forall (blank cfg) after -> plain cfg "=" ->
  delist [] = VNone
  /\ finish_variable None None [] = VNone
  /\ parse_variable fpy FIndex_init f90repr cfg parent patch_nml
       {| tokens := before ++ next_name :: after ++ "=" :: beyond;
          token := Some "="; prior_token := Some v_name; pfile := None |}
     = (Ok (v_name, VNone, parent, patch_nml),
        {| tokens := beyond; token := Some "="; prior_token := Some next_name;
           pfile := None |}).
Proof.
  intros Hidx Hpatch Hlit Hbefore Hafter Hplain. repeat split.
  by apply parse_variable_no_value.
Qed.

(** The statements [x= y=3]: [x] gets [None]. *)
Lemma delist_empty_is_None_witness :
  parse_variable Example.fpy Example.FIndex_init Example.f90repr init_config
    empty_Namelist []
    {| tokens := [" "; "y"; "="; "3"; " "; "/"; LF]; token := Some "=";
       prior_token := Some "x"; pfile := None |}
  = (Ok ("x", VNone, empty_Namelist, []),
     {| tokens := ["3"; " "; "/"; LF]; token := Some "=";
        prior_token := Some "y"; pfile := None |}).
Proof.
  apply (delist_empty_is_None Example.fpy Example.FIndex_init Example.f90repr
           init_config "x" empty_Namelist [] "y" [" "] []
           ["3"; " "; "/"; LF]).
  - reflexivity.
  - reflexivity.
  - split; reflexivity.
  - repeat constructor.
  - constructor.
  - reflexivity.
Defined.

End DelistProps.

(** ** The forms of a dimension index *)

Module IndexFormProps.
Import IndexProps DelistProps.

(** An integer token is neither white space nor a comment. *)
Lemma pyint_plain (t : string) (n : Z) :
  pyint t = Some n -> plain init_config t.
Proof.
  destruct t as [|c t]; [done|]. unfold plain. cbn [first_in]. intros H.
  f_equal. apply not_true_iff_false. intros Hc. revert H.
  destruct c as [[] [] [] [] [] [] [] []];
    first [ by vm_compute in Hc
          | intros H; vm_compute in H; discriminate H ].
Qed.

(** One call of [update_tokens], or one test of the token read. *)
Ltac step :=
  first
    [ match goal with
      | |- context [update_tokens ?cfg ?w ?o ?sk
                      (Parser (?t :: ?rest) ?tok ?prior None)] =>
          rewrite (update_tokens_unpatched cfg w o sk
                     (Parser (t :: rest) tok prior None) [] t rest
                     eq_refl eq_refl (Forall_nil_2 _))
            by (first [assumption | reflexivity
                      | eapply pyint_plain; eassumption])
      end
    | match goal with
      | H : pyint ?t = _ |- context [pyint ?t] => rewrite H
      | H : token_in (Some ?t) ?l = _ |- context [token_in (Some ?t) ?l] =>
          rewrite H
      | H : token_is (Some ?t) ?c = _ |- context [token_is (Some ?t) ?c] =>
          rewrite H
      end
    | match goal with
      | |- context [pyint ?t] =>
          lazymatch t with
          | text _ => fail
          | _ => let r := eval vm_compute in (pyint t) in
                 change (pyint t) with r
          end
      end
    | progress cbn [token prior_token tokens pfile fst snd]
    | progress cbn beta iota
    | progress cbn [token_in token_is existsb String.eqb Ascii.eqb Bool.eqb
                    orb andb negb] ].

Ltac run_parse_index :=
  unfold at_index, parse_index, next_tokens;
  unfold mbind, M_bind, try_ValueError, get_token, int_of_token, mret, M_ret,
    raise;
  repeat step.

(** [parse_index] on every form of a dimension index that a comma or a
    closing parenthesis follows: the triplet of a well-formed index, and the
    error of a malformed one. *)
Theorem parse_index_forms (v_name : string) (f : index_form) (term : string)
    (rest : list string) :
  index_form_ok f -> term ∈ [","; ")"] ->
  (parse_index init_config v_name
     (at_index v_name (index_tokens f ++ term :: rest))).1
  = index_outcome v_name f term.
Proof.
  intros Hok Hterm. rewrite !elem_of_cons, elem_of_nil in Hterm.
  unfold int_lit_ok, index_form_ok in Hok.
  destruct f as [|i|[s|] [e|]|[s|] e k|[s|]|[s|] e];
    cbn [index_tokens opt_text app index_outcome fmap option_fmap option_map
         from_option] in *;
    unfold int_lit_ok in Hok;
    repeat match goal with H : _ /\ _ |- _ => destruct H end;
    destruct Hterm as [-> | [-> | []]];
    try destruct (Z.eqb_spec (number k) 0) as [Hk|Hk];
    run_parse_index;
    try reflexivity;
    first [ rewrite Hk; repeat step; reflexivity
          | apply Z.eqb_neq in Hk; rewrite !Hk; repeat step; reflexivity ].
Qed.

(** A complete index that neither a comma nor a closing parenthesis follows
    did not terminate correctly. *)
Lemma parse_index_unterminated (v_name : string) (f : index_form)
    (x : string) (rest : list string) :
  index_form_ok f ->
  match f with
  | ISingle _ | IRange _ (Some _) => True
  | IStride _ _ k => number k <> 0
  | _ => False
  end ->
  plain init_config x -> token_in (Some x) [","; ")"] = false ->
  token_is (Some x) ":" = false ->
  (parse_index init_config v_name
     (at_index v_name (index_tokens f ++ x :: rest))).1
  = Raise (ValueError (v_name +:+ " index did not terminate correctly.")).
Proof.
  intros Hok Hf Hplain Hterm Hcolon.
  unfold int_lit_ok, index_form_ok in Hok.
  destruct f as [|i|[s|] [e|]|[s|] e k|[s|]|[s|] e]; try done;
    cbn [index_tokens opt_text app from_option] in *;
    unfold int_lit_ok in Hok;
    repeat match goal with H : _ /\ _ |- _ => destruct H end;
    run_parse_index;
    try reflexivity;
    apply Z.eqb_neq in Hf; rewrite !Hf; repeat step; reflexivity.
Qed.

(** The index [1:5:2)] and its triplet. *)
Lemma parse_index_forms_witness :
  (parse_index init_config "v"
     (at_index "v" ["1"; ":"; "5"; ":"; "2"; ")"; "="])).1
  = Ok (Some 1, Some 6, Some 2).
Proof.
  apply (parse_index_forms "v"
           (IStride (Some {| text := "1"; number := 1 |})
              {| text := "5"; number := 5 |} {| text := "2"; number := 2 |})
           ")" ["="]).
  - repeat split.
  - apply elem_of_cons. right. apply elem_of_cons. by left.
Defined.

(** The index [1 2)], in which a comma is missing. *)
Lemma parse_index_unterminated_witness :
  (parse_index init_config "v" (at_index "v" ["1"; "2"; ")"; "="])).1
  = Raise (ValueError "v index did not terminate correctly.").
Proof.
  apply (parse_index_unterminated "v" (ISingle {| text := "1"; number := 1 |})
           "2" [")"; "="]); reflexivity || exact I.
Defined.

End IndexFormProps.

(** ** The cursor: what [update_tokens] stops at and what it writes *)

Module TokenProps.
Import IndexProps PatchProps.

Lemma plain_not_empty (cfg : config) (t : string) : plain cfg t -> t <> "".
Proof. by intros H ->. Qed.

(** The end of a line is white space, whatever the comment tokens are. *)
Lemma LF_not_plain (cfg : config) : ~ plain cfg LF.
Proof.
  unfold plain, LF, first_in. rewrite char_in_app.
  replace (char_in (ascii_of_nat 10) whitespace) with true by reflexivity.
  rewrite orb_true_r. discriminate.
Qed.

(** The search of [update_tokens] while patching: the token it stops at is
    plain, and the text it collects is the text of all it went over. *)
Lemma scan_patching (cfg : config) (toks : list string) :
  forall (in_comment : bool) (next_token patch_tokens : string),
    match scan cfg true in_comment next_token toks patch_tokens with
    | Scanned t rest patch_tokens' =>
        plain cfg t
        /\ exists skipped : list string,
             next_token :: toks = skipped ++ t :: rest
             /\ patch_tokens' = patch_tokens +:+ cat skipped
    | Exhausted _ patch_tokens' =>
        patch_tokens' = patch_tokens +:+ cat (next_token :: toks)
    | ExhaustedInComment => last (next_token :: toks) <> Some LF
    | EmptyToken _ => True
    end.
Proof.
  induction toks as [|t toks IH]; intros in_comment next_token patch_tokens.
  - simpl. destruct in_comment.
    + destruct (String.eqb next_token LF) eqn:E; [by rewrite append_nil_r|].
      intros [= ->]. by rewrite String.eqb_refl in E.
    + destruct (first_in next_token (comment_tokens cfg +:+ whitespace))
        as [[]|] eqn:E1; [| |done].
      * destruct (first_in next_token (comment_tokens cfg)) as [[]|];
          try by rewrite append_nil_r.
        destruct (String.eqb next_token LF) eqn:E; [by rewrite append_nil_r|].
        intros [= ->]. by rewrite String.eqb_refl in E.
      * split; [done|]. exists []. by rewrite append_nil_r.
  - assert (forall pt : string,
              match scan cfg true false t toks (pt +:+ next_token) with
              | Scanned t0 rest patch_tokens' =>
                  plain cfg t0
                  /\ exists skipped : list string,
                       next_token :: t :: toks = skipped ++ t0 :: rest
                       /\ patch_tokens' = pt +:+ cat skipped
              | Exhausted _ patch_tokens' =>
                  patch_tokens' = pt +:+ cat (next_token :: t :: toks)
              | ExhaustedInComment => last (next_token :: t :: toks) <> Some LF
              | EmptyToken _ => True
              end) as Hadvance.
    { intros pt. specialize (IH false t (pt +:+ next_token)).
      destruct (scan cfg true false t toks (pt +:+ next_token)); try done.
      - destruct IH as (Hp & skipped & Hs & ->). split; [done|].
        exists (next_token :: skipped). simpl. rewrite Hs.
        by rewrite append_assoc.
      - rewrite IH. change (cat (next_token :: t :: toks))
          with (next_token +:+ cat (t :: toks)). by rewrite append_assoc. }
    assert (match (if String.eqb next_token LF
                   then scan cfg true false t toks (patch_tokens +:+ next_token)
                   else scan cfg true true t toks (patch_tokens +:+ next_token))
            with
            | Scanned t0 rest patch_tokens' =>
                plain cfg t0
                /\ exists skipped : list string,
                     next_token :: t :: toks = skipped ++ t0 :: rest
                     /\ patch_tokens' = patch_tokens +:+ cat skipped
            | Exhausted _ patch_tokens' =>
                patch_tokens' = patch_tokens +:+ cat (next_token :: t :: toks)
            | ExhaustedInComment => last (next_token :: t :: toks) <> Some LF
            | EmptyToken _ => True
            end) as Hcomment.
    { destruct (String.eqb next_token LF); [apply Hadvance|].
      specialize (IH true t (patch_tokens +:+ next_token)).
      destruct (scan cfg true true t toks (patch_tokens +:+ next_token));
        try done.
      - destruct IH as (Hp & skipped & Hs & ->). split; [done|].
        exists (next_token :: skipped). simpl. rewrite Hs.
        by rewrite append_assoc.
      - rewrite IH. change (cat (next_token :: t :: toks))
          with (next_token +:+ cat (t :: toks)). by rewrite append_assoc. }
    simpl. destruct in_comment; [exact Hcomment|].
    destruct (first_in next_token (comment_tokens cfg +:+ whitespace))
      as [[]|] eqn:E1; [| |done].
    + destruct (first_in next_token (comment_tokens cfg)) as [[]|];
        [exact Hcomment|apply Hadvance|apply Hadvance].
    + split; [done|]. exists []. by rewrite append_nil_r.
Qed.

(** The search when nothing is patched: it stops at the first plain token,
    writes nothing and cannot end inside a comment. *)
Lemma scan_reading (cfg : config) (toks : list string) :
  forall next_token patch_tokens : string,
    match scan cfg false false next_token toks patch_tokens with
    | Scanned t rest patch_tokens' =>
        plain cfg t /\ patch_tokens' = patch_tokens
        /\ exists skipped : list string,
             next_token :: toks = skipped ++ t :: rest
             /\ Forall (fun s => ~ plain cfg s) skipped
    | Exhausted _ patch_tokens' =>
        patch_tokens' = patch_tokens
        /\ Forall (fun s => ~ plain cfg s) (next_token :: toks)
    | ExhaustedInComment => False
    | EmptyToken _ => True
    end.
Proof.
  induction toks as [|t toks IH]; intros next_token patch_tokens; simpl;
    destruct (first_in next_token (comment_tokens cfg +:+ whitespace))
      as [[]|] eqn:E1; try done.
  - split; [done|]. constructor; [|done]. unfold plain. by rewrite E1.
  - repeat split; try done. by exists [].
  - specialize (IH t patch_tokens).
    assert (~ plain cfg next_token) as Hn by (unfold plain; by rewrite E1).
    destruct (scan cfg false false t toks patch_tokens); try done.
    + destruct IH as (Hp & -> & skipped & Hs & Hall). repeat split; try done.
      exists (next_token :: skipped). simpl. rewrite Hs.
      split; [done|by constructor].
    + destruct IH as [-> Hall]. split; [done|by constructor].
  - repeat split; try done. by exists [].
Qed.

(** [update_tokens] leaves the cursor on a token that starts neither white
    space nor a comment; the token it was on becomes the prior token; the
    tokens it went over come before the new token in the stream.  When
    nothing is patched, none of the tokens it went over is plain and
    nothing is patched afterwards. *)
Theorem update_tokens_stops_at_plain (cfg : config) (write_token : bool)
    (override : option string) (patch_skip : bool) (st st' : parser) :
  update_tokens cfg write_token override patch_skip st = (Ok tt, st') ->
  exists (t : string) (skipped : list string),
    token st' = Some t /\ plain cfg t /\ prior_token st' = token st
    /\ tokens st = skipped ++ t :: tokens st'
    /\ (pfile st = None ->
        pfile st' = None /\ Forall (fun s => ~ plain cfg s) skipped).
Proof.
  unfold update_tokens. intros H.
  destruct (tokens st) as [|next_token toks]; [done|].
  destruct (if bool_decide (is_Some (pfile st)) && write_token
            then override_or override (token st) else Some "")
    as [patch_value|]; [|done].
  destruct (pfile st) as [out|] eqn:Hpf.
  - replace (bool_decide (is_Some (Some out))) with true in H by done.
    pose proof (scan_patching cfg toks false next_token "") as Hscan.
    destruct (scan cfg true false next_token toks "") as [t rest pt| | |];
      try done.
    destruct Hscan as (Hp & skipped & Hs & _). injection H as <-.
    exists t, skipped. by repeat split.
  - replace (bool_decide (is_Some None)) with false in H
      by (symmetry; apply bool_decide_eq_false; by intros [? ?]).
    pose proof (scan_reading cfg toks next_token "") as Hscan.
    destruct (scan cfg false false next_token toks "") as [t rest pt| | |];
      try done.
    destruct Hscan as (Hp & _ & skipped & Hs & Hall). injection H as <-.
    exists t, skipped. by repeat split.
Qed.

Lemma update_tokens_stops_at_plain_witness :
  exists (t : string) (skipped : list string),
    Some "x" = Some t /\ plain init_config t /\ Some "&" = Some "&"
    /\ [" "; "! a group"; LF; "x"; "="] = skipped ++ t :: ["="]
    /\ (None = @None string ->
        None = @None string
        /\ Forall (fun s => ~ plain init_config s) skipped).
Proof.
  apply (update_tokens_stops_at_plain init_config true None false
           {| tokens := [" "; "! a group"; LF; "x"; "="]; token := Some "&";
              prior_token := None; pfile := None |}
           {| tokens := ["="]; token := Some "x"; prior_token := Some "&";
              pfile := None |}).
  reflexivity.
Defined.

(** While patching, a plain call of [update_tokens] writes the token it
    leaves and the text of all it goes over, comments included.  At the end
    of the tokens it writes them before it raises, if the last token is an
    end of line. *)
Theorem update_tokens_passes_on (cfg : config) (st st' : parser)
    (r : result unit) (out tok : string) :
  pfile st = Some out -> token st = Some tok ->
  update_tokens cfg true None false st = (r, st') ->
  match r with
  | Ok _ =>
      exists (t : string) (skipped : list string),
        tokens st = skipped ++ t :: tokens st' /\ token st' = Some t
        /\ pfile st' = Some (out +:+ tok +:+ cat skipped)
  | Raise StopIteration =>
      tokens st' = []
      /\ (last (tokens st) = Some LF ->
          pfile st' = Some (out +:+ tok +:+ cat (tokens st)))
  | Raise _ => True
  end.
Proof.
  unfold update_tokens. intros Hpf Htok H. rewrite Hpf, Htok in H.
  destruct (tokens st) as [|next_token toks] eqn:Htoks.
  { injection H as <- <-. by rewrite Htoks. }
  replace (bool_decide (is_Some (Some out))) with true in H by done.
  cbn [andb override_or negb orb fmap option_fmap option_map] in H.
  pose proof (scan_patching cfg toks false next_token "") as Hscan.
  destruct (scan cfg true false next_token toks "") as [t rest pt|nt pt| |].
  - destruct Hscan as (Hp & skipped & Hs & ->). injection H as <- <-.
    exists t, skipped. by repeat split.
  - injection H as <- <-. split; [done|]. intros _. by rewrite Hscan.
  - injection H as <- <-. split; done.
  - by injection H as <- <-.
Qed.

Lemma update_tokens_passes_on_witness :
  exists (t : string) (skipped : list string),
    [" "; "! a group"; LF; "x"; "="] = skipped ++ t :: ["="]
    /\ Some "x" = Some t
    /\ Some ("&" +:+ " ! a group" +:+ LF)
       = Some ("" +:+ "&" +:+ cat skipped).
Proof.
  apply (update_tokens_passes_on init_config
           {| tokens := [" "; "! a group"; LF; "x"; "="]; token := Some "&";
              prior_token := None; pfile := Some "" |}
           {| tokens := ["="]; token := Some "x"; prior_token := Some "&";
              pfile := Some ("&" +:+ " ! a group" +:+ LF) |}
           (Ok tt) "" "&"); reflexivity.
Defined.

End TokenProps.

(** ** Patching nothing writes the file as it is *)

Module PassProps.
Import IndexProps PatchProps TokenProps.

(** *** Rules for triples *)

Lemma triple_ret {A : Type} (P : parser -> Prop) (a : A)
    (Q : A -> parser -> Prop) (X : exn -> parser -> Prop) :
  (forall st, P st -> Q a st) -> triple P (mret a) Q X.
Proof. intros H st st' r HP [= <- <-]. by apply H. Qed.

Lemma triple_bind {A B : Type} (P : parser -> Prop) (m : M A) (f : A -> M B)
    (Q1 : A -> parser -> Prop) (Q : B -> parser -> Prop)
    (X : exn -> parser -> Prop) :
  triple P m Q1 X -> (forall a, triple (Q1 a) (f a) Q X) ->
  triple P (m ≫= f) Q X.
Proof.
  intros Hm Hf st st' r HP H. unfold mbind, M_bind in H.
  destruct (m st) as [[a|e] st1] eqn:E; specialize (Hm _ _ _ HP E).
  - by apply (Hf a st1).
  - by injection H as <- <-.
Qed.

Lemma triple_raise {A : Type} (P : parser -> Prop) (e : exn)
    (Q : A -> parser -> Prop) (X : exn -> parser -> Prop) :
  (forall st, P st -> X e st) -> triple P (raise e) Q X.
Proof. intros H st st' r HP [= <- <-]. by apply H. Qed.

Lemma triple_get_token (P : parser -> Prop)
    (Q : option string -> parser -> Prop) (X : exn -> parser -> Prop) :
  (forall st, P st -> Q (token st) st) -> triple P get_token Q X.
Proof. intros H st st' r HP [= <- <-]. by apply H. Qed.

Lemma triple_get_prior_token (P : parser -> Prop)
    (Q : option string -> parser -> Prop) (X : exn -> parser -> Prop) :
  (forall st, P st -> Q (prior_token st) st) -> triple P get_prior_token Q X.
Proof. intros H st st' r HP [= <- <-]. by apply H. Qed.

Lemma triple_lift {A : Type} (P : parser -> Prop) (r : result A)
    (Q : A -> parser -> Prop) (X : exn -> parser -> Prop) :
  (forall st, P st -> match r with Ok a => Q a st | Raise e => X e st end) ->
  triple P (lift r) Q X.
Proof. intros H st st' r' HP [= <- <-]. by apply H. Qed.

Lemma triple_weaken {A : Type} (P P' : parser -> Prop) (m : M A)
    (Q Q' : A -> parser -> Prop) (X X' : exn -> parser -> Prop) :
  triple P' m Q' X' ->
  (forall st, P st -> P' st) -> (forall a st, Q' a st -> Q a st) ->
  (forall e st, X' e st -> X e st) ->
  triple P m Q X.
Proof.
  intros Hm HP HQ HX st st' r Hst H. specialize (Hm _ _ _ (HP _ Hst) H).
  destruct r; [by apply HQ|by apply HX].
Qed.

Lemma triple_try_ValueError {A : Type} (P : parser -> Prop) (body : M A)
    (handler : string -> M A) (H : string -> parser -> Prop)
    (Q : A -> parser -> Prop) (X : exn -> parser -> Prop) :
  triple P body Q
    (fun e st => match e with ValueError msg => H msg st | _ => X e st end) ->
  (forall msg, triple (H msg) (handler msg) Q X) ->
  triple P (try_ValueError body handler) Q X.
Proof.
  intros Hb Hh st st' r HP Hr. unfold try_ValueError in Hr.
  destruct (body st) as [[a|e] st1] eqn:E; specialize (Hb _ _ _ HP E).
  - by injection Hr as <- <-.
  - destruct e; try by injection Hr as <- <-.
    by apply (Hh msg st1).
Qed.

Lemma triple_try_StopIteration {A : Type} (P : parser -> Prop) (body : M A)
    (Q : option A -> parser -> Prop) (X : exn -> parser -> Prop) :
  triple P body (fun a => Q (Some a))
    (fun e st => match e with StopIteration => Q None st | _ => X e st end) ->
  triple P (try_StopIteration body) Q X.
Proof.
  intros Hb st st' r HP Hr. unfold try_StopIteration in Hr.
  destruct (body st) as [[a|e] st1] eqn:E; specialize (Hb _ _ _ HP E).
  - by injection Hr as <- <-.
  - destruct e; by injection Hr as <- <-.
Qed.

Lemma triple_with_fuel {A : Type} (P : parser -> Prop) (loop : nat -> M A)
    (Q : A -> parser -> Prop) (X : exn -> parser -> Prop) :
  (forall fuel, triple P (loop fuel) Q X) -> triple P (with_fuel loop) Q X.
Proof. intros H st st' r HP Hr. by apply (H (S (length (tokens st))) st). Qed.

Lemma carried_weaken (I E : parser -> Prop) (e : exn) (st : parser) :
  carried I E e st -> carried I (fun _ => True) e st.
Proof. destruct e; simpl; tauto. Qed.

(** *** The invariant of a plain call of [update_tokens] *)

Section Invariant.
Variable f90lex : list string.
Hypothesis Hlines : ends_lines f90lex.
Variable cfg : config.

Let I : parser -> Prop := passed_on f90lex.

Lemma passed_on_update_tokens (write_token : bool) :
  triple (fun st => I st /\ (write_token = false -> current_text st = ""))
    (update_tokens cfg write_token None false)
    (fun _ => I) (carried I exhausted).
Proof.
  intros st st' r [(consumed & out & Hlex & Hpf & Hout) Hw] H.
  unfold update_tokens in H. rewrite Hpf in H.
  destruct (tokens st) as [|next_token toks] eqn:Htoks.
  { injection H as <- <-. split; [|done].
    exists consumed, out. by rewrite Htoks. }
  replace (bool_decide (is_Some (Some out))) with true in H by done.
  destruct (if true && write_token then override_or None (token st)
            else Some "") as [patch_value|] eqn:Hpv;
    [|by injection H as <- <-].
  assert (patch_value = current_text st) as ->.
  { destruct write_token; simpl in Hpv.
    - unfold current_text. by rewrite Hpv.
    - injection Hpv as <-. by rewrite Hw. }
  cbn [negb orb fmap option_fmap option_map] in H.
  assert (last (next_token :: toks) = Some LF) as Hlast'.
  { destruct Hlines as [Hnil|Hlast].
    - rewrite Hnil in Hlex. by destruct consumed.
    - rewrite <- Hlast, Hlex. by rewrite last_app_cons. }
  pose proof (scan_patching cfg toks false next_token "") as Hscan.
  destruct (scan cfg true false next_token toks "") as [t rest pt|nt pt| |].
  - destruct Hscan as (Hp & skipped & Hs & ->). injection H as <- <-.
    exists (consumed ++ skipped ++ [t]), (out +:+ current_text st +:+ cat skipped).
    cbn [tokens pfile token]. split; [|split; [done|]].
    + rewrite Hlex, Hs, <- !app_assoc. done.
    + destruct rest as [|t' rest].
      * exfalso. rewrite Hs, last_app in Hlast'. simpl in Hlast'.
        injection Hlast' as ->. by apply (LF_not_plain cfg).
      * unfold current_text at 2. cbn [token default].
        rewrite !cat_app, <- Hout. simpl.
        rewrite append_nil_r, !append_assoc. done.
  - injection H as <- <-. split; [|done].
    exists f90lex, (out +:+ current_text st +:+ pt). cbn [tokens pfile].
    split; [by rewrite app_nil_r|]. split; [done|].
    rewrite Hscan, Hlex, cat_app, <- Hout. simpl.
    by rewrite !append_assoc.
  - done.
  - by injection H as <- <-.
Qed.

Let X0 : exn -> parser -> Prop := carried I (fun _ => True).
Let X1 : exn -> parser -> Prop := carried I exhausted.

Lemma inv_next_tokens_end : triple I (next_tokens cfg) (fun _ => I) X1.
Proof.
  eapply triple_weaken; [apply (passed_on_update_tokens true)| | |]; try done.
Qed.

Lemma inv_next_tokens : triple I (next_tokens cfg) (fun _ => I) X0.
Proof.
  eapply triple_weaken; [apply inv_next_tokens_end| | |]; try done.
  apply carried_weaken.
Qed.

Lemma inv_try_ValueError {A : Type} (body : M A) (handler : string -> M A)
    (Q : A -> parser -> Prop) :
  triple I body Q X0 -> (forall msg, triple I (handler msg) Q X0) ->
  triple I (try_ValueError body handler) Q X0.
Proof.
  intros Hb Hh. apply (triple_try_ValueError _ _ _ (fun _ => I)); [|done].
  eapply triple_weaken; [exact Hb| | |]; try done. by intros [].
Qed.

Ltac inv_step :=
  lazymatch goal with
  | |- triple _ (mbind _ _) _ _ =>
      eapply (triple_bind _ _ _ (fun _ => I)); [|intros ?]
  | |- triple _ (mret _) _ _ => apply triple_ret; try done
  | |- triple _ (raise _) _ _ => by apply triple_raise
  | |- triple _ get_token _ _ => by apply triple_get_token
  | |- triple _ get_prior_token _ _ => by apply triple_get_prior_token
  | |- triple _ (lift ?r) _ _ =>
      apply triple_lift; intros ? ?; by destruct r as [|[]]
  | |- triple _ (next_tokens _) _ _ => apply inv_next_tokens
  | |- triple _ (update_tokens _ true None false) _ _ => apply inv_next_tokens
  | |- triple _ (try_ValueError _ _) _ _ =>
      apply inv_try_ValueError; [|intros ?]
  | |- triple _ (with_fuel _) _ _ => apply triple_with_fuel; intros ?
  | |- triple _ (int_of_token ?tok) _ _ => unfold int_of_token
  | |- triple _ (assert_int ?v) _ _ => unfold assert_int
  | |- triple _ (if ?b then _ else _) _ _ => destruct b
  | |- triple _ (match ?x with _ => _ end) _ _ => destruct x
  end.

Lemma inv_parse_index (v_name : string) :
  triple I (parse_index cfg v_name) (fun _ => I) X0.
Proof. unfold parse_index. repeat inv_step. Qed.

Lemma inv_parse_indices_loop (fuel : nat) (v_name : string) :
  forall v_indices : list triplet,
    triple I (parse_indices_loop fuel cfg v_name v_indices) (fun _ => I) X0.
Proof.
  induction fuel as [|fuel IH]; intros v_indices; cbn [parse_indices_loop];
    repeat first [apply IH | apply inv_parse_index | inv_step].
Qed.

Lemma inv_parse_indices : triple I (parse_indices cfg) (fun _ => I) X0.
Proof.
  unfold parse_indices. repeat first [apply inv_parse_indices_loop | inv_step].
Qed.

Variable fpy : bool -> string -> option value.
Variable FIndex_init : list triplet -> option Z -> FIndex.
Variable f90repr : value -> string.
Variable var_strings : string -> value -> list string.

Lemma inv_parse_value :
  triple I (parse_value fpy cfg true None) (fun _ => I) X0.
Proof. unfold parse_value. repeat inv_step. Qed.

Lemma inv_value_loop (fuel : nat) (patch_values : option (list value)) :
  truthy_list patch_values = None ->
  forall (v_values : list value) (v_idx : option FIndex) (n_vals : option Z)
         (p_idx : nat),
    triple I (value_loop fpy f90repr cfg fuel patch_values v_values v_idx
                n_vals p_idx) (fun _ => I) X0.
Proof.
  intros Hpatch. induction fuel as [|fuel IH]; intros v_values v_idx n_vals p_idx;
    cbn [value_loop]; rewrite ?Hpatch;
    repeat first [apply IH | apply inv_parse_value | inv_step].
Qed.

(** Without an entry in the patch, [parse_variable] passes on what it reads
    and leaves the patch empty. *)
Lemma inv_parse_variable (parent : Namelist) :
  triple I (parse_variable fpy FIndex_init f90repr cfg parent [])
    (fun r st => I st /\ r.2 = []) X0.
Proof.
  unfold parse_variable, assign_values. cbn [dict_get].
  eapply (triple_bind _ _ _ (fun _ => I)); [by apply triple_get_prior_token|].
  intros [v_name|]; [|by apply triple_raise].
  eapply (triple_bind _ _ _ (fun _ => I)); [by apply triple_get_token|].
  intros tok.
  eapply (triple_bind _ _ _ (fun _ => I)).
  { repeat first [apply inv_parse_indices | inv_step]. }
  intros [v_idx parent'].
  eapply (triple_bind _ _ _ (fun _ => I)); [by apply triple_get_token|].
  intros tok'.
  destruct (token_is tok' "%"); [by apply triple_raise|].
  destruct (negb (token_is tok' "=")); [by apply triple_raise|].
  eapply (triple_bind _ _ _ (fun _ => I)); [apply inv_next_tokens|].
  intros _.
  eapply (triple_bind _ _ _ (fun _ => I)).
  { apply triple_with_fuel. intros fuel. by apply inv_value_loop. }
  intros [v_values v_idx']. by apply triple_ret.
Qed.

Lemma inv_group_loop (fuel : nat) (g_name : string) :
  forall (g_vars : Namelist) (nmls : list (string * value)),
    triple I (group_loop fpy FIndex_init f90repr var_strings cfg fuel g_name
                g_vars [] nmls)
      (fun r st => I st /\ r.2 = []) X0.
Proof.
  induction fuel as [|fuel IH]; intros g_vars nmls; cbn [group_loop];
    [by apply triple_raise|].
  eapply (triple_bind _ _ _ (fun _ => I)); [by apply triple_get_token|].
  intros tok.
  eapply (triple_bind _ _ _ (fun _ => I)); [repeat inv_step|]. intros _.
  eapply (triple_bind _ _ _ (fun _ => I)); [by apply triple_get_token|].
  intros tok'.
  eapply (triple_bind _ _ _ (fun r st => I st /\ r.2 = [])).
  { destruct (token_in tok' ["="; "("; "%"]); [|by apply triple_ret].
    eapply triple_bind; [apply inv_parse_variable|].
    intros [[[v_name v_values] g_vars'] grp_patch]. apply triple_ret.
    by intros st [HI Hp]. }
  intros [g_vars' grp_patch].
  eapply triple_weaken with (P' := fun st => I st /\ grp_patch = [])
                            (Q' := fun r st => I st /\ r.2 = []) (X' := X0);
    [|done|done|done].
  intros st st' r [HI ->]. revert st st' r HI.
  change (triple I (tok ← get_token;
                    if token_in tok ["/"; "&"; "$"]
                    then g_vars0 ← append_patched var_strings [] g_vars';
                         mret (dict_set (lower g_name)
                                 match dict_get (lower g_name) nmls with
                                 | Some g_update =>
                                     VList (Merge.as_list g_update
                                            ++ [VDict (items g_vars0)])
                                 | None => VDict (items g_vars0)
                                 end nmls, [])
                    else group_loop fpy FIndex_init f90repr var_strings cfg
                           fuel g_name g_vars' [] nmls)
            (fun r st => I st /\ r.2 = []) X0).
  eapply (triple_bind _ _ _ (fun _ => I)); [by apply triple_get_token|].
  intros tok''. destruct (token_in tok'' ["/"; "&"; "$"]); [|apply IH].
  cbn [append_patched].
  eapply (triple_bind _ _ _ (fun _ => I)); [by apply triple_ret|].
  intros g_vars0. by apply triple_ret.
Qed.

Lemma inv_skip_to_group (fuel : nat) :
  triple I (skip_to_group cfg fuel) (fun _ => I) X1.
Proof.
  induction fuel as [|fuel IH]; cbn [skip_to_group].
  - eapply (triple_bind _ _ _ (fun _ => I)); [by apply triple_get_token|].
    intros tok. destruct (token_in tok ["&"; "$"]);
      [by apply triple_ret|by apply triple_raise].
  - eapply (triple_bind _ _ _ (fun _ => I)); [by apply triple_get_token|].
    intros tok. destruct (token_in tok ["&"; "$"]); [by apply triple_ret|].
    eapply (triple_bind _ _ _ (fun _ => I)); [apply inv_next_tokens_end|].
    intros _. apply IH.
Qed.

Lemma patch_get_no_values (k : string) (nml_patch : patch_tree) :
  no_values nml_patch -> default [] (patch_get k nml_patch) = [].
Proof.
  induction 1 as [|[k' v] p Hv _ IH]; [done|]. simpl in *.
  by destruct (String.eqb k k').
Qed.

Lemma patch_set_no_values (k : string) (nml_patch : patch_tree) :
  no_values nml_patch -> no_values (patch_set k [] nml_patch).
Proof.
  induction 1 as [|[k' v] p Hv Hp IH]; [constructor|]. simpl in *.
  destruct (String.eqb k k'); by constructor.
Qed.

Lemma inv_readstream_loop (fuel : nat) :
  forall (nmls : list (string * value)) (nml_patch : patch_tree),
    no_values nml_patch ->
    triple I (readstream_loop fpy FIndex_init f90repr var_strings cfg fuel nmls
                nml_patch)
      (fun _ st => I st /\ exhausted st) X0.
Proof.
  induction fuel as [|fuel IH]; intros nmls nml_patch Hpatch;
    cbn [readstream_loop]; [by apply triple_raise|].
  eapply (triple_bind _ _ _
            (fun found st => I st /\ (found = None -> exhausted st))).
  { apply triple_try_StopIteration.
    eapply triple_weaken with (P' := I) (Q' := fun _ => I) (X' := X1);
      [|done|done|].
    - eapply (triple_bind _ _ _ (fun _ => I)); [by apply triple_get_token|].
      intros tok. eapply (triple_bind _ _ _ (fun _ => I)).
      + destruct (token_is tok "end");
          [apply inv_next_tokens_end|by apply triple_ret].
      + intros _. apply triple_with_fuel. apply inv_skip_to_group.
    - intros [] st H; try exact H. destruct H. by split. }
  intros [u|]; [|apply triple_ret; intros st [HI He]; split; [done|by apply He]].
  eapply triple_weaken with (P' := I) (Q' := fun _ st => I st /\ exhausted st)
                            (X' := X0); [|by intros st [? _]|done|done].
  eapply (triple_bind _ _ _ (fun _ => I)); [apply inv_next_tokens|]. intros _.
  eapply (triple_bind _ _ _ (fun _ => I)); [by apply triple_get_token|].
  intros tok. rewrite (patch_get_no_values _ _ Hpatch).
  eapply (triple_bind _ _ _ (fun r st => I st /\ r.2 = [])).
  { destruct (bool_decide (format_token tok = "")); [by apply triple_ret|].
    apply triple_with_fuel. intros fuel'. apply inv_group_loop. }
  intros [nmls' grp_patch].
  eapply triple_weaken with (P' := fun st => I st /\ grp_patch = [])
                            (Q' := fun _ st => I st /\ exhausted st) (X' := X0);
    [|done|done|done].
  intros st st' r [HI ->]. revert st st' r HI.
  change (triple I
            (more ← try_StopIteration (next_tokens cfg);
             match more with
             | None => mret nmls'
             | Some _ =>
                 readstream_loop fpy FIndex_init f90repr var_strings cfg fuel
                   nmls' (patch_set (lower (format_token tok)) [] nml_patch)
             end) (fun _ st => I st /\ exhausted st) X0).
  eapply (triple_bind _ _ _
            (fun more st => I st /\ (more = None -> exhausted st))).
  { apply triple_try_StopIteration.
    eapply triple_weaken with (P' := I) (Q' := fun _ => I) (X' := X1);
      [apply inv_next_tokens_end|done|done|].
    intros [] st H; try exact H. destruct H. by split. }
  intros [u'|]; [|apply triple_ret; intros st [HI He]; split; [done|by apply He]].
  eapply triple_weaken with (P' := I) (Q' := fun _ st => I st /\ exhausted st)
                            (X' := X0); [|by intros st [? _]|done|done].
  apply IH. by apply patch_set_no_values.
Qed.

End Invariant.

(** When [readstream] returns from patching with a patch that has no value
    for any variable, the patch file holds the text of all the tokens of the
    file, white space and comments included, and nothing else. *)
Lemma readstream_copies (fpy : bool -> string -> option value)
    (FIndex_init : list triplet -> option Z -> FIndex)
    (f90repr : value -> string)
    (var_strings : string -> value -> list string) (cfg : config)
    (f90lex : list string) (nml_patch : patch_tree)
    (nmls : list (string * value)) (st' : parser) :
  ends_lines f90lex -> no_values nml_patch ->
  readstream fpy FIndex_init f90repr var_strings cfg f90lex nml_patch true
  = (Ok nmls, st') ->
  pfile st' = Some (cat f90lex) /\ tokens st' = [].
Proof.
  intros Hlines Hpatch H. unfold readstream in H.
  set (st0 := {| tokens := f90lex; token := None; prior_token := None;
                 pfile := Some "" |}) in H.
  assert (passed_on f90lex st0) as H0.
  { exists [], "". repeat split. simpl. by destruct f90lex. }
  assert (forall st : parser,
            passed_on f90lex st -> exhausted st ->
            pfile st = Some (cat f90lex) /\ tokens st = []) as Hend.
  { intros st (consumed & out & _ & Hpf & Hout) He. unfold exhausted in He.
    rewrite He in Hout. by rewrite Hpf, Hout. }
  assert (triple (fun st => st = st0)
            (try_StopIteration (update_tokens cfg false None false))
            (fun found st => passed_on f90lex st
                             /\ (found = None -> exhausted st))
            (carried (passed_on f90lex) (fun _ => True))) as Hfirst.
  { apply triple_try_StopIteration.
    eapply triple_weaken;
      [apply (passed_on_update_tokens f90lex Hlines cfg false)| | |].
    - intros st Hst. by rewrite Hst.
    - intros a st Hst. by split.
    - intros [] st Hst; try exact Hst. destruct Hst. by split. }
  specialize (Hfirst st0). 
  destruct (try_StopIteration (update_tokens cfg false None false) st0)
    as [[[u|]|e] st1] eqn:E1; [| |done];
    destruct (Hfirst st1 _ eq_refl eq_refl) as [H1 He].
  - pose proof (inv_readstream_loop f90lex Hlines cfg fpy FIndex_init f90repr
                  var_strings (S (length f90lex)) [] nml_patch Hpatch
                  st1 st' (Ok nmls) H1 H) as [HI He'].
    by apply Hend.
  - injection H as <- <-. apply Hend; [done|by apply He].
Qed.

End PassProps.

(** ** Reading a file that assigns literal values *)

Module ReadProps.
Import IndexProps PatchProps TokenProps PassProps.

Section Reading.
Variable cfg : config.

Lemma strip_cons_plain (t : string) (toks : list string) :
  plain cfg t -> strip cfg (t :: toks) = t :: strip cfg toks.
Proof. intros H. unfold strip. by rewrite filter_cons_True. Qed.

Lemma strip_cons_blank (t : string) (toks : list string) :
  ~ plain cfg t -> strip cfg (t :: toks) = strip cfg toks.
Proof. intros H. unfold strip. by rewrite filter_cons_False. Qed.

Lemma reads_as_plain (toks plains : list string) :
  reads_as cfg toks plains -> Forall (plain cfg) plains.
Proof.
  intros [_ <-]. apply Forall_forall. intros t Ht.
  by apply list_elem_of_filter in Ht as [? _].
Qed.

Lemma first_in_blank (t : string) :
  t <> "" -> ~ plain cfg t ->
  first_in t (comment_tokens cfg +:+ whitespace) = Some true.
Proof.
  intros Hne Hp. unfold plain in Hp. destruct t as [|c t]; [done|].
  simpl in *. by destruct (char_in c _).
Qed.

(** The search of [update_tokens] finds the next plain token. *)
Lemma scan_reads (toks : list string) :
  forall (next_token t patch_tokens : string) (plains : list string),
    reads_as cfg (next_token :: toks) (t :: plains) ->
    exists rest : list string,
      scan cfg false false next_token toks patch_tokens
      = Scanned t rest patch_tokens
      /\ reads_as cfg rest plains.
Proof.
  induction toks as [|t' toks IH]; intros next_token t patch_tokens plains
    [Hne Hs]; apply Forall_cons in Hne as [Hn Hne];
    destruct (decide (plain cfg next_token)) as [Hp|Hp].
  - rewrite strip_cons_plain in Hs by done. injection Hs as -> <-.
    exists []. by rewrite scan_plain.
  - by rewrite strip_cons_blank in Hs.
  - rewrite strip_cons_plain in Hs by done. injection Hs as -> <-.
    exists (t' :: toks). by rewrite scan_plain.
  - rewrite strip_cons_blank in Hs by done.
    destruct (IH t' t patch_tokens plains (conj Hne Hs)) as (rest & Hscan & Hr).
    exists rest. split; [|done]. simpl.
    by rewrite (first_in_blank _ Hn Hp).
Qed.

(** At the end of the plain tokens the search runs out of tokens. *)
Lemma scan_reads_end (toks : list string) :
  forall next_token patch_tokens : string,
    reads_as cfg (next_token :: toks) [] ->
    exists t : string,
      scan cfg false false next_token toks patch_tokens
      = Exhausted t patch_tokens.
Proof.
  induction toks as [|t' toks IH]; intros next_token patch_tokens [Hne Hs];
    apply Forall_cons in Hne as [Hn Hne];
    (destruct (decide (plain cfg next_token)) as [Hp|Hp];
     [by rewrite strip_cons_plain in Hs|]);
    rewrite strip_cons_blank in Hs by done; simpl;
    rewrite (first_in_blank _ Hn Hp).
  - by eexists.
  - apply IH. by split.
Qed.

Lemma update_tokens_reading (write_token : bool) (override : option string)
    (patch_skip : bool) (prior tok : option string) (t : string)
    (plains : list string) (st : parser) :
  reading cfg prior tok (t :: plains) st ->
  exists st' : parser,
    update_tokens cfg write_token override patch_skip st = (Ok tt, st')
    /\ reading cfg tok (Some t) plains st'.
Proof.
  intros (Hprior & Htok & Hpf & Hreads). unfold update_tokens. rewrite Hpf.
  destruct (tokens st) as [|next_token toks] eqn:Htoks.
  { destruct Hreads as [_ Hs]. done. }
  replace (bool_decide (is_Some None)) with false
    by (symmetry; apply bool_decide_eq_false; by intros [? ?]).
  cbn [andb].
  destruct (scan_reads toks next_token t "" plains Hreads) as (rest & -> & Hr).
  eexists. split; [done|]. unfold reading. cbn [prior_token token pfile tokens].
  done.
Qed.

Lemma update_tokens_reading_end (write_token : bool) (override : option string)
    (patch_skip : bool) (prior tok : option string) (st : parser) :
  reading cfg prior tok [] st ->
  exists st' : parser,
    update_tokens cfg write_token override patch_skip st
    = (Raise StopIteration, st')
    /\ reading cfg prior tok [] st'.
Proof.
  intros (Hprior & Htok & Hpf & Hreads). unfold update_tokens. rewrite Hpf.
  destruct (tokens st) as [|next_token toks] eqn:Htoks.
  { exists st. split; [done|]. unfold reading. by rewrite Htoks. }
  replace (bool_decide (is_Some None)) with false
    by (symmetry; apply bool_decide_eq_false; by intros [? ?]).
  cbn [andb].
  destruct (scan_reads_end toks next_token "" Hreads) as (t & ->).
  eexists. split; [done|]. unfold reading. cbn [prior_token token pfile tokens].
  by repeat split.
Qed.

(** *** Running the reader forward *)

Lemma run_bind_assoc {A B C : Type} (P : parser -> Prop) (m : M A)
    (g : A -> M B) (f : B -> M C) (Q : C -> parser -> Prop)
    (X : exn -> parser -> Prop) :
  triple P (m ≫= fun a => g a ≫= f) Q X -> triple P ((m ≫= g) ≫= f) Q X.
Proof.
  intros H st st' r HP Hr. apply (H st st' r HP). rewrite <- Hr.
  unfold mbind, M_bind. by destruct (m st) as [[a|e] st1].
Qed.

Lemma run_ret {A B : Type} (P : parser -> Prop) (a : A) (f : A -> M B)
    (Q : B -> parser -> Prop) (X : exn -> parser -> Prop) :
  triple P (f a) Q X -> triple P (mret a ≫= f) Q X.
Proof. intros H st st' r HP Hr. by apply (H st st' r HP). Qed.

Lemma run_lift {A B : Type} (P : parser -> Prop) (a : A) (f : A -> M B)
    (Q : B -> parser -> Prop) (X : exn -> parser -> Prop) :
  triple P (f a) Q X -> triple P (lift (Ok a) ≫= f) Q X.
Proof. intros H st st' r HP Hr. by apply (H st st' r HP). Qed.

Lemma run_get_token {B : Type} (prior tok : option string)
    (plains : list string) (f : option string -> M B)
    (Q : B -> parser -> Prop) (X : exn -> parser -> Prop) :
  triple (reading cfg prior tok plains) (f tok) Q X ->
  triple (reading cfg prior tok plains) (get_token ≫= f) Q X.
Proof.
  intros H st st' r HP Hr. apply (H st st' r HP). rewrite <- Hr.
  unfold mbind, M_bind, get_token. by destruct HP as (_ & -> & _).
Qed.

Lemma run_get_prior_token {B : Type} (prior tok : option string)
    (plains : list string) (f : option string -> M B)
    (Q : B -> parser -> Prop) (X : exn -> parser -> Prop) :
  triple (reading cfg prior tok plains) (f prior) Q X ->
  triple (reading cfg prior tok plains) (get_prior_token ≫= f) Q X.
Proof.
  intros H st st' r HP Hr. apply (H st st' r HP). rewrite <- Hr.
  unfold mbind, M_bind, get_prior_token. by destruct HP as (-> & _).
Qed.

Lemma run_update_tokens {B : Type} (write_token : bool)
    (override : option string) (patch_skip : bool) (prior tok : option string)
    (t : string) (plains : list string) (f : unit -> M B)
    (Q : B -> parser -> Prop) (X : exn -> parser -> Prop) :
  triple (reading cfg tok (Some t) plains) (f tt) Q X ->
  triple (reading cfg prior tok (t :: plains))
    (update_tokens cfg write_token override patch_skip ≫= f) Q X.
Proof.
  intros H st st' r HP Hr.
  destruct (update_tokens_reading write_token override patch_skip _ _ _ _ _ HP)
    as (st1 & Hu & H1).
  apply (H st1 st' r H1). rewrite <- Hr. unfold mbind, M_bind. by rewrite Hu.
Qed.

Lemma run_update_tokens_end {B : Type} (write_token : bool)
    (override : option string) (patch_skip : bool) (prior tok : option string)
    (f : unit -> M B) (Q : B -> parser -> Prop) (X : exn -> parser -> Prop) :
  (forall st, reading cfg prior tok [] st -> X StopIteration st) ->
  triple (reading cfg prior tok [])
    (update_tokens cfg write_token override patch_skip ≫= f) Q X.
Proof.
  intros H st st' r HP Hr.
  destruct (update_tokens_reading_end write_token override patch_skip _ _ _ HP)
    as (st1 & Hu & H1).
  unfold mbind, M_bind in Hr. rewrite Hu in Hr. injection Hr as <- <-.
  by apply H.
Qed.

Lemma run_done {A : Type} (P : parser -> Prop) (a : A)
    (Q : A -> parser -> Prop) (X : exn -> parser -> Prop) :
  (forall st, P st -> Q a st) -> triple P (mret a) Q X.
Proof. apply triple_ret. Qed.

End Reading.

Lemma pyint_not_control (t : string) (n : Z) :
  pyint t = Some n -> is_control t = false.
Proof.
  intros H. destruct (is_control t) eqn:E; [|done].
  apply existsb_exists in E as (c & Hc & Heq). apply String.eqb_eq in Heq.
  subst c. simpl in Hc.
  repeat (destruct Hc as [<-|Hc]; [by vm_compute in H|]). done.
Qed.

Lemma pyint_paren (s : string) : pyint ("(" +:+ s) = None.
Proof. done. Qed.

Lemma literal_value_int (fpy : bool -> string -> option value) (cfg : config)
    (r : int_lit) :
  int_lit_ok r -> literal_value fpy cfg (text r) = VInt (number r).
Proof. intros H. unfold literal_value. by rewrite H. Qed.

Lemma append_value_None (cfg : config) (v_values : list value)
    (next_value : value) (n_vals : Z) :
  append_value cfg v_values next_value None n_vals
  = Ok (v_values ++ replicate (Z.to_nat n_vals) next_value, None).
Proof. apply PlaceProps.append_value_loop_None. Qed.

(** *** The loop of [parse_variable] over the items of a statement *)

Lemma run_parse_value {B : Type} (fpy : bool -> string -> option value)
    (cfg : config) (prior tok : option string) (v : string)
    (plains : list string) (f : value -> M B) (Q : B -> parser -> Prop)
    (X : exn -> parser -> Prop) :
  prior = Some v -> is_control v = false ->
  triple (reading cfg prior tok plains) (f (literal_value fpy cfg v)) Q X ->
  triple (reading cfg prior tok plains)
    (parse_value fpy cfg true None ≫= f) Q X.
Proof.
  intros -> Hv H st st' r HP Hr. apply (H st st' r HP). rewrite <- Hr.
  unfold mbind at 1, M_bind at 1.
  rewrite (parse_value_literal fpy cfg st v); [done| |done].
  by destruct HP as (-> & _).
Qed.

Ltac simp_cond :=
  repeat first
    [ match goal with
      | H : is_control ?t = false |- context [token_in (Some ?t) ?l] =>
          rewrite (not_control_in t l H eq_refl)
      | H : is_control ?t = false |- context [token_is (Some ?t) ?c] =>
          rewrite (not_control_is t c H eq_refl)
      end
    | match goal with
      | |- context [token_in (Some ?t) ?l] =>
          let r := eval vm_compute in (token_in (Some t) l) in
          lazymatch r with
          | true => change (token_in (Some t) l) with true
          | false => change (token_in (Some t) l) with false
          end
      | |- context [token_is (Some ?t) ?c] =>
          let r := eval vm_compute in (token_is (Some t) c) in
          lazymatch r with
          | true => change (token_is (Some t) c) with true
          | false => change (token_is (Some t) c) with false
          end
      end
    | match goal with
      | |- context [tokens_in (Some ?p) (Some ?t) ?l] =>
          let r := eval vm_compute in (tokens_in (Some p) (Some t) l) in
          lazymatch r with
          | true => change (tokens_in (Some p) (Some t) l) with true
          | false => change (tokens_in (Some p) (Some t) l) with false
          end
      end
    | rewrite pyint_paren
    | progress cbn [negb orb andb truthy_list format_token default]
    | progress cbn beta iota ].

Ltac run1 :=
  lazymatch goal with
  | |- triple _ ((_ ≫= _) ≫= _) _ _ => apply run_bind_assoc
  | |- triple _ (get_token ≫= _) _ _ => apply run_get_token
  | |- triple _ (get_prior_token ≫= _) _ _ => apply run_get_prior_token
  | |- triple _ (mret _ ≫= _) _ _ => apply run_ret
  | |- triple _ (lift (Ok _) ≫= _) _ _ => apply run_lift
  | |- triple _ (lift (append_value _ _ _ None _) ≫= _) _ _ =>
      rewrite append_value_None
  | |- triple _ (next_tokens _ ≫= _) _ _ =>
      unfold next_tokens at 1; apply run_update_tokens
  | |- triple _ (update_tokens _ _ _ _ ≫= _) _ _ => apply run_update_tokens
  | |- triple (reading _ (Some "(") _ _) (parse_value _ _ true None ≫= _) _ _ =>
      unfold parse_value at 1
  | |- triple _ (parse_value _ _ true None ≫= _) _ _ =>
      eapply run_parse_value; [reflexivity|eassumption|]
  | |- triple _ (assert_int (VInt _) ≫= _) _ _ =>
      unfold assert_int at 1; apply run_ret
  | |- triple _ (assert_int (literal_value _ _ (text ?r)) ≫= _) _ _ =>
      rewrite (literal_value_int _ _ r) by assumption
  end.

Ltac run := repeat first [run1 | progress simp_cond].

Section Items.
Variable fpy : bool -> string -> option value.
Variable f90repr : value -> string.
Variable cfg : config.

(** An item that a comma follows: its values are appended, and the loop
    goes on at the token after the comma. *)
Lemma run_item_comma (i : item) (fuel : nat) (v_values : list value)
    (n_vals : option Z) (p_idx : nat) (prior first t' : string)
    (rest plains : list string) (Q : list value * option FIndex -> parser -> Prop)
    (X : exn -> parser -> Prop) :
  item_ok i -> prior = "=" \/ prior = "," ->
  n_vals = None \/ n_vals = Some 1 ->
  item_tokens i ++ "," :: t' :: plains = first :: rest ->
  triple (reading cfg (Some ",") (Some t') plains)
    (value_loop fpy f90repr cfg fuel None
       (v_values ++ item_values fpy cfg i) None (Some 1) p_idx) Q X ->
  triple (reading cfg (Some prior) (Some first) rest)
    (value_loop fpy f90repr cfg (item_turns i + fuel) None v_values None
       n_vals p_idx)
    Q X.
Proof.
  intros Hok Hprior Hn Htoks H.
  destruct i as [v|r v| |re im]; simpl in Htoks; injection Htoks as <- <-;
    simpl in Hok; cbn [item_turns Nat.add value_loop].
  - destruct Hprior as [-> | ->], Hn as [-> | ->]; run; exact H.
  - destruct Hok as [Hr Hv]. pose proof (pyint_not_control _ _ Hr) as Hr'.
    destruct Hprior as [-> | ->], Hn as [-> | ->]; run; exact H.
  - destruct Hprior as [-> | ->], Hn as [-> | ->]; run; exact H.
  - destruct Hprior as [-> | ->], Hn as [-> | ->]; run; exact H.
Qed.

(** The last item, before the token that ends the group: its values are
    appended and the loop ends. *)
Lemma run_item_term (i : item) (fuel : nat) (v_values : list value)
    (n_vals : option Z) (p_idx : nat) (prior first term : string)
    (rest plains : list string) (X : exn -> parser -> Prop) :
  item_ok i -> is_null i = false -> prior = "=" \/ prior = "," ->
  n_vals = None \/ n_vals = Some 1 ->
  term ∈ ["/"; "&"; "$"] ->
  item_tokens i ++ term :: plains = first :: rest ->
  triple (reading cfg (Some prior) (Some first) rest)
    (value_loop fpy f90repr cfg (2 + fuel) None v_values None n_vals p_idx)
    (fun r st =>
       r = (v_values ++ item_values fpy cfg i, None)
       /\ reading cfg (Some (item_last_token i)) (Some term) plains st)
    X.
Proof.
  intros Hok Hnull Hprior Hn Hterm Htoks.
  destruct i as [v|r v| |re im]; [| |done|]; simpl in Htoks;
    injection Htoks as <- <-;
    simpl in Hok; cbn [Nat.add value_loop item_last_token].
  - term_cases Hterm; destruct Hprior as [-> | ->], Hn as [-> | ->]; run;
      by apply run_done.
  - destruct Hok as [Hr Hv]. pose proof (pyint_not_control _ _ Hr) as Hr'.
    term_cases Hterm; destruct Hprior as [-> | ->], Hn as [-> | ->]; run;
      by apply run_done.
  - term_cases Hterm; destruct Hprior as [-> | ->], Hn as [-> | ->]; run;
      by apply run_done.
Qed.

(** The last item, before the name of the next variable: its values are
    appended, and the loop ends at the [=] after the name. *)
Lemma run_item_next (i : item) (fuel : nat) (v_values : list value)
    (n_vals : option Z) (p_idx : nat) (prior first y : string)
    (rest plains : list string) (X : exn -> parser -> Prop) :
  item_ok i -> is_null i = false -> prior = "=" \/ prior = "," ->
  n_vals = None \/ n_vals = Some 1 ->
  is_control y = false ->
  item_tokens i ++ y :: "=" :: plains = first :: rest ->
  triple (reading cfg (Some prior) (Some first) rest)
    (value_loop fpy f90repr cfg (2 + fuel) None v_values None n_vals p_idx)
    (fun r st =>
       r = (v_values ++ item_values fpy cfg i, None)
       /\ reading cfg (Some y) (Some "=") plains st)
    X.
Proof.
  intros Hok Hnull Hprior Hn Hy Htoks.
  assert (forall (vs : list value) (n : option Z),
            triple (reading cfg (Some y) (Some "=") plains)
              (value_loop fpy f90repr cfg fuel None vs None n p_idx)
              (fun r st => r = (vs, None)
                           /\ reading cfg (Some y) (Some "=") plains st) X)
    as Hexit.
  { intros vs n st st' r HP Hr.
    rewrite (DelistProps.value_loop_next_variable fpy f90repr cfg fuel None vs
               None n p_idx st y) in Hr.
    - by injection Hr as <- <-.
    - by destruct HP as (_ & -> & _).
    - by destruct HP as (-> & _). }
  destruct i as [v|r v| |re im]; [| |done|]; simpl in Htoks;
    injection Htoks as <- <-;
    simpl in Hok; cbn [Nat.add value_loop].
  - destruct Hprior as [-> | ->], Hn as [-> | ->]; run; apply Hexit.
  - destruct Hok as [Hr Hv]. pose proof (pyint_not_control _ _ Hr) as Hr'.
    destruct Hprior as [-> | ->], Hn as [-> | ->]; run; apply Hexit.
  - destruct Hprior as [-> | ->], Hn as [-> | ->]; run; apply Hexit.
Qed.

Lemma items_turns_tokens (i : item) (more : list item) :
  is_null (last_item i more) = false ->
  (items_turns i more <= S (length (items_tokens i more)))%nat.
Proof.
  revert i. induction more as [|j more IH]; intros i Hlast.
  - destruct i; [simpl; lia|simpl; lia|done|simpl; lia].
  - simpl in Hlast. specialize (IH j Hlast).
    cbn [items_turns items_tokens]. rewrite length_app. simpl.
    destruct i; simpl; lia.
Qed.

(** The items of a statement: their values are appended in their order,
    whatever ends the statement, the end of the group or the next
    variable. *)
Lemma run_items (p_idx : nat) (tail : list string)
    (final : parser -> Prop) (X : exn -> parser -> Prop) :
  (forall (j : item) (fuel : nat) (vs : list value) (n : option Z)
          (prior first : string) (rest : list string),
      item_ok j -> is_null j = false -> prior = "=" \/ prior = "," ->
      n = None \/ n = Some 1 ->
      item_tokens j ++ tail = first :: rest ->
      triple (reading cfg (Some prior) (Some first) rest)
        (value_loop fpy f90repr cfg (2 + fuel) None vs None n p_idx)
        (fun r st => r = (vs ++ item_values fpy cfg j, None) /\ final st) X) ->
  tail <> [] ->
  forall (more : list item) (i : item) (fuel : nat) (v_values : list value)
         (n_vals : option Z) (prior first : string) (rest : list string),
    Forall item_ok (i :: more) -> is_null (last_item i more) = false ->
    prior = "=" \/ prior = "," -> n_vals = None \/ n_vals = Some 1 ->
    items_tokens i more ++ tail = first :: rest ->
    (items_turns i more <= fuel)%nat ->
    triple (reading cfg (Some prior) (Some first) rest)
      (value_loop fpy f90repr cfg fuel None v_values None n_vals p_idx)
      (fun r st =>
         r = (v_values ++ concat (item_values fpy cfg <$> i :: more), None)
         /\ final st) X.
Proof.
  intros Hlast Htail more.
  induction more as [|j more IH];
    intros i fuel v_values n_vals prior first rest Hok Hnull Hprior Hn Htoks
      Hfuel; apply Forall_cons in Hok as [Hi Hok].
  - simpl in Hnull, Htoks, Hfuel. rewrite app_nil_r in Htoks.
    replace fuel with (2 + (fuel - 2))%nat by lia.
    simpl concat. rewrite app_nil_r. by apply Hlast.
  - cbn [items_tokens] in Htoks. cbn [items_turns] in Hfuel.
    cbn [last_item] in Hnull. rewrite <- app_assoc in Htoks.
    rewrite <- app_comm_cons in Htoks.
    destruct (items_tokens j more ++ tail) as [|t' plains] eqn:Hnext.
    { apply app_eq_nil in Hnext as [_ ?]. done. }
    replace fuel with (item_turns i + (fuel - item_turns i))%nat by lia.
    apply (run_item_comma i _ _ _ _ prior first t' rest plains); try done.
    eapply triple_weaken;
      [apply (IH j (fuel - item_turns i)%nat (v_values ++ item_values fpy cfg i)
                (Some 1) "," t' plains); try done; [by right|by right|lia]
      |done| |done].
    intros r st [-> Hf]. split; [|done].
    change (concat (item_values fpy cfg <$> i :: j :: more))
      with (item_values fpy cfg i ++ concat (item_values fpy cfg <$> j :: more)).
    by rewrite app_assoc.
Qed.

Lemma run_with_fuel {A B : Type} (prior tok : option string)
    (plains : list string) (loop : nat -> M A) (f : A -> M B)
    (Q : B -> parser -> Prop) (X : exn -> parser -> Prop) :
  (forall fuel : nat,
     (S (length plains) <= fuel)%nat ->
     triple (reading cfg prior tok plains) (loop fuel ≫= f) Q X) ->
  triple (reading cfg prior tok plains) (with_fuel loop ≫= f) Q X.
Proof.
  intros H st st' r HP Hr.
  assert (S (length plains) <= S (length (tokens st)))%nat as Hfuel.
  { destruct HP as (_ & _ & _ & _ & <-). unfold strip.
    pose proof (length_filter (plain cfg) (tokens st)). lia. }
  exact (H (S (length (tokens st))) Hfuel st st' r HP Hr).
Qed.

Lemma triple_exists {A T : Type} (P : T -> parser -> Prop) (m : M A)
    (Q : A -> parser -> Prop) (X : exn -> parser -> Prop) :
  (forall x, triple (P x) m Q X) -> triple (fun st => exists x, P x st) m Q X.
Proof. intros H st st' r [x HP]. by apply (H x). Qed.

Lemma triple_pure {A : Type} (phi : Prop) (P : parser -> Prop) (m : M A)
    (Q : A -> parser -> Prop) (X : exn -> parser -> Prop) :
  (phi -> triple P m Q X) -> triple (fun st => phi /\ P st) m Q X.
Proof. intros H st st' r [Hphi HP]. by apply H. Qed.

Variable FIndex_init : list triplet -> option Z -> FIndex.

(** A statement without index, of a variable that the patch does not
    name: [parse_variable] returns the name and the value of the
    statement. *)
Lemma run_parse_variable (s : statement) (parent : Namelist)
    (patch_nml : list (string * value)) (tail plains : list string)
    (final : parser -> Prop) (X : exn -> parser -> Prop) :
  (forall (j : item) (fuel : nat) (vs : list value) (n : option Z)
          (prior first : string) (rest : list string),
      item_ok j -> is_null j = false -> prior = "=" \/ prior = "," ->
      n = None \/ n = Some 1 ->
      item_tokens j ++ tail = first :: rest ->
      triple (reading cfg (Some prior) (Some first) rest)
        (value_loop fpy f90repr cfg (2 + fuel) None vs None n 0)
        (fun r st => r = (vs ++ item_values fpy cfg j, None) /\ final st) X) ->
  tail <> [] ->
  statement_ok s ->
  index_get (s_name s) (start_index parent) = None ->
  dict_get (lower (s_name s)) patch_nml = None ->
  plains = items_tokens (s_first s) (s_more s) ++ tail ->
  triple (reading cfg (Some (s_name s)) (Some "=") plains)
    (parse_variable fpy FIndex_init f90repr cfg parent patch_nml)
    (fun r st =>
       r = (s_name s, statement_value fpy cfg s, parent, patch_nml)
       /\ final st) X.
Proof.
  intros Hlast Htail (Hname & Hitems & Hnull) Hidx Hpatch ->.
  destruct (items_tokens (s_first s) (s_more s) ++ tail) as [|first rest]
    eqn:Htoks.
  { apply app_eq_nil in Htoks as [_ ?]. done. }
  unfold parse_variable, assign_values. apply run_get_prior_token. cbn beta iota.
  apply run_get_token. cbn beta iota.
  change (token_is (Some "=") "(") with false. cbn beta iota.
  unfold reconcile_unindexed. rewrite Hidx, Hpatch. run.
  apply run_with_fuel. intros fuel Hfuel.
  eapply triple_bind.
  - apply (run_items 0 tail final X Hlast Htail (s_more s) (s_first s) fuel []
             None "=" first rest); try done; [by left|by left|].
    pose proof (items_turns_tokens _ _ Hnull) as Hturns.
    assert (length (first :: rest)
            = (length (items_tokens (s_first s) (s_more s)) + length tail)%nat)
      as Hlen by (by rewrite <- Htoks, length_app).
    destruct tail; [done|]. simpl in Hlen, Hfuel. lia.
  - intros r. apply triple_pure. intros ->. by apply run_done.
Qed.

Variable var_strings : string -> value -> list string.

(** What [readstream] stores for a group under its name. *)
Let stored (g_name : string) (g_vars : Namelist) (nmls : list (string * value))
  : list (string * value) :=
  dict_set (lower g_name)
    match dict_get (lower g_name) nmls with
    | Some g_update => VList (Merge.as_list g_update ++ [VDict (items g_vars)])
    | None => VDict (items g_vars)
    end nmls.

Lemma start_index_foldl_assign (stmts : list statement) (g_vars : Namelist) :
  start_index (foldl (assign fpy cfg) g_vars stmts) = start_index g_vars.
Proof.
  revert g_vars. induction stmts as [|s stmts IH]; intros g_vars; [done|].
  simpl. by rewrite IH.
Qed.

(** The statements of a group, one turn of the loop of [readstream] for
    each, up to the token that ends the group. *)
Lemma run_statements (g_name term : string) (nmls : list (string * value))
    (plains : list string) (X : exn -> parser -> Prop) :
  term ∈ ["/"; "&"; "$"] ->
  forall (more : list statement) (s : statement) (fuel : nat)
         (g_vars : Namelist) (at_name : bool) (p : option string),
    Forall statement_ok (s :: more) -> start_index g_vars = [] ->
    (length more < fuel)%nat ->
    let body := items_tokens (s_first s) (s_more s)
                ++ concat (statement_tokens <$> more) ++ term :: plains in
    triple (if at_name then reading cfg p (Some (s_name s)) ("=" :: body)
            else reading cfg (Some (s_name s)) (Some "=") body)
      (group_loop fpy FIndex_init f90repr var_strings cfg fuel g_name g_vars []
         nmls)
      (fun r st =>
         r = (stored g_name (foldl (assign fpy cfg) g_vars (s :: more)) nmls, [])
         /\ exists p' : option string, reading cfg p' (Some term) plains st)
      X.
Proof.
  intros Hterm more.
  induction more as [|s' more IH];
    intros s fuel g_vars at_name p Hok Hstart Hfuel body;
    apply Forall_cons in Hok as [Hs Hok];
    (destruct fuel as [|fuel]; [lia|]);
    pose proof Hs as (Hname & _ & _);
    assert (index_get (s_name s) (start_index g_vars) = None) as Hidx
      by (by rewrite Hstart).
  - (* the last statement of the group *)
    subst body. simpl concat. cbn [app].
    set (final := fun st => exists p' : option string,
                    reading cfg p' (Some term) plains st).
    assert (triple (reading cfg (Some (s_name s)) (Some "=")
                      (items_tokens (s_first s) (s_more s) ++ term :: plains))
              (parse_variable fpy FIndex_init f90repr cfg g_vars [])
              (fun r st =>
                 r = (s_name s, statement_value fpy cfg s, g_vars, [])
                 /\ final st) X) as Hparse.
    { apply (run_parse_variable s g_vars [] (term :: plains) _ final X);
        try done.
      intros j fuel' vs n prior first rest Hj Hnull Hprior Hn Htoks.
      eapply triple_weaken;
        [by apply (run_item_term j fuel' vs n 0 prior first term rest plains X)
        |done| |done].
      intros r st [-> Hst]. split; [done|by eexists]. }
    cbn [group_loop]. destruct at_name; run.
    all: eapply triple_bind; [exact Hparse|].
    all: intros r; apply triple_pure; intros ->; subst final.
    all: apply triple_exists; intros p'; run.
    all: term_cases Hterm; run; cbn [append_patched]; run.
    all: apply run_done; intros st Hst; split; [done|by eexists].
  - (* a statement that another one follows *)
    apply Forall_cons in Hok as [Hs' Hok]. pose proof Hs' as (Hname' & _ & _).
    set (body' := items_tokens (s_first s') (s_more s')
                  ++ concat (statement_tokens <$> more) ++ term :: plains).
    assert (body = items_tokens (s_first s) (s_more s)
                   ++ s_name s' :: "=" :: body') as ->.
    { subst body body'. f_equal. simpl. by rewrite <- app_assoc. }
    set (final := reading cfg (Some (s_name s')) (Some "=") body').
    assert (triple (reading cfg (Some (s_name s)) (Some "=")
                      (items_tokens (s_first s) (s_more s)
                       ++ s_name s' :: "=" :: body'))
              (parse_variable fpy FIndex_init f90repr cfg g_vars [])
              (fun r st =>
                 r = (s_name s, statement_value fpy cfg s, g_vars, [])
                 /\ final st) X) as Hparse.
    { apply (run_parse_variable s g_vars [] (s_name s' :: "=" :: body') _
               final X); try done.
      intros j fuel' vs n prior first rest Hj Hnull Hprior Hn Htoks.
      by apply (run_item_next j fuel' vs n 0 prior first (s_name s') rest
                  body' X). }
    cbn [group_loop]. destruct at_name; run.
    all: eapply triple_bind; [exact Hparse|].
    all: intros r; apply triple_pure; intros ->; subst final; run.
    all: apply (IH s' fuel (assign fpy cfg g_vars s) false None);
      [by constructor|done|simpl in Hfuel; lia].
Qed.

(** A group, from its name to the token that ends it: [readstream] stores
    its variables under its name. *)
Lemma run_group (g : group) (nmls : list (string * value))
    (p : option string) (plains : list string) (fuel : nat)
    (X : exn -> parser -> Prop) :
  group_ok g -> (S (length (g_statements g)) < fuel)%nat ->
  triple (reading cfg p (Some (g_id g))
            (concat (statement_tokens <$> g_statements g)
             ++ g_term g :: plains))
    (group_loop fpy FIndex_init f90repr var_strings cfg fuel (g_id g)
       empty_Namelist [] nmls)
    (fun r st =>
       r = (add_group fpy cfg nmls g, [])
       /\ exists p' : option string, reading cfg p' (Some (g_term g)) plains st)
    X.
Proof.
  intros (_ & Hid & Hstmts & Hterm) Hfuel.
  destruct fuel as [|fuel]; [lia|].
  destruct (g_statements g) as [|s more] eqn:Hg.
  - simpl concat. cbn [app group_loop]. run.
    term_cases Hterm; run; cbn [append_patched]; run.
    all: apply run_done; intros st Hst; split; [|by eexists].
    all: unfold add_group, group_value; by rewrite Hg.
  - pose proof Hstmts as [(Hname & _ & _) _]%Forall_cons.
    change (concat (statement_tokens <$> s :: more) ++ g_term g :: plains)
      with (s_name s :: "=" ::
            (items_tokens (s_first s) (s_more s) ++
             concat (statement_tokens <$> more)) ++ g_term g :: plains).
    rewrite <- app_assoc. cbn [group_loop]. run.
    eapply triple_weaken;
      [apply (run_statements (g_id g) (g_term g) nmls plains X Hterm more s fuel
                empty_Namelist true (Some (g_id g)) Hstmts eq_refl);
       simpl in Hfuel; lia
      |done| |done].
    intros r st [-> Hst]. split; [|done].
    unfold add_group, group_value. by rewrite Hg.
Qed.

(** *** The loop of [readstream] over the groups *)

Lemma run_with_fuel_last {A : Type} (prior tok : option string)
    (plains : list string) (loop : nat -> M A)
    (Q : A -> parser -> Prop) (X : exn -> parser -> Prop) :
  (forall fuel : nat,
     (S (length plains) <= fuel)%nat ->
     triple (reading cfg prior tok plains) (loop fuel) Q X) ->
  triple (reading cfg prior tok plains) (with_fuel loop) Q X.
Proof.
  intros H st st' r HP Hr.
  assert (S (length plains) <= S (length (tokens st)))%nat as Hfuel.
  { destruct HP as (_ & _ & _ & _ & <-). unfold strip.
    pose proof (length_filter (plain cfg) (tokens st)). lia. }
  exact (H (S (length (tokens st))) Hfuel st st' r HP Hr).
Qed.

Lemma triple_fact {A : Type} (phi : Prop) (P : parser -> Prop) (m : M A)
    (Q : A -> parser -> Prop) (X : exn -> parser -> Prop) :
  (forall st, P st -> phi) -> (phi -> triple P m Q X) -> triple P m Q X.
Proof. intros Hphi H st st' r HP. by apply (H (Hphi st HP)). Qed.

Lemma run_try_next {B : Type} (prior tok : option string) (t : string)
    (plains : list string) (f : option unit -> M B)
    (Q : B -> parser -> Prop) (X : exn -> parser -> Prop) :
  triple (reading cfg tok (Some t) plains) (f (Some tt)) Q X ->
  triple (reading cfg prior tok (t :: plains))
    (try_StopIteration (next_tokens cfg) ≫= f) Q X.
Proof.
  intros H st st' r HP Hr.
  destruct (update_tokens_reading cfg true None false _ _ _ _ _ HP)
    as (st1 & Hu & H1).
  apply (H st1 st' r H1). rewrite <- Hr.
  unfold mbind, M_bind, try_StopIteration, next_tokens. by rewrite Hu.
Qed.

Lemma run_try_next_end {B : Type} (prior tok : option string)
    (f : option unit -> M B) (Q : B -> parser -> Prop)
    (X : exn -> parser -> Prop) :
  triple (reading cfg prior tok []) (f None) Q X ->
  triple (reading cfg prior tok [])
    (try_StopIteration (next_tokens cfg) ≫= f) Q X.
Proof.
  intros H st st' r HP Hr.
  destruct (update_tokens_reading_end cfg true None false _ _ _ HP)
    as (st1 & Hu & H1).
  apply (H st1 st' r H1). rewrite <- Hr.
  unfold mbind, M_bind, try_StopIteration, next_tokens. by rewrite Hu.
Qed.

Lemma outside_token_in (t : string) :
  outside t -> token_in (Some t) ["&"; "$"] = false.
Proof.
  intros [H1 H2]. simpl.
  destruct (String.eqb t "&") eqn:E1; [by apply String.eqb_eq in E1|].
  destruct (String.eqb t "$") eqn:E2; [by apply String.eqb_eq in E2|done].
Qed.

(** The tokens outside of the groups are passed over, up to the token that
    starts the next group. *)
Lemma run_skip (start : string) (plains : list string)
    (X : exn -> parser -> Prop) :
  start ∈ ["&"; "$"] ->
  forall (junk : list string) (fuel : nat) (p : option string) (t0 : string)
         (rest : list string),
    Forall outside junk -> junk ++ start :: plains = t0 :: rest ->
    (length junk <= fuel)%nat ->
    triple (reading cfg p (Some t0) rest) (skip_to_group cfg fuel)
      (fun _ st => exists p' : option string,
                     reading cfg p' (Some start) plains st) X.
Proof.
  intros Hstart junk.
  induction junk as [|j junk IH]; intros fuel p t0 rest Hjunk Htoks Hfuel.
  - simpl in Htoks. injection Htoks as <- <-.
    assert (token_in (Some start) ["&"; "$"] = true) as Hin.
    { rewrite !elem_of_cons, elem_of_nil in Hstart.
      by destruct Hstart as [-> | [-> | []]]. }
    destruct fuel; cbn [skip_to_group]; apply run_get_token; rewrite Hin;
      apply run_done; intros st Hst; by eexists.
  - apply Forall_cons in Hjunk as [Hj Hjunk]. simpl in Htoks, Hfuel.
    injection Htoks as <- <-. destruct fuel as [|fuel]; [lia|].
    cbn [skip_to_group]. apply run_get_token. rewrite (outside_token_in _ Hj).
    destruct (junk ++ start :: plains) as [|t1 rest1] eqn:Hnext.
    { by destruct junk. }
    unfold next_tokens at 1. apply run_update_tokens.
    apply (IH fuel (Some j) t1 rest1); [done|done|lia].
Qed.

(** After the last group they are passed over up to the end of the file. *)
Lemma run_skip_end (Q : unit -> parser -> Prop) (X : exn -> parser -> Prop) :
  forall (junk : list string) (fuel : nat) (p : option string) (t0 : string),
    Forall outside (t0 :: junk) ->
    (S (length junk) <= fuel)%nat ->
    (forall st, X StopIteration st) ->
    triple (reading cfg p (Some t0) junk) (skip_to_group cfg fuel) Q X.
Proof.
  intros junk.
  induction junk as [|j junk IH]; intros fuel p t0 Hjunk Hfuel HX;
    apply Forall_cons in Hjunk as [H0 Hjunk];
    (destruct fuel as [|fuel]; [lia|]);
    cbn [skip_to_group]; apply run_get_token;
    rewrite (outside_token_in _ H0); unfold next_tokens at 1.
  - apply run_update_tokens_end. intros st _. apply HX.
  - apply run_update_tokens. apply IH; [done|simpl in Hfuel; lia|done].
Qed.

Lemma length_statements_tokens (stmts : list statement) :
  (length stmts <= length (concat (statement_tokens <$> stmts)))%nat.
Proof.
  induction stmts as [|s stmts IH]; [done|].
  change (concat (statement_tokens <$> s :: stmts))
    with (statement_tokens s ++ concat (statement_tokens <$> stmts)).
  rewrite length_app. unfold statement_tokens at 1. simpl length. lia.
Qed.

(** The groups of a file, one turn of the loop of [readstream] for each. *)
Lemma run_groups (f_rest : list string) (X : exn -> parser -> Prop) :
  Forall outside f_rest ->
  forall (groups : list (list string * group)) (fuel : nat)
         (nmls : list (string * value)) (nml_patch : patch_tree)
         (p : option string) (t0 : string) (rest : list string),
    Forall (fun jg => Forall outside jg.1 /\ group_ok jg.2) groups ->
    no_values nml_patch ->
    concat ((fun jg => jg.1 ++ group_tokens jg.2) <$> groups) ++ f_rest
    = t0 :: rest ->
    (length groups < fuel)%nat ->
    triple (reading cfg p (Some t0) rest)
      (readstream_loop fpy FIndex_init f90repr var_strings cfg fuel nmls
         nml_patch)
      (fun r _ => r = foldl (add_group fpy cfg) nmls (snd <$> groups)) X.
Proof.
  intros Hrest groups.
  induction groups as [|[junk g] groups IH];
    intros fuel nmls nml_patch p t0 rest Hok Hpatch Htoks Hfuel;
    (destruct fuel as [|fuel]; [simpl in Hfuel; lia|]);
    cbn [readstream_loop].
  - (* after the last group *)
    simpl in Htoks. subst f_rest.
    eapply (triple_bind _ _ _ (fun found _ => found = None)).
    + apply triple_try_StopIteration. apply run_get_token.
      destruct (token_is (Some t0) "end").
      * destruct rest as [|t1 rest].
        -- unfold next_tokens at 1. by apply run_update_tokens_end.
        -- unfold next_tokens at 1. apply run_update_tokens.
           apply run_with_fuel_last. intros fuel' Hfuel'.
           apply Forall_cons in Hrest as [_ Hrest].
           apply run_skip_end; [done|simpl in Hfuel'; lia|done].
      * apply run_ret. apply run_with_fuel_last. intros fuel' Hfuel'.
        apply run_skip_end; [done|lia|done].
    + intros found st st' r ->. by intros [= <- <-].
  - (* a group, and what comes before it *)
    apply Forall_cons in Hok as [[Hjunk Hg] Hok]. simpl in Hjunk, Hg.
    pose proof Hg as (Hstart & Hid & Hstmts & Hterm).
    set (tail := concat ((fun jg => jg.1 ++ group_tokens jg.2) <$> groups)
                 ++ f_rest) in *.
    set (body := concat (statement_tokens <$> g_statements g)
                 ++ g_term g :: tail).
    assert (junk ++ g_start g :: g_id g :: body = t0 :: rest) as Htoks'.
    { rewrite <- Htoks. subst body tail. simpl. unfold group_tokens.
      rewrite <- !app_assoc. simpl. by rewrite <- !app_assoc. }
    clear Htoks.
    apply (triple_fact (g_id g <> "")).
    { intros st (_ & _ & _ & Hreads). apply reads_as_plain in Hreads.
      assert (g_id g ∈ rest) as Hin.
      { destruct junk as [|j junk]; simpl in Htoks'; injection Htoks' as _ <-.
        - by left.
        - apply elem_of_app. right. right. by left. }
      rewrite Forall_forall in Hreads. apply (plain_not_empty cfg).
      by apply Hreads. }
    intros Hne.
    eapply (triple_bind _ _ _
              (fun found st =>
                 is_Some found
                 /\ exists p' : option string,
                      reading cfg p' (Some (g_start g)) (g_id g :: body) st)).
    + apply triple_try_StopIteration. apply run_get_token.
      assert (forall (p0 : option string) (t : string) (r0 : list string)
                     (junk0 : list string),
                Forall outside junk0 ->
                junk0 ++ g_start g :: g_id g :: body = t :: r0 ->
                triple (reading cfg p0 (Some t) r0)
                  (with_fuel (skip_to_group cfg))
                  (fun a st =>
                     is_Some (Some a)
                     /\ exists p' : option string,
                          reading cfg p' (Some (g_start g)) (g_id g :: body) st)
                  (fun e st =>
                     match e with
                     | StopIteration =>
                         is_Some (@None unit)
                         /\ exists p' : option string,
                              reading cfg p' (Some (g_start g)) (g_id g :: body)
                                st
                     | _ => X e st
                     end)) as Hskip.
      { intros p0 t r0 junk0 Hjunk0 Hr0. apply run_with_fuel_last.
        intros fuel' Hfuel'.
        eapply triple_weaken;
          [apply (run_skip (g_start g) (g_id g :: body) _ Hstart junk0 fuel'
                    p0 t r0 Hjunk0 Hr0)
          |done|by intros a st Hst; split; [eexists|]|intros e st He; exact He].
        assert (length (t :: r0) = length (junk0 ++ g_start g :: g_id g :: body))
          as Hlen by (by rewrite Hr0).
        rewrite length_app in Hlen. simpl in Hlen. lia. }
      destruct (token_is (Some t0) "end") eqn:Eend.
      * destruct junk as [|j junk].
        { simpl in Htoks'. injection Htoks' as <- <-.
          rewrite !elem_of_cons, elem_of_nil in Hstart.
          by destruct Hstart as [Hs | [Hs | []]]; rewrite Hs in Eend. }
        simpl in Htoks'. injection Htoks' as <- <-.
        apply Forall_cons in Hjunk as [_ Hjunk].
        destruct (junk ++ g_start g :: g_id g :: body) as [|t1 rest1] eqn:Hnext.
        { by destruct junk. }
        unfold next_tokens at 1. apply run_update_tokens.
        by apply (Hskip _ _ _ junk).
      * apply run_ret. by apply (Hskip _ _ _ junk).
    + intros found. apply triple_pure. intros [u ->]. apply triple_exists.
      intros p'.
      unfold next_tokens at 1. apply run_update_tokens. apply run_get_token.
      cbn [format_token default]. rewrite (patch_get_no_values _ _ Hpatch).
      rewrite bool_decide_eq_false_2 by done.
      apply run_with_fuel. intros fuel' Hfuel'.
      eapply triple_bind.
      * apply (run_group g nmls (Some (g_start g)) tail fuel' X Hg).
        subst body. rewrite length_app in Hfuel'. simpl in Hfuel'.
        pose proof (length_statements_tokens (g_statements g)). lia.
      * intros r. apply triple_pure. intros ->. apply triple_exists.
        intros p''. cbn beta iota.
        destruct tail as [|t1 rest1] eqn:Htail.
        -- apply run_try_next_end. apply run_done. intros st _.
           destruct groups as [|[junk' g'] groups]; [done|].
           subst tail. simpl in Htail. by destruct junk'.
        -- apply run_try_next.
           apply (IH fuel (add_group fpy cfg nmls g)
                    (patch_set (lower (g_id g)) [] nml_patch)
                    (Some (g_term g)) t1 rest1); try done.
           ++ by apply patch_set_no_values.
           ++ simpl in Hfuel. lia.
Qed.

End Items.

(** *** The indices of a variable *)

Section Indices.
Variable cfg : config.

Lemma run_try_int {B : Type} (p : option string) (t t' : string)
    (plains : list string) (n : Z) (g : Z -> option Z)
    (h : string -> M (option Z)) (f : option Z -> M B)
    (Q : B -> parser -> Prop) (X : exn -> parser -> Prop) :
  pyint t = Some n ->
  triple (reading cfg (Some t) (Some t') plains) (f (g n)) Q X ->
  triple (reading cfg p (Some t) (t' :: plains))
    (try_ValueError
       (tok ← get_token; n ← int_of_token tok; next_tokens cfg;; mret (g n)) h
     ≫= f) Q X.
Proof.
  intros Hn H st st' r HP Hr.
  destruct (update_tokens_reading cfg true None false _ _ _ _ _ HP)
    as (st1 & Hu & H1).
  apply (H st1 st' r H1). rewrite <- Hr.
  unfold mbind, M_bind, try_ValueError, get_token, int_of_token, next_tokens,
    mret, M_ret.
  destruct HP as (_ & -> & _). rewrite Hn. by rewrite Hu.
Qed.

Lemma run_try_int_only {B : Type} (p : option string) (t : string)
    (plains : list string) (n : Z) (h : string -> M Z) (f : Z -> M B)
    (Q : B -> parser -> Prop) (X : exn -> parser -> Prop) :
  pyint t = Some n ->
  triple (reading cfg p (Some t) plains) (f n) Q X ->
  triple (reading cfg p (Some t) plains)
    (try_ValueError (tok ← get_token; int_of_token tok) h ≫= f) Q X.
Proof.
  intros Hn H st st' r HP Hr. apply (H st st' r HP). rewrite <- Hr.
  unfold mbind, M_bind, try_ValueError, get_token, int_of_token, mret, M_ret.
  destruct HP as (_ & -> & _). by rewrite Hn.
Qed.

Lemma run_try_int_fail {A B : Type} (p : option string) (t : string)
    (plains : list string) (k : Z -> M A) (h : string -> M A) (f : A -> M B)
    (Q : B -> parser -> Prop) (X : exn -> parser -> Prop) :
  pyint t = None ->
  triple (reading cfg p (Some t) plains) (h (int_error t) ≫= f) Q X ->
  triple (reading cfg p (Some t) plains)
    (try_ValueError (tok ← get_token; n ← int_of_token tok; k n) h ≫= f) Q X.
Proof.
  intros Hn H st st' r HP Hr. apply (H st st' r HP). rewrite <- Hr.
  unfold mbind, M_bind, try_ValueError, get_token, int_of_token, raise.
  destruct HP as (_ & -> & _). by rewrite Hn.
Qed.

Ltac run_index :=
  repeat first
    [ run1
    | progress simp_cond
    | match goal with
      | |- triple _ (try_ValueError _ _ ≫= _) _ _ =>
          first [ eapply run_try_int; [eassumption|]
                | eapply run_try_int_only; [eassumption|]
                | eapply run_try_int_fail; [reflexivity|] ]
      | H : (?n =? 0) = false |- context [?n =? 0] => rewrite H
      end ].

(** [parse_index] on a well-formed index that a comma or a closing
    parenthesis follows: it returns the triplet of the index and leaves the
    cursor on the token that follows. *)
Lemma run_parse_index (v_name : string) (f : index_form) (t : triplet)
    (term : string) (p tok : option string) (plains : list string)
    (X : exn -> parser -> Prop) :
  index_form_ok f -> index_triplet f = Some t -> term = "," \/ term = ")" ->
  triple (reading cfg p tok (index_tokens f ++ term :: plains))
    (parse_index cfg v_name)
    (fun r st => r = t /\ exists p' : option string,
                            reading cfg p' (Some term) plains st) X.
Proof.
  intros Hok Ht Hterm. unfold int_lit_ok, index_form_ok in Hok.
  unfold parse_index.
  destruct f as [|i|[s|] [e|]|[s|] e k|[s|]|[s|] e];
    cbn [index_tokens opt_text app index_triplet fmap option_fmap option_map
         from_option] in *;
    unfold int_lit_ok in Hok; try discriminate Ht;
    try (destruct (number k =? 0) eqn:Hk; [discriminate Ht|]);
    injection Ht as <-;
    repeat match goal with H : _ /\ _ |- _ => destruct H end;
    destruct Hterm as [-> | ->]; run_index;
    apply run_done; intros st Hst; (split; [done|by eexists]).
Qed.

Lemma indices_tokens_length (f : index_form) (more : list index_form) :
  (length more <= length (indices_tokens f more))%nat.
Proof.
  revert f. induction more as [|g more IH]; intros f; simpl; [lia|].
  rewrite length_app. simpl. specialize (IH g). lia.
Qed.

Lemma run_parse_indices_exit (v_name : string) (fuel : nat)
    (v_indices : list triplet) (p : option string) (plains : list string)
    (X : exn -> parser -> Prop) :
  triple (reading cfg p (Some ")") plains)
    (parse_indices_loop fuel cfg v_name v_indices)
    (fun r st => r = v_indices
                 /\ exists p' : option string,
                      reading cfg p' (Some ")") plains st) X.
Proof.
  destruct fuel; cbn [parse_indices_loop]; run;
    apply run_done; intros st Hst; (split; [done|by eexists]).
Qed.

(** The loop of [parse_indices] over the indices of the dimensions. *)
Lemma run_parse_indices_loop (v_name : string) (plains : list string)
    (X : exn -> parser -> Prop) :
  forall (more : list index_form) (f : index_form) (ts : list triplet)
         (fuel : nat) (v_indices : list triplet) (p : option string)
         (tok : string),
    Forall2 (fun f t => index_form_ok f /\ index_triplet f = Some t)
      (f :: more) ts ->
    tok = "(" \/ tok = "," ->
    (length more < fuel)%nat ->
    triple (reading cfg p (Some tok) (indices_tokens f more ++ ")" :: plains))
      (parse_indices_loop fuel cfg v_name v_indices)
      (fun r st => r = v_indices ++ ts
                   /\ exists p' : option string,
                        reading cfg p' (Some ")") plains st) X.
Proof.
  intros more.
  induction more as [|g more IH]; intros f ts fuel v_indices p tok Hall Htok
    Hfuel; (destruct fuel as [|fuel]; [simpl in Hfuel; lia|]);
    apply Forall2_cons_inv_l in Hall as (t & ts' & [Hok Ht] & Hall & ->);
    cbn [parse_indices_loop indices_tokens].
  - apply Forall2_nil_inv_l in Hall as ->. rewrite app_nil_r.
    destruct Htok as [-> | ->]; run.
    all: eapply triple_bind;
      [apply (run_parse_index v_name f t ")" _ _ plains X Hok Ht); by right|].
    all: intros r; apply triple_pure; intros ->; apply triple_exists; intros p'.
    all: apply run_parse_indices_exit.
  - rewrite <- app_assoc, <- app_comm_cons.
    destruct Htok as [-> | ->]; run.
    all: eapply triple_bind;
      [apply (run_parse_index v_name f t "," _ _
                (indices_tokens g more ++ ")" :: plains) X Hok Ht); by left|].
    all: intros r; apply triple_pure; intros ->; apply triple_exists; intros p'.
    all: eapply triple_weaken;
      [apply (IH g ts' fuel (v_indices ++ [t]) p' "," Hall);
       [by right|simpl in Hfuel; lia]
      |done| |done].
    all: intros r st [-> Hst]; split; [by rewrite <- app_assoc|done].
Qed.

End Indices.

(** [parse_indices] at the index of a variable with one or more dimensions,
    each of them a single index [n], a range [[a]:[b]] or a range with a
    stride [[a]:b:k] that is not zero: it returns the triplets of the
    dimensions in their order and leaves the cursor on the closing
    parenthesis.  White space and comments may stand between any two
    tokens. *)
Theorem parse_indices_reads (cfg : config) (v_name : string) (f : index_form)
    (more : list index_form) (ts : list triplet) (plains : list string)
    (st : parser) :
  Forall2 (fun f t => index_form_ok f /\ index_triplet f = Some t)
    (f :: more) ts ->
  reading cfg (Some v_name) (Some "(")
    (indices_tokens f more ++ ")" :: plains) st ->
  exists st' : parser,
    parse_indices cfg st = (Ok ts, st')
    /\ exists p : option string, reading cfg p (Some ")") plains st'.
Proof.
  intros Hall Hst.
  assert (triple (reading cfg (Some v_name) (Some "(")
                    (indices_tokens f more ++ ")" :: plains))
            (parse_indices cfg)
            (fun r st' => r = ts /\ exists p, reading cfg p (Some ")") plains st')
            (fun _ _ => False)) as H.
  { unfold parse_indices. apply run_get_prior_token.
    apply run_with_fuel_last. intros fuel Hfuel.
    apply (run_parse_indices_loop cfg v_name plains _ more f ts fuel []
             (Some v_name) "(" Hall); [by left|].
    rewrite length_app in Hfuel. pose proof (indices_tokens_length f more).
    lia. }
  destruct (parse_indices cfg st) as [r st'] eqn:E.
  specialize (H st st' r Hst E).
  destruct r as [a|e]; [|done]. destruct H as [-> H]. by exists st'.
Qed.

Lemma parse_indices_reads_witness :
  exists st' : parser,
    parse_indices init_config
      {| tokens := ["2"; " "; ","; ":"; "5"; ","; " "; "1"; ":"; "9"; ":"; "2";
                    ")"; " "; "="; "0"];
         token := Some "("; prior_token := Some "v"; pfile := None |}
    = (Ok [(Some 2, Some 3, None); (None, Some 6, None);
           (Some 1, Some 10, Some 2)], st')
    /\ exists p : option string, reading init_config p (Some ")") ["="; "0"] st'.
Proof.
  apply (parse_indices_reads init_config "v"
           (ISingle {| text := "2"; number := 2 |})
           [IRange None (Some {| text := "5"; number := 5 |});
            IStride (Some {| text := "1"; number := 1 |})
              {| text := "9"; number := 9 |} {| text := "2"; number := 2 |}]).
  - repeat constructor.
  - repeat split; by repeat constructor.
Defined.

(** A statement [name = v1, v2, ..., vn] without index, of a variable that
    the patch does not name, up to the token that ends the group:
    [parse_variable] returns the name and the values of the items in their
    order, a repeat count [r*v] standing for [r] times the value, nothing
    before a comma for [None], and [(re, im)] for the value of the text
    [(re, im)]; a single value is returned as such.  White space and
    comments may stand between any two tokens. *)
Theorem parse_variable_reads
    (fpy : bool -> string -> option value)
    (FIndex_init : list triplet -> option Z -> FIndex)
    (f90repr : value -> string) (cfg : config)
    (s : statement) (parent : Namelist) (patch_nml : list (string * value))
    (term : string) (plains : list string) (st : parser) :
  statement_ok s -> term ∈ ["/"; "&"; "$"] ->
  index_get (s_name s) (start_index parent) = None ->
  dict_get (lower (s_name s)) patch_nml = None ->
  reading cfg (Some (s_name s)) (Some "=")
    (items_tokens (s_first s) (s_more s) ++ term :: plains) st ->
  exists st' : parser,
    parse_variable fpy FIndex_init f90repr cfg parent patch_nml st
    = (Ok (s_name s, statement_value fpy cfg s, parent, patch_nml), st')
    /\ exists p : option string, reading cfg p (Some term) plains st'.
Proof.
  intros Hs Hterm Hidx Hpatch Hst.
  assert (triple (reading cfg (Some (s_name s)) (Some "=")
                    (items_tokens (s_first s) (s_more s) ++ term :: plains))
            (parse_variable fpy FIndex_init f90repr cfg parent patch_nml)
            (fun r st' =>
               r = (s_name s, statement_value fpy cfg s, parent, patch_nml)
               /\ exists p, reading cfg p (Some term) plains st')
            (fun _ _ => False)) as H.
  { apply (run_parse_variable fpy f90repr cfg FIndex_init s parent patch_nml
             (term :: plains)); try done.
    intros j fuel vs n prior first rest Hj Hnull Hprior Hn Htoks.
    eapply triple_weaken;
      [by apply (run_item_term fpy f90repr cfg j fuel vs n 0 prior first term
                   rest plains (fun _ _ => False))
      |done| |done].
    intros r0 st0 [-> Hst0]. split; [done|by eexists]. }
  destruct (parse_variable fpy FIndex_init f90repr cfg parent patch_nml st)
    as [r st'] eqn:E.
  specialize (H st st' r Hst E).
  destruct r as [a|e]; [|done]. destruct H as [-> H]. by exists st'.
Qed.

Lemma parse_variable_reads_witness :
  exists st' : parser,
    parse_variable Example.fpy Example.FIndex_init Example.f90repr init_config
      empty_Namelist []
      {| tokens := [" "; "3"; "*"; "0"; ","; ","; " "; "7"; "! more"; LF; "/";
                    LF];
         token := Some "="; prior_token := Some "n"; pfile := None |}
    = (Ok ("n", VList [VInt 0; VInt 0; VInt 0; VNone; VInt 7], empty_Namelist,
           []), st')
    /\ exists p : option string, reading init_config p (Some "/") [] st'.
Proof.
  apply (parse_variable_reads Example.fpy Example.FIndex_init Example.f90repr
           init_config
           {| s_name := "n";
              s_first := IRep {| text := "3"; number := 3 |} "0";
              s_more := [INull; ILit "7"] |}
           empty_Namelist [] "/" []).
  - repeat split; repeat constructor.
  - by left.
  - reflexivity.
  - reflexivity.
  - repeat split; by repeat constructor.
Defined.

(** [readstream] on a file of groups whose statements assign literal values,
    when nothing is patched: the namelist holds every group under its name
    in lower case, with its variables in the order of their first
    assignment; a variable that is assigned again holds the merge of its
    values, and a second group of a name makes a list of groups.  What
    stands outside of the groups is ignored, and white space and comments
    may stand between any two tokens. *)
Theorem readstream_reads
    (fpy : bool -> string -> option value)
    (FIndex_init : list triplet -> option Z -> FIndex)
    (f90repr : value -> string)
    (var_strings : string -> value -> list string) (cfg : config)
    (f : file) (nml_patch : patch_tree) (f90lex : list string) :
  file_ok f -> no_values nml_patch ->
  reads_as cfg f90lex (file_tokens f) ->
  (readstream fpy FIndex_init f90repr var_strings cfg f90lex nml_patch false).1
  = Ok (file_value fpy cfg f).
Proof.
  intros [Hgroups Hrest] Hpatch Hreads. unfold readstream.
  set (st0 := {| tokens := f90lex; token := None; prior_token := None;
                 pfile := None |}).
  assert (reading cfg None None (file_tokens f) st0) as H0 by done.
  unfold try_StopIteration.
  destruct (file_tokens f) as [|t0 rest] eqn:Htoks.
  - destruct (update_tokens_reading_end cfg false None false _ _ _ H0)
      as (st1 & -> & _).
    revert Htoks. unfold file_value, file_tokens.
    destruct (f_groups f) as [|[junk g] groups]; [done|].
    unfold group_tokens. simpl. intros Htoks.
    apply app_eq_nil in Htoks as [Htoks _].
    apply app_eq_nil in Htoks as [Htoks _].
    by apply app_eq_nil in Htoks as [_ Htoks].
  - destruct (update_tokens_reading cfg false None false _ _ _ _ _ H0)
      as (st1 & -> & H1).
    pose proof (run_groups fpy f90repr cfg FIndex_init var_strings (f_rest f)
                  (fun _ _ => False) Hrest (f_groups f) (S (length f90lex)) []
                  nml_patch None t0 rest Hgroups Hpatch Htoks) as H.
    assert (length (f_groups f) < S (length f90lex))%nat as Hfuel.
    { assert (length (f_groups f) <= length (file_tokens f))%nat as Hlen.
      { unfold file_tokens. rewrite length_app.
        enough (length (f_groups f)
                <= length (concat ((fun jg => jg.1 ++ group_tokens jg.2)
                                   <$> f_groups f)))%nat by lia.
        clear. induction (f_groups f) as [|[junk g] groups IH]; [done|].
        change (concat ((fun jg => jg.1 ++ group_tokens jg.2)
                        <$> (junk, g) :: groups))
          with ((junk ++ group_tokens g)
                ++ concat ((fun jg => jg.1 ++ group_tokens jg.2) <$> groups)).
        rewrite !length_app. unfold group_tokens at 1. simpl length. lia. }
      rewrite Htoks in Hlen. destruct Hreads as [_ Hs]. rewrite <- Hs in Hlen.
      unfold strip in Hlen. pose proof (length_filter (plain cfg) f90lex).
      lia. }
    destruct (readstream_loop _ _ _ _ _ _ _ _ st1) as [r st'] eqn:E.
    specialize (H Hfuel st1 st' r H1 E).
    by destruct r as [a|e]; [rewrite H|].
Qed.

Lemma readstream_reads_witness :
  (readstream Example.fpy Example.FIndex_init Example.f90repr
     Example.var_strings init_config
     ["! settings"; LF; "&"; "run"; " "; "n"; "="; "3"; "*"; "0"; ","; ",";
      "7"; LF; "name"; "="; "'a'"; " "; "z"; "="; "("; "1.0"; ","; " "; "2.0";
      ")"; "/"; LF; "$"; "RUN"; " "; "n"; "="; "1"; " "; "$"; "end"; LF]
     [] false).1
  = Ok [("run", VList [VDict [("n", VList [VInt 0; VInt 0; VInt 0; VNone; VInt 7]);
                              ("name", VStr "'a'"); ("z", VStr "(1.0, 2.0)")];
                       VDict [("n", VInt 1)]])].
Proof.
  apply (readstream_reads Example.fpy Example.FIndex_init Example.f90repr
           Example.var_strings init_config
           {| f_groups :=
                [([], {| g_start := "&"; g_id := "run";
                         g_statements :=
                           [{| s_name := "n";
                               s_first := IRep {| text := "3"; number := 3 |} "0";
                               s_more := [INull; ILit "7"] |};
                            {| s_name := "name"; s_first := ILit "'a'";
                               s_more := [] |};
                            {| s_name := "z"; s_first := IComplex "1.0" "2.0";
                               s_more := [] |}];
                         g_term := "/" |});
                 ([], {| g_start := "$"; g_id := "RUN";
                         g_statements :=
                           [{| s_name := "n"; s_first := ILit "1";
                               s_more := [] |}];
                         g_term := "$" |})];
              f_rest := ["end"] |} []).
  - split; repeat constructor; discriminate.
  - constructor.
  - split; by repeat constructor.
Defined.

End ReadProps.

(** * The lines of a patched group and the tokens of a file *)

Module LinesProps.

Lemma write_lines_cat (v_strs : list string) (st : parser) (out : string) :
  pfile st = Some out ->
  (fix write_lines (v_strs : list string) : M unit :=
     match v_strs with
     | [] => mret tt
     | v_str :: v_strs' =>
         pfile_write ("    " +:+ v_str +:+ LF);; write_lines v_strs'
     end) v_strs st
  = (Ok tt,
     {| tokens := tokens st; token := token st; prior_token := prior_token st;
        pfile := Some (out +:+ cat ((fun v_str => "    " +:+ v_str +:+ LF)
                                    <$> v_strs)) |}).
Proof.
  revert st out. induction v_strs as [|v_str v_strs IH]; intros st out Hout.
  - cbn. rewrite PatchProps.append_nil_r, <- Hout. by destruct st.
  - unfold mbind, M_bind, pfile_write. rewrite Hout.
    rewrite (IH _ (out +:+ ("    " +:+ v_str +:+ LF))) by done.
    cbn [tokens token prior_token pfile fmap list_fmap cat foldr].
    by rewrite PatchProps.append_assoc.
Qed.

(** With a patch file open, the loop that ends a patched group adds
    every variable left in the patch of the group to the group, in the order
    of the patch, and writes the lines of each, every line after four spaces
    and ended by a line feed; it reads no token. *)
Theorem append_patched_writes (var_strings : string -> value -> list string)
    (grp_patch : list (string * value)) (g_vars : Namelist) (st : parser)
    (out : string) :
  pfile st = Some out ->
  append_patched var_strings grp_patch g_vars st
  = (Ok (foldl (fun g kv => Namelist_set kv.1 kv.2 g) g_vars grp_patch),
     {| tokens := tokens st; token := token st; prior_token := prior_token st;
        pfile := Some (out +:+ cat (patched_lines var_strings grp_patch)) |}).
Proof.
  revert g_vars st out.
  induction grp_patch as [|[v_name v_val] grp_patch IH]; intros g_vars st out Hout.
  - cbn. rewrite PatchProps.append_nil_r, <- Hout. by destruct st.
  - cbn [append_patched]. unfold mbind at 1. unfold M_bind at 1.
    rewrite (write_lines_cat _ _ out Hout).
    rewrite (IH _ _ (out +:+ cat ((fun v_str => "    " +:+ v_str +:+ LF)
                                  <$> var_strings v_name v_val))) by done.
    cbn [tokens token prior_token pfile foldl fst snd].
    unfold patched_lines. cbn [fmap list_fmap concat fst snd].
    change (list_fmap _ _ ?f ?l) with (f <$> l).
    by rewrite PatchProps.cat_app, PatchProps.append_assoc.
Qed.

Lemma append_patched_writes_witness :
  append_patched (fun v_name v_val => [v_name +:+ " = " +:+ Example.f90repr v_val])
    [("x", VInt 1); ("Y", VBool true)]
    {| items := [("a", VInt 0)]; start_index := [] |}
    {| tokens := [LF]; token := Some "/"; prior_token := Some " ";
       pfile := Some "&g a = 0 " |}
  = (Ok {| items := [("a", VInt 0); ("x", VInt 1); ("y", VBool true)];
           start_index := [] |},
     {| tokens := [LF]; token := Some "/"; prior_token := Some " ";
        pfile := Some ("&g a = 0     x = 1" +:+ LF +:+ "    Y = .true." +:+ LF) |}).
Proof.
  exact (append_patched_writes
           (fun v_name v_val => [v_name +:+ " = " +:+ Example.f90repr v_val])
           [("x", VInt 1); ("Y", VBool true)]
           {| items := [("a", VInt 0)]; start_index := [] |}
           {| tokens := [LF]; token := Some "/"; prior_token := Some " ";
              pfile := Some "&g a = 0 " |}
           "&g a = 0 " eq_refl).
Defined.

Section Tokens.

Variable Tokenizer : Type.
Variable Tokenizer_parse : Tokenizer -> string -> list string * Tokenizer.
Variable prior_delim : Tokenizer -> bool.

Lemma ends_lines_app (f90lex toks : list string) :
  ends_lines (f90lex ++ toks ++ [LF]).
Proof. right. by rewrite app_assoc, last_snoc. Qed.

Lemma collect_tokens_ends (nml_file : list string) :
  forall (tokenizer : Tokenizer) (open : option (list string))
         (f90lex f90lex' : list string),
    ends_lines f90lex ->
    collect_tokens Tokenizer Tokenizer_parse prior_delim tokenizer open
      nml_file f90lex = Ok f90lex' ->
    ends_lines f90lex'.
Proof.
  induction nml_file as [|line nml_file IH]; intros tokenizer open f90lex f90lex' He H.
  - cbn in H. destruct open; [done|]. by injection H as <-.
  - cbn [collect_tokens] in H.
    destruct (Tokenizer_parse tokenizer line) as [new_toks tokenizer'].
    destruct (match open with
              | Some toks => attach toks new_toks
              | None => Ok new_toks
              end) as [toks|e]; [|done].
    destruct (prior_delim tokenizer').
    + by apply (IH _ _ _ _ He H).
    + apply (IH _ _ _ _ (ends_lines_app f90lex toks) H).
Qed.

(** The tokens that [readstream] collects from the lines of a file
    close every statement with an end of line: whatever the tokenizer gives,
    the list is empty or its last token is the line feed. *)
Theorem tokens_of_file_end_lines (Tokenizer_init : Tokenizer)
    (nml_file f90lex : list string) :
  tokens_of_file Tokenizer Tokenizer_init Tokenizer_parse prior_delim nml_file
  = Ok f90lex ->
  ends_lines f90lex.
Proof.
  intros H. apply (collect_tokens_ends _ _ _ _ _ (or_introl eq_refl) H).
Qed.

(** A file whose last line leaves a delimited string open has no tokens:
    the line that would close it is missing. *)
Lemma collect_tokens_open (tokenizer : Tokenizer) (toks f90lex : list string) :
  collect_tokens Tokenizer Tokenizer_parse prior_delim tokenizer (Some toks)
    [] f90lex = Raise StopIteration.
Proof. done. Qed.

End Tokens.

Lemma tokens_of_file_end_lines_witness :
  tokens_of_file bool false
    (fun (open : bool) line =>
       ([line], if open then false else String.eqb line "'a"))
    id ["&g x ="; "'a"; " b'"; "/"]
  = Ok ["&g x ="; LF; "'a b'"; LF; "/"; LF]
  /\ ends_lines ["&g x ="; LF; "'a b'"; LF; "/"; LF].
Proof.
  split; [reflexivity|].
  apply (tokens_of_file_end_lines bool
           (fun (open : bool) line =>
              ([line], if open then false else String.eqb line "'a"))
           id false ["&g x ="; "'a"; " b'"; "/"]).
  reflexivity.
Defined.

End LinesProps.

(** * The tables of a comparison *)

Module TableProps.

Import NamelistDiff.

(** Induction on a value through the dicts only. *)
Lemma value_dict_ind (P : value -> Prop) :
  (forall v : value, is_dict v = false -> P v) ->
  (forall d : list (string * value), Forall (fun kv => P kv.2) d -> P (VDict d)) ->
  forall v : value, P v.
Proof.
  intros Hleaf Hdict. fix IH 1. intros v.
  destruct v as [ | | | | | | l | d]; try (by apply Hleaf).
  apply Hdict. induction d as [|[k v] d IHd]; constructor; [apply IH | apply IHd].
Qed.

Lemma prepend_key_cells (key : string) (ls : list (list string * value)) :
  prepend_key key ((fun leaf => VList (cells leaf)) <$> ls)
  = Ok ((fun leaf => VList (cells leaf))
        <$> ((fun leaf => (key :: leaf.1, leaf.2)) <$> ls)).
Proof.
  induction ls as [|leaf ls IH]; [done|].
  cbn [fmap list_fmap prepend_key]. cbn [fmap list_fmap] in IH. by rewrite IH.
Qed.

Lemma to_lists_leaves (v : value) :
  _to_lists v 1 = Ok ((fun leaf => VList (cells leaf)) <$> leaves v).
Proof.
  induction v as [v Hv | d IH] using value_dict_ind.
  - by destruct v.
  - cbn [_to_lists leaves].
    enough (forall outs,
      (fix items (d : list (string * value)) (outs : list value)
         : result (list value) :=
         match d with
         | [] => Ok outs
         | (key, values) :: d' =>
             match _to_lists values 1 with
             | Raise e => Raise e
             | Ok out =>
                 match prepend_key key out with
                 | Raise e => Raise e
                 | Ok rows => items d' (outs ++ rows)
                 end
             end
         end) d outs
      = Ok (outs ++ ((fun leaf => VList (cells leaf)) <$>
              (fix items (d : list (string * value)) : list (list string * value) :=
                 match d with
                 | [] => []
                 | (key, values) :: d' =>
                     ((fun leaf => (key :: leaf.1, leaf.2)) <$> leaves values)
                     ++ items d'
                 end) d))) as H by apply (H []).
    induction IH as [|[key values] d Hv _ IHd]; intros outs.
    + by rewrite app_nil_r.
    + cbn [snd] in Hv. rewrite Hv, prepend_key_cells, IHd.
      by rewrite fmap_app, app_assoc.
Qed.

Lemma rows_cells_cells (ls : list (list string * value)) :
  rows_cells ((fun leaf => VList (cells leaf)) <$> ls) = Ok (cells <$> ls).
Proof.
  induction ls as [|leaf ls IH]; [done|].
  cbn [fmap list_fmap rows_cells]. cbn [fmap list_fmap] in IH. by rewrite IH.
Qed.

Lemma max_length_le (rows : list (list value)) :
  Forall (fun row => length row <= max_length rows)%nat rows.
Proof.
  induction rows as [|row rows IH]; constructor.
  - unfold max_length. cbn. lia.
  - apply (Forall_impl _ _ _ IH). intros r Hr.
    unfold max_length in *. cbn. lia.
Qed.

Lemma padded_length (rows : list (list value)) :
  Forall (fun row => length row = max_length rows)
    ((fun out_i => replicate (max_length rows - length out_i) VNone ++ out_i)
     <$> rows).
Proof.
  apply Forall_fmap. apply (Forall_impl _ _ _ (max_length_le rows)).
  intros row Hrow. cbn. rewrite length_app, length_replicate. lia.
Qed.

(** Whatever the section and the value columns, the table that
    [_convert_to_lists] returns is rectangular: all rows have one length,
    and the header is as long as the rows unless the rows are shorter than
    the value columns. *)
Theorem convert_to_lists_rectangular (indict : value) (varcols head : list string)
    (out : list (list value)) :
  _convert_to_lists indict varcols = Ok (head, out) ->
  out <> []
  /\ exists n : nat,
       Forall (fun row => length row = n) out
       /\ length head = Nat.max n (length varcols).
Proof.
  unfold _convert_to_lists. intros H.
  destruct (_to_lists indict (length varcols)) as [rows0|e]; [|done].
  destruct (rows_cells rows0) as [[|out_0 out']|e]; [done| |done].
  injection H as <- <-. split; [done|].
  exists (max_length (out_0 :: out')). split; [apply padded_length|].
  pose proof (padded_length (out_0 :: out')) as Hlen.
  apply Forall_inv in Hlen. cbn [fmap list_fmap lookup list_lookup default id].
  rewrite Hlen, length_app, length_fmap, length_seq. lia.
Qed.

Lemma convert_to_lists_rectangular_witness :
  _convert_to_lists
    (VDict [("g", VDict [("x", VList [VInt 1; VInt 2])]);
            ("v", VList [VInt 3; VInt 4])])
    ["a"; "b"]
  = Ok (["level 0"; "level 1"; "a"; "b"],
        [[VStr "g"; VStr "x"; VInt 1; VInt 2];
         [VNone; VStr "v"; VInt 3; VInt 4]])
  /\ exists n : nat,
       Forall (fun row => length row = n)
         [[VStr "g"; VStr "x"; VInt 1; VInt 2];
          [VNone; VStr "v"; VInt 3; VInt 4]]
       /\ length ["level 0"; "level 1"; "a"; "b"] = Nat.max n 2.
Proof.
  split; [reflexivity|].
  apply (convert_to_lists_rectangular
           (VDict [("g", VDict [("x", VList [VInt 1; VInt 2])]);
                   ("v", VList [VInt 3; VInt 4])])
           ["a"; "b"]).
  reflexivity.
Defined.

(** For a section with one column of values, [_convert_to_lists]
    raises [ValueError] when the dict holds no variable at all, and else
    returns one row for every variable, in the order of the dict: unset
    cells in front, then the keys that lead to the variable, then its value;
    the header names one level for every column of keys and ends with the
    name of the value column.  No other error is raised. *)
Theorem convert_to_lists_rows (indict : value) (varcol : string) :
  (leaves indict = [] ->
   exists msg : string,
     _convert_to_lists indict [varcol] = Raise (ValueError msg))
  /\ (leaves indict <> [] ->
      _convert_to_lists indict [varcol]
      = Ok (((fun i => "level " +:+ Example.show_Z (Z.of_nat i))
             <$> seq 0 (width indict - 1)) ++ [varcol],
            row_of (width indict) <$> leaves indict)).
Proof.
  unfold _convert_to_lists. cbn [length]. rewrite to_lists_leaves, rows_cells_cells.
  unfold width. destruct (leaves indict) as [|leaf ls] eqn:Hl.
  - split; [by eexists | done].
  - split; [done|]. intros _.
    pose proof (padded_length (cells <$> leaf :: ls)) as Hlen.
    apply Forall_inv in Hlen.
    cbn [fmap list_fmap] in Hlen |- *. cbn [lookup list_lookup default id].
    rewrite Hlen. do 3 f_equal.
    change (list_fmap _ _ ?f ?l) with (f <$> l).
    by rewrite <- list_fmap_compose.
Qed.

End TableProps.

(** * The turns of the loops suffice *)

Module TurnProps.
Import IndexProps PatchProps TokenProps PassProps.

(** *** The exceptions of the functions without cursor *)

Lemma sequence_raise {A : Type} (l : list (result A)) (e : exn) :
  sequence l = Raise e -> Raise e ∈ l.
Proof.
  induction l as [|[a|e'] l IH]; simpl; [done| |].
  - destruct (sequence l); [done|]. intros [= ->]. right. by apply IH.
  - intros [= ->]. by left.
Qed.

Lemma pad_array_exn (idx : list (Z * Z)) :
  forall (v : value) (e : exn), pad_array v idx = Raise e -> of_model e = false.
Proof.
  induction idx as [|[i_v i_s] idx IH]; intros v e H; simpl in H.
  - by injection H as <-.
  - destruct v as [| | | | | |l|]; try by injection H as <-.
    destruct idx as [|p idx]; [done|].
    destruct (sequence _) as [l'|e'] eqn:Hs; [done|]. injection H as ->.
    apply sequence_raise in Hs. apply list_elem_of_fmap in Hs as (x & Hx & _).
    by apply (IH x).
Qed.

Lemma place_exn (steps : list (Z * Z)) :
  forall (deepest : Z * Z) (next_value v : value) (e : exn),
    place steps deepest next_value v = Raise e -> of_model e = false.
Proof.
  induction steps as [|[i_v i_s] steps IH]; intros [d_v d_s] next_value v e H;
    destruct v as [| | | | | |l|]; simpl in H; try by injection H as <-.
  - destruct (py_index (length l) (d_v - d_s)); simpl in H; [done|].
    destruct (py_index _ _); simpl in H; [done|]. by injection H as <-.
  - assert (forall l0 : list value,
              default (Raise IndexError)
                (k ← py_index (length l0) (i_v - i_s);
                 sub ← l0 !! k;
                 Some match place steps (d_v, d_s) next_value sub with
                      | Ok sub' => Ok (VList (<[k:=sub']> l0))
                      | Raise e0 => Raise e0
                      end) = Raise e ->
              of_model e = false) as Hinto.
    { intros l0 H0. destruct (py_index (length l0) (i_v - i_s)) as [k|];
        simpl in H0; [|by injection H0 as <-].
      destruct (l0 !! k) as [sub|]; simpl in H0; [|by injection H0 as <-].
      destruct (place steps (d_v, d_s) next_value sub) as [sub'|e0] eqn:Hp;
        [done|]. injection H0 as ->. by apply (IH _ _ _ _ Hp). }
    destruct (k ← py_index (length l) (i_v - i_s);
              sub ← l !! k;
              Some match place steps (d_v, d_s) next_value sub with
                   | Ok sub' => Ok (VList (<[k:=sub']> l))
                   | Raise e0 => Raise e0
                   end) as [r|] eqn:Hr.
    + apply (Hinto l). by rewrite Hr, H.
    + by apply (Hinto _ H).
Qed.

Lemma append_indexed_exn (cfg : config) (v_values : list value)
    (next_value : value) (v_idx : FIndex) (e : exn) :
  append_indexed cfg v_values next_value v_idx = Raise e -> of_model e = false.
Proof.
  unfold append_indexed, FIndex_next. intros H.
  destruct (pending v_idx) as [|v_i more]; [by injection H as <-|].
  destruct (if negb (row_major cfg) then _ else _) as [v_i' v_s'].
  destruct (if negb (sparse_arrays cfg) then _ else _) as [v|e'] eqn:Hpad.
  - destruct (py_last v_i'), (py_last v_s'); try by injection H as <-.
    destruct (place _ _ _ _) as [[| | | | | |l|]|e'] eqn:Hp;
      try done; try by injection H as <-.
    injection H as ->. by apply (place_exn _ _ _ _ _ Hp).
  - injection H as ->. destruct (negb (sparse_arrays cfg)); [|done].
    by apply (pad_array_exn _ _ _ Hpad).
Qed.

Lemma append_value_exn (cfg : config) (v_values : list value)
    (next_value : value) (v_idx : option FIndex) (n_vals : Z) (e : exn) :
  append_value cfg v_values next_value v_idx n_vals = Raise e ->
  of_model e = false.
Proof.
  unfold append_value. generalize (Z.to_nat n_vals) as turns. intros turns.
  revert v_values v_idx.
  induction turns as [|turns IH]; intros v_values v_idx H; simpl in H; [done|].
  destruct v_idx as [idx|]; [|by apply (IH _ _ H)].
  destruct (append_indexed cfg v_values next_value idx) as [[vs idx']|e'] eqn:Ha.
  - by apply (IH _ _ H).
  - injection H as ->. by apply (append_indexed_exn _ _ _ _ _ Ha).
Qed.

Lemma pad_front_exn (v_name : string) (n : Z) (parent : Namelist) (e : exn) :
  pad_front v_name n parent = Raise e -> of_model e = false.
Proof.
  unfold pad_front. destruct (Namelist_get v_name parent) as [[]|];
    intros H; try done; by injection H as <-.
Qed.

Lemma resize_indexed_exn (v_name : string) (pairs : list (option Z * option Z)) :
  forall (parent : Namelist) (e : exn),
    resize_indexed v_name pairs parent = Raise e -> of_model e = false.
Proof.
  induction pairs as [|[[i_p|] [i_v|]] pairs IH]; intros parent e H; simpl in H;
    try done; try by apply (IH _ _ H).
  destruct (i_v <? i_p); [|by apply (IH _ _ H)].
  destruct (pad_front v_name (i_p - i_v) parent) as [parent'|e'] eqn:Hp.
  - by apply (IH _ _ H).
  - injection H as ->. by apply (pad_front_exn _ _ _ _ Hp).
Qed.

Lemma resize_unindexed_exn (v_name : string) (pairs : list (option Z * Z)) :
  forall (parent : Namelist) (e : exn),
    resize_unindexed v_name pairs parent = Raise e -> of_model e = false.
Proof.
  induction pairs as [|[[i_p|] i_v] pairs IH]; intros parent e H; simpl in H;
    try done; try by injection H as <-.
  destruct (i_v <? i_p); [|by apply (IH _ _ H)].
  destruct (pad_front v_name (i_p - i_v) parent) as [parent'|e'] eqn:Hp.
  - by apply (IH _ _ H).
  - injection H as ->. by apply (pad_front_exn _ _ _ _ Hp).
Qed.

Lemma reconcile_indexed_exn (cfg : config) (v_name : string)
    (v_first : list (option Z)) (parent : Namelist) (e : exn) :
  reconcile_indexed cfg v_name v_first parent = Raise e -> of_model e = false.
Proof.
  unfold reconcile_indexed.
  destruct (index_get (lower v_name) (start_index parent)) as [p_idx|]; [|done].
  destruct (resize_indexed _ _ _) as [parent'|e'] eqn:Hr; [done|].
  intros [= ->]. by apply (resize_indexed_exn _ _ _ _ Hr).
Qed.

Lemma reconcile_unindexed_exn (cfg : config) (v_name : string)
    (parent : Namelist) (e : exn) :
  reconcile_unindexed cfg v_name parent = Raise e -> of_model e = false.
Proof.
  unfold reconcile_unindexed.
  destruct (index_get v_name (start_index parent)); [|done].
  destruct (index_get (lower v_name) (start_index parent)) as [p_start|];
    [|by intros [= <-]].
  destruct (resize_unindexed _ _ _) as [parent'|e'] eqn:Hr; [done|].
  intros [= ->]. by apply (resize_unindexed_exn _ _ _ _ Hr).
Qed.

(** The token that the search stops at is one of those it was given, and
    fewer tokens are left after it. *)
Lemma scan_suffix (cfg : config) (pf : bool) (toks : list string) :
  forall (in_comment : bool) (x pt t : string) (rest : list string)
         (pt' : string),
    scan cfg pf in_comment x toks pt = Scanned t rest pt' ->
    exists skipped : list string, x :: toks = skipped ++ t :: rest.
Proof.
  induction toks as [|y toks IH]; intros in_comment x pt t rest pt' H.
  - simpl in H. destruct in_comment.
    + by destruct (String.eqb x LF).
    + destruct (first_in x (comment_tokens cfg +:+ whitespace)) as [[]|];
        [| |done].
      * destruct pf; [|done].
        destruct (first_in x (comment_tokens cfg)) as [[]|]; try done.
        by destruct (String.eqb x LF).
      * injection H as <- <- _. by exists [].
  - assert (forall (ic : bool) (pt0 : string),
              scan cfg pf ic y toks pt0 = Scanned t rest pt' ->
              exists skipped : list string,
                x :: y :: toks = skipped ++ t :: rest) as Hnext.
    { intros ic pt0 H0. destruct (IH _ _ _ _ _ _ H0) as [skipped Hs].
      exists (x :: skipped). simpl. by rewrite Hs. }
    simpl in H. destruct in_comment.
    + destruct (String.eqb x LF); by apply (Hnext _ _ H).
    + destruct (first_in x (comment_tokens cfg +:+ whitespace)) as [[]|];
        [| |done].
      * destruct pf; [|by apply (Hnext _ _ H)].
        destruct (first_in x (comment_tokens cfg)) as [[]|];
          try by apply (Hnext _ _ H).
        destruct (String.eqb x LF); by apply (Hnext _ _ H).
      * injection H as <- <- _. by exists [].
Qed.

(** *** What every call leaves of the tokens *)

Section Turns.
Variable f90lex : list string.
Variable cfg : config.

Let W : nat -> parser -> Prop := within f90lex.
Let X : nat -> exn -> parser -> Prop := raised_within f90lex.

Lemma within_mono (n k : nat) (st : parser) :
  W n st -> (n <= k)%nat -> W k st.
Proof. intros (H1 & H2 & H3) Hle. repeat split; [done|lia|done]. Qed.

Lemma raised_mono (n k : nat) (e : exn) (st : parser) :
  X n e st -> (n <= k)%nat -> X k e st.
Proof.
  intros (H1 & H2 & H3) Hle. split; [done|]. split; [done|].
  intros msg Hm. apply (within_mono n); [by apply (H3 msg)|done].
Qed.

Lemma raised_of_exn (n : nat) (e : exn) (st : parser) :
  of_model e = false -> W n st -> X n e st.
Proof. intros He HW. destruct e; try done; by repeat split. Qed.

(** With no token left to read, nothing is run. *)
Lemma triple_no_turn {A : Type} (m : M A) (Q : A -> parser -> Prop)
    (X' : exn -> parser -> Prop) :
  triple (W 0) m Q X'.
Proof. intros st st' r (_ & H & _). simpl in H. lia. Qed.

Lemma triple_raised_mono {A : Type} (P : parser -> Prop) (m : M A)
    (Q : A -> parser -> Prop) (n k : nat) :
  triple P m Q (X n) -> (n <= k)%nat -> triple P m Q (X k).
Proof.
  intros H Hle. eapply triple_weaken; [exact H|done|done|].
  intros e st He. by apply (raised_mono n).
Qed.

(** A call that reads a token may be taken as one that reads none. *)
Lemma safe_of_turn {A : Type} (m : M A) :
  (forall n, triple (W (S n)) m (fun _ => W n) (X (S n))) ->
  forall n, triple (W n) m (fun _ => W n) (X n).
Proof.
  intros H [|n]; [apply triple_no_turn|].
  eapply triple_weaken; [apply (H n)|done| |done].
  intros a st Hst. apply (within_mono n); [done|lia].
Qed.

(** A call that reads a token, followed by calls that keep the bound. *)
Lemma turn_then {A B : Type} (m : M A) (k : A -> M B) (n : nat) :
  triple (W (S n)) m (fun _ => W n) (X (S n)) ->
  (forall a, triple (W n) (k a) (fun _ => W n) (X n)) ->
  triple (W (S n)) (m ≫= k) (fun _ => W n) (X (S n)).
Proof.
  intros Hm Hk. eapply (triple_bind _ _ _ (fun _ => W n)); [exact Hm|].
  intros a. apply (triple_raised_mono _ _ _ n); [apply Hk|lia].
Qed.

Lemma keep_turn {A : Type} (m : M A) (n : nat) :
  triple (W (S n)) m (fun _ => W n) (X (S n)) ->
  triple (W (S n)) m (fun _ => W (S n)) (X (S n)).
Proof.
  intros H. eapply triple_weaken; [exact H|done| |done].
  intros a st Hst. apply (within_mono n); [done|lia].
Qed.

(** Every call of [update_tokens] that returns has read a token. *)
Lemma turn_update_tokens (n : nat) (w : bool) (o : option string) (sk : bool) :
  triple (W (S n)) (update_tokens cfg w o sk) (fun _ => W n) (X (S n)).
Proof.
  intros st st' r ((consumed & Hsuf) & Hlen & Htok) H.
  unfold update_tokens in H.
  destruct (tokens st) as [|next_token toks] eqn:Htoks.
  { injection H as <- <-. by repeat split. }
  destruct (if bool_decide (is_Some (pfile st)) && w
            then override_or o (token st) else Some "") as [pv|];
    [|injection H as <- <-; by repeat split].
  destruct (scan cfg (bool_decide (is_Some (pfile st))) false next_token toks "")
    as [t rest pt|nt pt| |rest] eqn:Hscan;
    injection H as <- <-; try by repeat split.
  destruct (scan_suffix _ _ _ _ _ _ _ _ _ Hscan) as [skipped Hs].
  split; [|split]; cbn [tokens token].
  - exists (consumed ++ skipped ++ [t]). rewrite Hsuf, Hs, <- !app_assoc. done.
  - apply (f_equal length) in Hs. rewrite length_app in Hs. simpl in Hs, Hlen.
    lia.
  - intros t' [= <-]. rewrite Hsuf, Hs. rewrite !elem_of_app.
    right. right. by left.
Qed.

Lemma safe_update_tokens (w : bool) (o : option string) (sk : bool) (n : nat) :
  triple (W n) (update_tokens cfg w o sk) (fun _ => W n) (X n).
Proof. apply safe_of_turn. intros k. apply turn_update_tokens. Qed.

Lemma safe_try_ValueError {A : Type} (n : nat) (body : M A)
    (handler : string -> M A) (Q : A -> parser -> Prop) :
  triple (W n) body Q (X n) -> (forall msg, triple (W n) (handler msg) Q (X n)) ->
  triple (W n) (try_ValueError body handler) Q (X n).
Proof.
  intros Hb Hh. apply (triple_try_ValueError _ _ _ (fun _ => W n)); [|done].
  eapply triple_weaken; [exact Hb|done|done|].
  intros [] st He; try exact He. destruct He as (_ & _ & He). by apply (He msg).
Qed.

Lemma safe_with_fuel {A : Type} (loop : nat -> M A) (n : nat) :
  (forall fuel, triple (W fuel) (loop fuel) (fun _ => W fuel) (X fuel)) ->
  triple (W n) (with_fuel loop) (fun _ => W n) (X n).
Proof.
  intros H st st' r HW Hr. unfold with_fuel in Hr.
  pose proof HW as (Hsuf & Hlen & Htok).
  assert (W (S (length (tokens st))) st) as HW'.
  { repeat split; [done|lia|done]. }
  specialize (H _ _ _ _ HW' Hr). destruct r as [a|e].
  - apply (within_mono (S (length (tokens st)))); [done|lia].
  - apply (raised_mono (S (length (tokens st)))); [done|lia].
Qed.

Ltac safe_step :=
  lazymatch goal with
  | |- triple (W ?n) (mbind _ _) _ _ =>
      eapply (triple_bind _ _ _ (fun _ => W n)); [|intros ?]
  | |- triple _ (mret _) _ _ => apply triple_ret; try done
  | |- triple _ (raise _) _ _ =>
      let H := fresh "H" in
      apply triple_raise; intros ? H;
      split; [done|split; [done|intros ? ?; first [done | exact H]]]
  | |- triple _ get_token _ _ => by apply triple_get_token
  | |- triple _ get_prior_token _ _ => by apply triple_get_prior_token
  | |- triple _ (lift ?r) _ _ =>
      let E := fresh "E" in
      apply triple_lift; intros ? ?; destruct r eqn:E; [done|];
      apply raised_of_exn; [|done];
      eauto using append_value_exn, reconcile_indexed_exn,
        reconcile_unindexed_exn
  | |- triple _ (next_tokens _) _ _ => apply safe_update_tokens
  | |- triple _ (update_tokens _ _ _ _) _ _ => apply safe_update_tokens
  | |- triple _ (try_ValueError _ _) _ _ =>
      apply safe_try_ValueError; [|intros ?]
  | |- triple _ (int_of_token ?tok) _ _ => unfold int_of_token
  | |- triple _ (assert_int ?v) _ _ => unfold assert_int
  | |- triple _ (if ?b then _ else _) _ _ => destruct b
  | |- triple _ (match ?x with _ => _ end) _ _ => destruct x
  end.

Lemma turn_parse_index (v_name : string) (n : nat) :
  triple (W (S n)) (parse_index cfg v_name) (fun _ => W n) (X (S n)).
Proof.
  unfold parse_index. apply turn_then; [apply turn_update_tokens|].
  intros _. repeat safe_step.
Qed.

Lemma safe_parse_indices_loop (fuel : nat) (v_name : string) :
  forall v_indices : list triplet,
    triple (W fuel) (parse_indices_loop fuel cfg v_name v_indices)
      (fun _ => W fuel) (X fuel).
Proof.
  induction fuel as [|fuel IH]; intros v_indices; [apply triple_no_turn|].
  cbn [parse_indices_loop]. safe_step; [safe_step|]. safe_step; [|safe_step].
  apply keep_turn. apply turn_then; [apply turn_parse_index|]. intros idx.
  apply IH.
Qed.

Lemma safe_parse_indices (n : nat) :
  triple (W n) (parse_indices cfg) (fun _ => W n) (X n).
Proof.
  unfold parse_indices. safe_step; [safe_step|].
  apply safe_with_fuel. intros fuel. apply safe_parse_indices_loop.
Qed.

Variable fpy : bool -> string -> option value.
Variable FIndex_init : list triplet -> option Z -> FIndex.
Variable f90repr : value -> string.
Variable var_strings : string -> value -> list string.

Lemma safe_parse_value (w : bool) (o : option string) (n : nat) :
  triple (W n) (parse_value fpy cfg w o) (fun _ => W n) (X n).
Proof. unfold parse_value. repeat safe_step. Qed.

(** Every turn of the loop over the values reads a token. *)
Lemma safe_value_loop (fuel : nat) (patch_values : option (list value)) :
  forall (v_values : list value) (v_idx : option FIndex) (n_vals : option Z)
         (p_idx : nat),
    triple (W fuel) (value_loop fpy f90repr cfg fuel patch_values v_values
                       v_idx n_vals p_idx) (fun _ => W fuel) (X fuel).
Proof.
  induction fuel as [|fuel IH]; intros v_values v_idx n_vals p_idx;
    [apply triple_no_turn|].
  cbn [value_loop]. safe_step; [safe_step|]. safe_step; [safe_step|].
  safe_step; [|safe_step].
  safe_step; [repeat first [apply safe_parse_value | safe_step]|].
  safe_step; [safe_step|]. safe_step; [safe_step|].
  safe_step; [repeat first [apply safe_parse_value | safe_step]|].
  safe_step. safe_step; [safe_step|]. safe_step; [safe_step|].
  destruct (truthy_list patch_values) as [values|].
  - safe_step.
    + safe_step; [|safe_step].
      apply keep_turn. apply turn_then; [apply turn_update_tokens|]. intros _.
      safe_step; [|apply IH]. repeat safe_step.
    + apply keep_turn. apply turn_then; [apply turn_update_tokens|]. intros _.
      apply IH.
  - apply keep_turn. apply turn_then; [apply turn_update_tokens|]. intros _.
    apply IH.
Qed.

(** From the [=] on, a statement reads a token, and it has no derived type
    unless the file has the token [%]. *)
Lemma turn_assign_values (v_name : string) (v_idx : option FIndex)
    (parent : Namelist) (patch_nml : list (string * value)) (n : nat) :
  triple (W (S n)) (assign_values fpy f90repr cfg v_name v_idx parent patch_nml)
    (fun _ => W n) (X (S n)).
Proof.
  unfold assign_values.
  eapply (triple_bind _ _ _ (fun tok st => W (S n) st /\ tok = token st));
    [by apply triple_get_token|].
  intros tok. destruct (token_is tok "%") eqn:Hpct.
  { apply triple_raise. intros st [(_ & _ & Htok) ->].
    split; [done|]. split; [|done]. intros _.
    destruct (token st) as [t|]; [|done]. apply Htok. f_equal.
    simpl in Hpct. rewrite orb_false_r in Hpct.
    by apply String.eqb_eq in Hpct. }
  eapply triple_weaken with (P' := W (S n)) (Q' := fun _ => W n)
                            (X' := X (S n)); [|by intros st [? _]|done|done].
  destruct (negb (token_is tok "=")); [safe_step|].
  apply turn_then; [apply turn_update_tokens|]. intros _.
  destruct (dict_get (lower v_name) patch_nml) as [values|];
    (safe_step;
     [apply safe_with_fuel; intros fuel; apply safe_value_loop|]);
    destruct a; safe_step.
Qed.

Lemma turn_parse_variable (parent : Namelist)
    (patch_nml : list (string * value)) (n : nat) :
  triple (W (S n)) (parse_variable fpy FIndex_init f90repr cfg parent patch_nml)
    (fun _ => W n) (X (S n)).
Proof.
  unfold parse_variable.
  eapply (triple_bind _ _ _ (fun _ => W (S n))); [by apply triple_get_prior_token|].
  intros [v_name|]; [|safe_step].
  eapply (triple_bind _ _ _ (fun _ => W (S n))); [by apply triple_get_token|].
  intros tok.
  eapply (triple_bind _ _ _ (fun _ => W (S n))).
  { destruct (token_is tok "(");
      repeat first [apply safe_parse_indices | safe_step]. }
  intros [v_idx parent']. apply turn_assign_values.
Qed.

Lemma safe_pfile_write (text : string) (n : nat) :
  triple (W n) (pfile_write text) (fun _ => W n) (X n).
Proof.
  intros st st' r HW H. unfold pfile_write in H.
  destruct (pfile st); injection H as <- <-; [exact HW|by repeat split].
Qed.

Lemma safe_append_patched (grp_patch : list (string * value)) (n : nat) :
  forall g_vars : Namelist,
    triple (W n) (append_patched var_strings grp_patch g_vars)
      (fun _ => W n) (X n).
Proof.
  induction grp_patch as [|[v_name v_val] grp_patch IH]; intros g_vars;
    cbn [append_patched]; [safe_step|].
  safe_step; [|apply IH].
  generalize (var_strings v_name v_val) as v_strs.
  induction v_strs as [|v_str v_strs IHs]; [safe_step|].
  safe_step; [apply safe_pfile_write|apply IHs].
Qed.

(** Every turn of the loop over a group reads a token. *)
Lemma safe_group_loop (fuel : nat) (g_name : string) :
  forall (g_vars : Namelist) (grp_patch nmls : list (string * value)),
    triple (W fuel) (group_loop fpy FIndex_init f90repr var_strings cfg fuel
                       g_name g_vars grp_patch nmls)
      (fun _ => W fuel) (X fuel).
Proof.
  induction fuel as [|fuel IH]; intros g_vars grp_patch nmls;
    [apply triple_no_turn|].
  cbn [group_loop].
  eapply (triple_bind _ _ _ (fun tok st => W (S fuel) st /\ tok = token st));
    [by apply triple_get_token|].
  intros tok.
  eapply (triple_bind _ _ _
            (fun _ st => W fuel st
                         \/ (W (S fuel) st
                             /\ token_in (token st) ["="; "%"; "("] = true))).
  { destruct (token_in tok ["="; "%"; "("]) eqn:Htrig; cbn [negb].
    - apply triple_ret. intros st [HW ->]. by right.
    - eapply triple_weaken with (P' := W (S fuel)) (Q' := fun _ => W fuel)
                                (X' := X (S fuel));
        [apply turn_update_tokens|by intros st [? _]|by left|done]. }
  intros _.
  eapply (triple_bind _ _ _
            (fun tok' st => (W fuel st
                             \/ (W (S fuel) st
                                 /\ token_in tok' ["="; "%"; "("] = true))));
    [apply triple_get_token; by intros st [?|[? ?]]; [left|right]|].
  intros tok'.
  eapply triple_weaken with
    (P' := fun st => W fuel st
                     \/ (W (S fuel) st
                         /\ token_in tok' ["="; "("; "%"] = true))
    (Q' := fun _ => W (S fuel)) (X' := X (S fuel)); [| |done|done]; cycle 1.
  { intros st [?|[? Ht]]; [by left|right]. split; [done|].
    destruct tok' as [t|]; [|done]. simpl in Ht |- *.
    by destruct (String.eqb t "="), (String.eqb t "("), (String.eqb t "%"). }
  eapply (triple_bind _ _ _ (fun _ => W fuel)).
  { destruct (token_in tok' ["="; "("; "%"]) eqn:Htrig.
    - eapply triple_weaken with (P' := W (S fuel)) (Q' := fun _ => W fuel)
                                (X' := X (S fuel)); [| |done|done].
      + apply turn_then; [apply turn_parse_variable|].
        intros [[[v_name v_values] g_vars'] grp_patch']. safe_step.
      + intros st [?|[? _]]; [|done]. apply (within_mono fuel); [done|lia].
    - apply triple_ret. by intros st [?|[_ ?]]. }
  intros [g_vars' grp_patch'].
  apply (triple_raised_mono _ _ _ fuel); [|lia].
  eapply triple_weaken with (P' := W fuel) (Q' := fun _ => W fuel)
                            (X' := X fuel); [|done| |done]; cycle 1.
  { intros a st Hst. apply (within_mono fuel); [done|lia]. }
  safe_step; [safe_step|]. safe_step; [|apply IH].
  safe_step; [apply safe_append_patched|]. safe_step.
Qed.

Lemma safe_skip_to_group (fuel : nat) :
  triple (W fuel) (skip_to_group cfg fuel) (fun _ => W fuel) (X fuel).
Proof.
  induction fuel as [|fuel IH]; [apply triple_no_turn|].
  cbn [skip_to_group]. safe_step; [safe_step|]. safe_step; [safe_step|].
  apply keep_turn. apply turn_then; [apply turn_update_tokens|].
  intros _. apply IH.
Qed.

(** [try: ... except StopIteration:] around calls that keep the bound. *)
Lemma safe_try_StopIteration {A : Type} (body : M A) (n k : nat) :
  triple (W n) body (fun _ => W k) (X n) ->
  triple (W n) (try_StopIteration body)
    (fun found st => match found with Some _ => W k st | None => True end)
    (X n).
Proof.
  intros H. apply triple_try_StopIteration.
  eapply triple_weaken; [exact H|done|done|]. by intros [].
Qed.

(** Every turn of the loop over the groups reads a token. *)
Lemma safe_readstream_loop (fuel : nat) :
  forall (nmls : list (string * value)) (nml_patch : patch_tree),
    triple (W fuel) (readstream_loop fpy FIndex_init f90repr var_strings cfg
                       fuel nmls nml_patch)
      (fun _ _ => True) (X fuel).
Proof.
  induction fuel as [|fuel IH]; intros nmls nml_patch; [apply triple_no_turn|].
  cbn [readstream_loop].
  eapply triple_bind.
  { apply (safe_try_StopIteration _ (S fuel) (S fuel)).
    safe_step; [safe_step|]. safe_step; [repeat safe_step|].
    apply safe_with_fuel. apply safe_skip_to_group. }
  intros [u|]; [|by apply triple_ret].
  eapply (triple_bind _ _ _ (fun _ => W fuel)); [apply turn_update_tokens|].
  intros _. apply (triple_raised_mono _ _ _ fuel); [|lia].
  eapply (triple_bind _ _ _ (fun _ => W fuel)); [by apply triple_get_token|].
  intros tok.
  eapply (triple_bind _ _ _ (fun _ => W fuel)).
  { destruct (bool_decide (format_token tok = "")); [safe_step|].
    apply safe_with_fuel. intros fuel'. apply safe_group_loop. }
  intros [nmls' grp_patch].
  eapply triple_bind;
    [apply (safe_try_StopIteration _ fuel fuel); apply safe_update_tokens|].
  intros [u'|]; [apply IH|by apply triple_ret].
Qed.

End Turns.

(** The turns that the model gives to the loops of [readstream] never run
    out, whatever the tokens, the patch and the mode, and the branch of a
    derived type is reached only in a file that has the token [%]. *)
Lemma readstream_safe (fpy : bool -> string -> option value)
    (FIndex_init : list triplet -> option Z -> FIndex)
    (f90repr : value -> string)
    (var_strings : string -> value -> list string) (cfg : config)
    (f90lex : list string) (nml_patch : patch_tree) (patching : bool)
    (e : exn) :
  (readstream fpy FIndex_init f90repr var_strings cfg f90lex nml_patch
     patching).1 = Raise e ->
  e <> OutOfFuel /\ (e = NotModelled -> "%" ∈ f90lex).
Proof.
  unfold readstream.
  set (st0 := {| tokens := f90lex; token := None; prior_token := None;
                 pfile := if patching then Some "" else None |}).
  assert (within f90lex (S (length f90lex)) st0) as H0.
  { split; [by exists []|]. split; [simpl; lia|done]. }
  pose proof (safe_try_StopIteration f90lex _ (S (length f90lex))
                (S (length f90lex))
                (safe_update_tokens f90lex cfg false None false
                   (S (length f90lex))) st0) as Hfirst.
  destruct (try_StopIteration (update_tokens cfg false None false) st0)
    as [[[u|]|e'] st1] eqn:E1; specialize (Hfirst _ _ H0 eq_refl).
  - intros H.
    pose proof (safe_readstream_loop f90lex cfg fpy FIndex_init f90repr
                  var_strings (S (length f90lex)) [] nml_patch st1) as Hloop.
    destruct (readstream_loop fpy FIndex_init f90repr var_strings cfg
                (S (length f90lex)) [] nml_patch st1) as [r st2].
    simpl in H. subst r. specialize (Hloop _ _ Hfirst eq_refl).
    destruct Hloop as (? & ? & _). by split.
  - done.
  - intros [= ->]. destruct Hfirst as (? & ? & _). by split.
Qed.

(** The loops of [readstream] and of the functions it calls end: every turn
    of a loop reads a token, so that the turns of the model, one more than
    the tokens that are left, never run out, whatever the tokens, the patch
    and the mode.  And a file without the token [%] never takes the branch
    of a derived type, which is not followed here: what [readstream] gives
    for such a file, a namelist or an exception, is what the source
    gives. *)
Theorem readstream_turns_suffice (fpy : bool -> string -> option value)
    (FIndex_init : list triplet -> option Z -> FIndex)
    (f90repr : value -> string)
    (var_strings : string -> value -> list string) (cfg : config)
    (f90lex : list string) (nml_patch : patch_tree) (patching : bool) :
  (readstream fpy FIndex_init f90repr var_strings cfg f90lex nml_patch
     patching).1 <> Raise OutOfFuel
  /\ ("%" ∉ f90lex ->
      (readstream fpy FIndex_init f90repr var_strings cfg f90lex nml_patch
         patching).1 <> Raise NotModelled).
Proof.
  split.
  - intros H. by destruct (readstream_safe _ _ _ _ _ _ _ _ _ H).
  - intros Hno H. destruct (readstream_safe _ _ _ _ _ _ _ _ _ H) as [_ Hm].
    by apply Hno, Hm.
Qed.

(** Patching with a patch that has no value for any variable copies a file
    that has no token [%]: the run is one of the source, it ends with the
    namelist or with an exception of the parser, and when it ends with the
    namelist the patch file holds the text of all the tokens of the file,
    white space and comments included, and nothing else, and all tokens were
    read. *)
Theorem readstream_passes_on (fpy : bool -> string -> option value)
    (FIndex_init : list triplet -> option Z -> FIndex)
    (f90repr : value -> string)
    (var_strings : string -> value -> list string) (cfg : config)
    (f90lex : list string) (nml_patch : patch_tree)
    (r : result (list (string * value))) (st' : parser) :
  ends_lines f90lex -> no_values nml_patch -> "%" ∉ f90lex ->
  readstream fpy FIndex_init f90repr var_strings cfg f90lex nml_patch true
  = (r, st') ->
  match r with
  | Ok _ => pfile st' = Some (cat f90lex) /\ tokens st' = []
  | Raise e => of_model e = false
  end.
Proof.
  intros Hlines Hpatch Hno H. destruct r as [nmls|e].
  - by apply (readstream_copies fpy FIndex_init f90repr var_strings cfg f90lex
                nml_patch nmls st' Hlines Hpatch H).
  - destruct (readstream_safe fpy FIndex_init f90repr var_strings cfg f90lex
                nml_patch true e) as [H1 H2]; [by rewrite H|].
    destruct e; try done; exfalso; by apply Hno, H2.
Qed.

Lemma readstream_passes_on_witness :
  pfile (readstream Example.fpy Example.FIndex_init Example.f90repr
           Example.var_strings init_config
           ["! two values"; LF; "&"; "a"; " "; "x"; "="; "1"; ","; " "; "2"; " ";
            "! here"; LF; "/"; LF]
           [("b", [])] true).2
  = Some (cat ["! two values"; LF; "&"; "a"; " "; "x"; "="; "1"; ","; " "; "2";
               " "; "! here"; LF; "/"; LF])
  /\ tokens (readstream Example.fpy Example.FIndex_init Example.f90repr
               Example.var_strings init_config
               ["! two values"; LF; "&"; "a"; " "; "x"; "="; "1"; ","; " "; "2";
                " "; "! here"; LF; "/"; LF]
               [("b", [])] true).2 = [].
Proof.
  apply (readstream_passes_on Example.fpy Example.FIndex_init Example.f90repr
           Example.var_strings init_config _ [("b", [])]
           (Ok [("a", VDict [("x", VList [VInt 1; VInt 2])])])).
  - by right.
  - by repeat constructor.
  - apply not_elem_of_cons. split; [discriminate|].
    repeat (apply not_elem_of_cons; split; [discriminate|]).
    apply not_elem_of_nil.
  - reflexivity.
Defined.


End TurnProps.
